(** * Quantitative risk and operations analysis: a verification development

    A shallow embedding of the two calculators of the repository that do
    algorithmic work,

    - [forge-operator/scripts/operational_calculator.py]
      ([OperationalCalculator]: the critical path, the burn rate, the runway,
      the unit economics, the MVP plan, the hiring plan and build versus
      buy), and
    - [veto-skeptic/scripts/risk_analyzer.py] ([RiskAnalyzer]: the joint
      probability, the Monte Carlo simulation, the failure modes, the Bayesian
      update and the base-rate adjustment),

    together with the properties of the specification and further properties
    of the code, each stated over the embedded code.  The methods that call
    into scipy are left out. *)

From Stdlib Require Import ZArith QArith List String Lia Bool.
From Stdlib Require Import Reals Lra Floats.
From stdpp Require Import gmap strings list fin_maps sorting.

Set Default Proof Using "Type".
Set Warnings "-inexact-float".
Local Open Scope Z_scope.

(** * Python values and control flow *)

Module Py.

(** The built-in exceptions the embedded code can raise. *)
Inductive exn : Set :=
| ValueError
| IndexError.

(** A call either returns a value or raises. *)
Inductive res (A : Type) : Type :=
| Ret (a : A)
| Raise (e : exn).
Arguments Ret {A} a.
Arguments Raise {A} e.

(** Sequencing: an exception ends the computation. *)
#[global] Instance res_ret : MRet res := @Ret.
#[global] Instance res_bind : MBind res := λ A B k c,
  match c with
  | Ret a => k a
  | Raise e => Raise e
  end.
#[global] Instance res_fmap : FMap res := λ A B f c,
  match c with
  | Ret a => Ret (f a)
  | Raise e => Raise e
  end.

(** [max(iterable)] over integers: the built-in raises [ValueError] on an
    empty iterable. *)
Definition max (xs : list Z) : res Z :=
  match xs with
  | [] => Raise ValueError
  | x :: r => Ret (fold_left Z.max r x)
  end.

(** [sum(iterable)] over integers. *)
Definition sum (xs : list Z) : Z := fold_left Z.add xs 0.

End Py.

(** * The critical-path scheduler

    [OperationalCalculator.calculate_critical_path] of
    [forge-operator/scripts/operational_calculator.py]. *)

Module OperationalCalculator.
Import Py.

(** ** Data *)

(** A task as the caller passes it:
    [{'name': str, 'duration': int, 'dependencies': List[str]}].  The dicts
    of one collection are distinct objects. *)
Record task : Set := Task {
  name : string;
  duration : Z;
  dependencies : list string
}.

(** The same dict once the scheduler has written ['early_start'] and
    ['early_finish'] into it.  The first loop of the function writes both
    keys of every task, whatever the dict held under them before. *)
Record timed : Set := Timed {
  base : task;
  early_start : Z;
  early_finish : Z
}.

(** The dict at the end of the call, with ['late_finish'], ['late_start'] and
    ['slack'] written as well. *)
Record scheduled : Set := Scheduled {
  fwd : timed;
  late_finish : Z;
  late_start : Z;
  slack : Z
}.

(** The dict the function returns. ['average_slack'] is a Python float; it is
    kept as the exact quotient that Python then rounds. *)
Record analysis : Set := Analysis {
  project_duration : Z;
  critical_path : list string;
  critical_path_length : nat;
  tasks_with_slack : list string;
  average_slack : Q
}.

(** ** The task graph

    [task_map = {task['name']: task for task in tasks}] maps a name to the
    task _object_, the very dict that sits in [tasks] and that the loops
    below mutate.  The objects are the positions of the list, so the map
    holds positions; when a name occurs twice the later task wins, as in the
    dict comprehension. *)
Fixpoint index_names (i : nat) (ts : list task) (m : gmap string nat)
  : gmap string nat :=
  match ts with
  | [] => m
  | t :: r => index_names (S i) r (<[name t := i]> m)
  end.

Definition task_map (tasks : list task) : gmap string nat :=
  index_names 0 tasks ∅.

(** ** Forward pass *)

(** First loop: [early_start = 0], [early_finish = duration]. *)
Definition init_early (t : task) : timed :=
  {| base := t; early_start := 0; early_finish := duration t |}.

(** [task_map[dep]['early_finish'] for dep in deps if dep in task_map],
    read from the current store [st].  A position that [task_map] holds is a
    position of the store ([CriticalPath.task_map_lookup]), so only the
    identifiers outside [task_map] are passed over. *)
Definition dep_finishes (tm : gmap string nat) (st : list timed)
    (deps : list string) : list Z :=
  omap (λ dep, j ← tm !! dep; early_finish <$> st !! j) deps.

(** The body of the [for task in tasks] loop of the forward pass, for the
    task at position [i].  It returns the store and whether it set
    [changed]. *)
Definition relax (tm : gmap string nat) (st : list timed) (i : nat)
  : res (list timed * bool) :=
  match st !! i with
  | None => Ret (st, false)
  | Some t =>
      match dependencies (base t) with
      | [] => Ret (st, false)
      | deps =>
          max_finish ← Py.max (dep_finishes tm st deps);
          if early_start t <? max_finish then
            Ret (<[i := {| base := base t;
                           early_start := max_finish;
                           early_finish := max_finish + duration (base t) |}]> st,
                 true)
          else Ret (st, false)
      end
  end.

(** One execution of the [for] loop: the positions [idx] in order. *)
Fixpoint sweep (tm : gmap string nat) (idx : list nat) (st : list timed)
    (changed : bool) : res (list timed * bool) :=
  match idx with
  | [] => Ret (st, changed)
  | i :: r =>
      '(st', c) ← relax tm st i;
      sweep tm r st' (changed || c)
  end.

Definition sweep_all (tm : gmap string nat) (st : list timed)
  : res (list timed * bool) :=
  sweep tm (seq 0 (length st)) st false.

(** [while changed: ...].  Python's loop has no bound; [fuel] bounds the
    number of sweeps and [None] says that the loop is still running when the
    fuel is spent. *)
Fixpoint forward_pass (fuel : nat) (tm : gmap string nat) (st : list timed)
  : option (res (list timed)) :=
  match fuel with
  | O => None
  | S fuel' =>
      match sweep_all tm st with
      | Raise e => Some (Raise e)
      | Ret (st', true) => forward_pass fuel' tm st'
      | Ret (st', false) => Some (Ret st')
      end
  end.

(** ** Backward pass, slack and result *)

(** Second and third [for] loops, fused per task: neither reads another
    task. *)
Definition finish (project_duration : Z) (t : timed) : scheduled :=
  let late_finish := project_duration in
  let late_start := project_duration - duration (base t) in
  {| fwd := t;
     late_finish := late_finish;
     late_start := late_start;
     slack := late_start - early_start t |}.

Definition sname (s : scheduled) : string := name (base (fwd s)).

Definition summarise (project_duration : Z) (final : list scheduled)
  : analysis :=
  let critical_tasks := sname <$> filter (λ s, slack s = 0) final in
  {| project_duration := project_duration;
     critical_path := critical_tasks;
     critical_path_length := length critical_tasks;
     tasks_with_slack := sname <$> filter (λ s, 0 < slack s) final;
     average_slack :=
       match final with
       | [] => 0%Q
       | _ => Qmake (Py.sum (slack <$> final)) (Pos.of_nat (length final))
       end |}.

(** ** The function

    The result is the returned dict and the task list as the call leaves
    it (the caller's dicts, mutated in place). *)
Definition calculate_critical_path (fuel : nat) (tasks : list task)
  : option (res (analysis * list scheduled)) :=
  let tm := task_map tasks in
  st ← forward_pass fuel tm (init_early <$> tasks);
  Some (st ← st;
        project_duration ← Py.max (early_finish <$> st);
        let final := finish project_duration <$> st in
        Ret (summarise project_duration final, final)).

(** ** Dependency identifiers

    An identifier resolves when [dep in task_map] holds. *)
Definition resolves (tm : gmap string nat) (dep : string) : bool :=
  bool_decide (is_Some (tm !! dep)).

(** A task is anchored when its dependency list is empty or names at least
    one task of the collection: the generator handed to [max] in the forward
    pass is then not empty. *)
Definition anchored (tm : gmap string nat) (t : task) : bool :=
  match dependencies t with
  | [] => true
  | deps => existsb (resolves tm) deps
  end.

(** The task with the identifiers that do not resolve taken out of its
    dependency list, and the collection pruned so. *)
Definition prune_task (tm : gmap string nat) (t : task) : task :=
  {| name := name t;
     duration := duration t;
     dependencies := List.filter (resolves tm) (dependencies t) |}.

Definition prune (tasks : list task) : list task :=
  prune_task (task_map tasks) <$> tasks.

(** What a call leaves behind for its caller, the dependency lists apart:
    the returned dict, and per task the name and the five values written
    into it. *)
Definition written (s : scheduled) : string * (Z * Z) * (Z * Z * Z) :=
  (sname s, (early_start (fwd s), early_finish (fwd s)),
   (late_finish s, late_start s, slack s)).

Definition observe (out : option (res (analysis * list scheduled)))
  : option (res (analysis * list (string * (Z * Z) * (Z * Z * Z)))) :=
  match out with
  | None => None
  | Some (Raise e) => Some (Raise e)
  | Some (Ret (a, final)) => Some (Ret (a, written <$> final))
  end.

(** ** Notions for the proofs *)

(** The two early times of a task are written together. *)
Definition consistent (t : timed) : Prop :=
  early_finish t = early_start t + duration (base t).

(** Pruning, on a task of the store and on the outcome of a step of the
    forward pass. *)
Definition prune_timed (tm : gmap string nat) (t : timed) : timed :=
  {| base := prune_task tm (base t);
     early_start := early_start t;
     early_finish := early_finish t |}.

Definition prune_step (tm : gmap string nat) (r : res (list timed * bool))
  : res (list timed * bool) :=
  match r with
  | Ret (st, c) => Ret (prune_timed tm <$> st, c)
  | Raise e => Raise e
  end.

(** ** Example graphs *)

Definition four_tasks : list task :=
  [ Task "A" 3 [];
    Task "B" 2 ["A"];
    Task "C" 4 ["A"];
    Task "D" 1 ["B"; "C"] ]%string.

(** A and B depend on each other. *)
Definition two_cycle (da db : Z) : list task :=
  [ Task "A" da ["B"]; Task "B" db ["A"] ]%string.

(** The store of [two_cycle da db] while the forward loop runs: A started at
    [a], B at [b]. *)
Definition two_cycle_store (da db a b : Z) : list timed :=
  [ Timed (Task "A" da ["B"]) a (a + da);
    Timed (Task "B" db ["A"]) b (b + db) ]%string.

(** B names A and an identifier [X] that no task carries. *)
Definition dangling_beside : list task :=
  [ Task "A" 3 []; Task "B" 2 ["A"; "X"] ]%string.

End OperationalCalculator.

(** * Numbers

    The functions of [risk_analyzer.py] are annotated with [float] and use
    [+], [-], [*], [/], [==], [<] and [<=] only: Python takes these from the
    operands, so the embedding takes them from a class.  [binary64] is the
    arithmetic of Python's [float] and of numpy's [float64]; [exact] is the
    arithmetic of the real numbers. *)

Module Num.

Class Arith (T : Type) : Type := {
  add : T → T → T;
  sub : T → T → T;
  mul : T → T → T;
  div : T → T → T;
  eqb : T → T → bool;
  ltb : T → T → bool;
  leb : T → T → bool;
  (** An [int] operand, as the other operand's type reads it. *)
  of_int : Z → T
}.

(** A decimal literal [a/b]: in [binary64] the quotient of two integers below
    [2^53] is the double nearest to the fraction, which is how Python reads
    the literal. *)
Definition dec {T} `{Arith T} (a b : Z) : T := div (of_int a) (of_int b).

(** [float(n)] for [|n| < 2^63]. *)
Definition float_of_int (n : Z) : float :=
  match n with
  | Z0 => PrimFloat.of_uint63 (Uint63.of_Z 0)
  | Zpos _ => PrimFloat.of_uint63 (Uint63.of_Z n)
  | Zneg _ => PrimFloat.opp (PrimFloat.of_uint63 (Uint63.of_Z (- n)))
  end.

(** A mantissa shifted left by 52 bits: its product with the mantissa of
    1.0. *)
Definition shl52 (m : positive) : positive :=
  Eval cbv in (4503599627370496 * m)%positive.

#[export] Instance binary64 : Arith float := {
  add := PrimFloat.add;
  sub := PrimFloat.sub;
  mul := PrimFloat.mul;
  div := PrimFloat.div;
  eqb := PrimFloat.eqb;
  ltb := PrimFloat.ltb;
  leb := PrimFloat.leb;
  of_int := float_of_int
}.

#[export] Instance exact : Arith R := {
  add := Rplus;
  sub := Rminus;
  mul := Rmult;
  div := Rdiv;
  eqb := λ x y, if Req_dec_T x y then true else false;
  ltb := λ x y, if Rlt_dec x y then true else false;
  leb := λ x y, if Rle_dec x y then true else false;
  of_int := IZR
}.

End Num.

(** * The risk analyzer

    [RiskAnalyzer] of [veto-skeptic/scripts/risk_analyzer.py]. *)

Module RiskAnalyzer.
Import Py Num.

Section Analyzer.
Context {T : Type} `{Arith T}.

(** ** The object *)

Record analyzer : Type := Analyzer {
  confidence_level : T;
  base_rates : gmap string T
}.

(** [__init__(self, confidence_level=0.95)]. *)
Definition init (confidence_level : T) : analyzer :=
  {| confidence_level := confidence_level;
     base_rates :=
       {[ "startup_unicorn" := dec 6 100000;
          "new_product_success" := dec 5 100;
          "it_project_on_time" := dec 16 100;
          "ma_value_creation" := dec 30 100;
          "platform_network_effects" := dec 1 100;
          "behavior_change_scale" := dec 8 100;
          "regulatory_approval_new" := dec 22 100;
          "disruption_incumbent" := dec 3 100 ]}%string |}.

(** ** [bayesian_update] ([self] is not used) *)
Definition bayesian_update (prior likelihood_given_true likelihood_given_false : T)
  : T :=
  let evidence :=
    add (mul likelihood_given_true prior)
        (mul likelihood_given_false (sub (of_int 1) prior)) in
  if eqb evidence (of_int 0) then prior
  else
    let posterior := div (mul likelihood_given_true prior) evidence in
    posterior.

(** ** [adjust_for_base_rate] *)
Definition adjust_for_base_rate (self : analyzer) (optimistic_projection : T)
    (scenario_type : string) : T :=
  match base_rates self !! scenario_type with
  | Some base_rate =>
      add (mul base_rate (dec 7 10)) (mul optimistic_projection (dec 3 10))
  | None => div optimistic_projection (of_int 3)
  end.

End Analyzer.

Arguments analyzer T : clear implicits.

(** ** numpy

    [monte_carlo_simulation] is a sequence of calls into numpy.  numpy is
    not code of the repository: the calls are taken as given, over the element
    type [F] of its arrays and the state [G] of the process-wide generator
    behind [np.random], which every draw reads and advances. *)

Class Numpy (F G : Type) : Type := {
  np_arith :: Arith F;
  (** [np.random.normal(loc, scale, size)] *)
  random_normal : F → F → Z → G → res (list F) * G;
  (** [np.random.random(size)] *)
  random_random : Z → G → list F * G;
  (** [np.percentile(a, q)] for one rank [q]; the call with a list of ranks
      is this one rank by rank. *)
  percentile : list F → Z → res F;
  np_mean : list F → F;
  np_median : list F → F;
  np_std : list F → F;
  np_min : list F → res F;
  np_max : list F → res F
}.

(** The dict that [monte_carlo_simulation] returns. *)
Record simulation (F : Type) : Type := Simulation {
  mean : F;
  median : F;
  std : F;
  p5 : F;
  p10 : F;
  p25 : F;
  p50 : F;
  p75 : F;
  p90 : F;
  p95 : F;
  worst_case : F;
  best_case : F;
  probability_loss : F;
  value_at_risk_95 : F;
  conditional_var_95 : F
}.
Arguments Simulation {F}.
Arguments mean {F}. Arguments median {F}. Arguments std {F}.
Arguments p5 {F}. Arguments p10 {F}. Arguments p25 {F}. Arguments p50 {F}.
Arguments p75 {F}. Arguments p90 {F}. Arguments p95 {F}.
Arguments worst_case {F}. Arguments best_case {F}.
Arguments probability_loss {F}. Arguments value_at_risk_95 {F}.
Arguments conditional_var_95 {F}.

Section MonteCarlo.
Context {F G : Type} `{Numpy F G}.

(** [simulations[mask] = value]; both arrays have [n_simulations]
    elements. *)
Definition mask_assign (simulations : list F) (mask : list bool) (value : F)
  : list F :=
  zip_with (λ x (b : bool), if b then value else x) simulations mask.

(** From [np.percentile] to the [return]: what the function computes from the
    array. *)
Definition summary (simulations : list F) (n_simulations : Z)
  : res (simulation F) :=
  q5 ← percentile simulations 5;
  q10 ← percentile simulations 10;
  q25 ← percentile simulations 25;
  q50 ← percentile simulations 50;
  q75 ← percentile simulations 75;
  q90 ← percentile simulations 90;
  q95 ← percentile simulations 95;
  lo ← np_min simulations;
  hi ← np_max simulations;
  Ret {| mean := np_mean simulations;
         median := np_median simulations;
         std := np_std simulations;
         p5 := q5;
         p10 := q10;
         p25 := q25;
         p50 := q50;
         p75 := q75;
         p90 := q90;
         p95 := q95;
         worst_case := lo;
         best_case := hi;
         probability_loss :=
           div (of_int (Z.of_nat (length (List.filter (λ x, ltb x (of_int 0))
                                                      simulations))))
               (of_int n_simulations);
         value_at_risk_95 := q5;
         conditional_var_95 :=
           np_mean (List.filter (λ x, leb x q5) simulations) |}.

(** [monte_carlo_simulation(self, base_case, volatility=0.3,
    n_simulations=10000, include_black_swan=True)], from the state of the
    generator at the call to the result and the state it leaves. *)
Definition monte_carlo_simulation (base_case volatility : F)
    (n_simulations : Z) (include_black_swan : bool) (g : G)
  : res (simulation F) * G :=
  match random_normal base_case (mul base_case volatility) n_simulations g with
  | (Raise e, g) => (Raise e, g)
  | (Ret simulations, g) =>
      let '(simulations, g) :=
        if include_black_swan then
          let '(u, g) := random_random n_simulations g in
          let black_swan_mask := (λ x, ltb x (dec 1 100)) <$> u in
          (mask_assign simulations black_swan_mask (mul base_case (dec 1 10)), g)
        else (simulations, g) in
      (summary simulations n_simulations, g)
  end.

End MonteCarlo.

End RiskAnalyzer.

(** * numpy over the real numbers

    The array functions as numpy documents them, computed exactly, and a
    generator that hands out two fixed streams of variates, a standard normal
    one and a uniform one, from the position [g] on. *)

Module NumpyReal.
Import Py Num RiskAnalyzer.

#[export] Instance Rle_decision (x y : R) : Decision (x <= y)%R := Rle_dec x y.

Definition sorted (a : list R) : list R := merge_sort Rle a.

(** [np.percentile(a, q)], the default linear interpolation: the virtual
    index is [(n - 1) * q / 100], [h] below is that index in hundredths.  An
    empty array has no element to return. *)
Definition linear_percentile (a : list R) (q : Z) : res R :=
  match sorted a with
  | [] => Raise IndexError
  | x0 :: rest =>
      let s := x0 :: rest in
      let n := Z.of_nat (length s) in
      let h := (n - 1) * q in
      let below := nth (Z.to_nat (h / 100)) s x0 in
      let above := nth (Z.to_nat (Z.min (h / 100 + 1) (n - 1))) s x0 in
      Ret (below + (above - below) * (IZR (h mod 100) / 100))%R
  end.

Definition total (a : list R) : R := fold_right Rplus 0%R a.

Definition average (a : list R) : R := (total a / INR (length a))%R.

Definition middle (a : list R) : R :=
  match linear_percentile a 50 with
  | Ret v => v
  | Raise _ => (0 / 0)%R
  end.

Definition deviation (a : list R) : R :=
  R_sqrt.sqrt (average ((λ x, (x - average a) * (x - average a))%R <$> a)).

Definition amin (a : list R) : res R :=
  match a with
  | [] => Raise ValueError
  | x :: r => Ret (fold_left Rmin r x)
  end.

Definition amax (a : list R) : res R :=
  match a with
  | [] => Raise ValueError
  | x :: r => Ret (fold_left Rmax r x)
  end.

Section Streams.
Variable normal_stream : nat → R.
Variable uniform_stream : nat → R.

(** numpy refuses a negative scale and a negative size. *)
Definition normal (loc scale : R) (size : Z) (g : nat) : res (list R) * nat :=
  if Rlt_dec scale 0 then (Raise ValueError, g)
  else if size <? 0 then (Raise ValueError, g)
  else
    (Ret ((λ i, loc + scale * normal_stream i)%R <$> seq g (Z.to_nat size)),
     (g + Z.to_nat size)%nat).

Definition uniform (size : Z) (g : nat) : list R * nat :=
  (uniform_stream <$> seq g (Z.to_nat size), (g + Z.to_nat size)%nat).

#[export] Instance stream_numpy : Numpy R nat := {
  np_arith := exact;
  random_normal := normal;
  random_random := uniform;
  percentile := linear_percentile;
  np_mean := average;
  np_median := middle;
  np_std := deviation;
  np_min := amin;
  np_max := amax
}.

End Streams.

(** Two streams to run examples on: the normal variates -1, 0, 1, -1, ...
    and the uniform variates 0, 1/200, 2/200, ... *)
Definition example_normal (i : nat) : R := (INR (i mod 3) - 1)%R.
Definition example_uniform (i : nat) : R := (INR (i mod 200) / 200)%R.

#[export] Instance example_numpy : Numpy R nat :=
  stream_numpy example_normal example_uniform.

End NumpyReal.

(** * numpy in binary64

    The same array functions on IEEE 754 double precision numbers, which is
    what the arrays of [monte_carlo_simulation] hold.  A NaN among the
    elements makes every statistic NaN. *)

Module NumpyFloat.
Import Py Num RiskAnalyzer.

(** The order of [np.sort]: by [<=], NaN last. *)
Definition before (x y : float) : Prop :=
  is_nan y || (negb (is_nan x) && PrimFloat.leb x y) = true.

#[export] Instance before_decision (x y : float) : Decision (before x y).
Proof. unfold before. apply _. Defined.










Section Streams.
Variable normal_stream : nat → float.
Variable uniform_stream : nat → float.




End Streams.


End NumpyFloat.

(** * Notions for the properties of the scheduler *)

Module SchedulerNotions.
Import Py OperationalCalculator.

(** The body of the forward loop leaves the task at position [i] as it
    is. *)
Definition quiet (tm : gmap string nat) (st : list timed) (i : nat) : Prop :=
  relax tm st i = Ret (st, false).

(** From one store of a call to a later one: the tasks are the same and no
    early time has decreased. *)
Definition advances (st st' : list timed) : Prop :=
  Forall2 (λ t t', base t' = base t ∧ early_start t ≤ early_start t' ∧
                   early_finish t ≤ early_finish t') st st'.

(** No task has been moved past the latest finish of its dependencies:
    its early start is 0, or at most the greatest early finish that the
    forward pass reads for it. *)
Definition tight (tm : gmap string nat) (st : list timed) : Prop :=
  ∀ i t, st !! i = Some t →
    0 ≤ early_start t ∧
    (early_start t = 0 ∨
     ∃ m, Py.max (dep_finishes tm st (dependencies (base t))) = Ret m ∧
          early_start t ≤ m).

(** A dependency cycle, given by the positions of its tasks: the task at
    position [i] takes time and names, among its dependencies, a task at a
    position of [cycle].  The positions of a cycle A -> B -> ... -> A make
    such a list when every task on it takes time, and in every such list a
    cycle can be followed. *)
Definition waits_within (tasks : list task) (cycle : list nat) (i : nat)
  : bool :=
  match tasks !! i with
  | Some t =>
      (0 <? duration t) &&
      existsb (λ d, match task_map tasks !! d with
                    | Some j => bool_decide (j ∈ cycle)
                    | None => false
                    end) (dependencies t)
  | None => false
  end.

End SchedulerNotions.

(** * Exceptions of arithmetic and of local names

    The methods below fail in more ways than the scheduler: by a division by
    zero, by a local variable read before any assignment, and by the
    conversion of an infinite float to an [int]. *)

Module PyExn.

Inductive exception : Set :=
| Builtin (e : Py.exn)
| ZeroDivisionError
| UnboundLocalError
| OverflowError.

Inductive outcome (A : Type) : Type :=
| Returns (a : A)
| Raises (e : exception).
Arguments Returns {A} a.
Arguments Raises {A} e.

#[global] Instance outcome_ret : MRet outcome := @Returns.
#[global] Instance outcome_bind : MBind outcome := λ A B k c,
  match c with
  | Returns a => k a
  | Raises e => Raises e
  end.
#[global] Instance outcome_fmap : FMap outcome := λ A B f c,
  match c with
  | Returns a => Returns (f a)
  | Raises e => Raises e
  end.

End PyExn.

(** * Built-ins that take a key *)

Module PyKey.
Import Py Num.

Section Keyed.
Context {T : Type} `{Arith T}.

(** [sorted(items, key=key, reverse=True)].  Python's sort is stable and
    compares keys with [<] only; where [<] orders the keys (it does unless a
    NaN is among them) the result is the descending arrangement in which items
    with equal keys keep their order, which insertion from the right
    computes. *)
Fixpoint insert_desc {A} (key : A → T) (x : A) (l : list A) : list A :=
  match l with
  | [] => [x]
  | y :: r =>
      if ltb (key x) (key y) then y :: insert_desc key x r else x :: y :: r
  end.

Definition sorted_desc {A} (key : A → T) (l : list A) : list A :=
  fold_right (insert_desc key) [] l.

(** [max(items, key=key)]: the first item with the greatest key;
    [ValueError] on an empty iterable. *)
Definition max_by {A} (key : A → T) (l : list A) : res A :=
  match l with
  | [] => Raise ValueError
  | x :: r =>
      Ret (fold_left (λ best y, if ltb (key best) (key y) then y else best) r x)
  end.

(** ** When [<] orders a list of keys

    No two keys are each below the other, and whenever [x < z] every key
    [y] has [x < y] or [y < z].  Numbers without a NaN among them pass; the
    test is a boolean, so it can be run on the keys at hand. *)
Definition ordersb (keys : list T) : bool :=
  forallb (λ x, forallb (λ y, forallb (λ z,
    (negb (ltb x y) || negb (ltb y x)) &&
    (negb (ltb x z) || ltb x y || ltb y z)) keys) keys) keys.

End Keyed.

End PyKey.

(** * The operational metrics

    The other methods of [OperationalCalculator] in
    [forge-operator/scripts/operational_calculator.py].  Their arguments are
    annotated [float]; the arithmetic is that of the class [Arith]. *)

Module Operations.
Import Num PyExn PyKey.

Section Calculator.
Context {T : Type} `{Arith T}.

(** [x / y]: Python raises on a divisor that compares equal to 0. *)
Definition truediv (x y : T) : outcome T :=
  if eqb y (of_int 0) then Raises ZeroDivisionError else Returns (div x y).

(** [x / n] for an [int] divisor. *)
Definition truediv_int (x : T) (n : Z) : outcome T :=
  if n =? 0 then Raises ZeroDivisionError else Returns (div x (of_int n)).

(** ** The object *)

Record calculator : Type := Calculator {
  overhead_multiplier : T;
  efficiency_factors : gmap string T
}.

(** [__init__(self)]. *)
Definition init : calculator :=
  {| overhead_multiplier := dec 14 10;
     efficiency_factors :=
       {[ "junior" := dec 5 10;
          "mid" := dec 10 10;
          "senior" := dec 15 10;
          "principal" := dec 20 10 ]}%string |}.

(** ** [calculate_burn_rate] *)

(** The dict that [calculate_burn_rate] returns. *)
Record burn : Type := Burn {
  monthly_salaries : T;
  monthly_other : T;
  total_monthly_burn : T;
  annual_burn : T;
  daily_burn : T;
  cost_per_employee : T
}.

(** The built-in [sum] over values of the arithmetic, started from the int
    0.  How it adds floats is CPython's matter (plain addition up to 3.11,
    compensated from 3.12 on), so it is taken as given. *)
Variable fsum : list T → T.

(** The body of [for role, count in headcount.items()]. *)
Definition add_role (self : calculator) (salaries : gmap string T)
    (monthly_salaries : T) (item : string * Z) : T :=
  let '(role, count) := item in
  match salaries !! role with
  | Some salary =>
      let annual := mul (mul salary (of_int count)) (overhead_multiplier self) in
      add monthly_salaries (div annual (of_int 12))
  | None => monthly_salaries
  end.

(** [headcount] and [other_expenses] are dicts, read in the order of their
    items; [salaries] is only looked up. *)
Definition calculate_burn_rate (self : calculator)
    (headcount : list (string * Z)) (salaries : gmap string T)
    (other_expenses : list (string * T)) : outcome burn :=
  let monthly_salaries :=
    fold_left (add_role self salaries) headcount (of_int 0) in
  let monthly_other := fsum (snd <$> other_expenses) in
  let total_burn := add monthly_salaries monthly_other in
  cost ← match headcount with
         | [] => Returns (of_int 0)
         | _ => truediv_int monthly_salaries (Py.sum (snd <$> headcount))
         end;
  Returns {| monthly_salaries := monthly_salaries;
             monthly_other := monthly_other;
             total_monthly_burn := total_burn;
             annual_burn := mul total_burn (of_int 12);
             daily_burn := div total_burn (of_int 30);
             cost_per_employee := cost |}.

(** ** [calculate_runway] *)

(** One entry of [projections]. *)
Record projection : Type := Projection {
  month : nat;
  cash : T;
  revenue : T;
  net_burn : T
}.

(** The dict that [calculate_runway] returns; [None] is Python's. *)
Record runway : Type := Runway {
  runway_months : nat;
  default_alive : bool;
  break_even_month : option nat;
  cash_at_break_even : option T;
  projections : list projection
}.

(** The local variables of the function while the loop runs.  [net_burn] is
    bound by the first iteration only. *)
Record runway_state : Type := RunwayState {
  months : nat;
  remaining_cash : T;
  current_revenue : T;
  all_projections : list projection;
  last_net_burn : option T
}.

(** [while remaining_cash > 0 and months < 60: ...].  The second test bounds
    the loop, so 60 rounds of [fuel] always reach its exit. *)
Fixpoint runway_loop (fuel : nat) (monthly_burn revenue_growth_rate : T)
    (s : runway_state) : runway_state :=
  match fuel with
  | O => s
  | S fuel' =>
      if ltb (of_int 0) (remaining_cash s) && (months s <? 60)%nat then
        let net_burn := sub monthly_burn (current_revenue s) in
        let remaining_cash := sub (remaining_cash s) net_burn in
        let projections :=
          all_projections s ++
          [ {| month := months s; cash := remaining_cash;
               revenue := current_revenue s; net_burn := net_burn |} ] in
        if leb net_burn (of_int 0) then
          {| months := months s; remaining_cash := remaining_cash;
             current_revenue := current_revenue s;
             all_projections := projections;
             last_net_burn := Some net_burn |}
        else
          runway_loop fuel' monthly_burn revenue_growth_rate
            {| months := S (months s); remaining_cash := remaining_cash;
               current_revenue :=
                 mul (current_revenue s) (add (of_int 1) revenue_growth_rate);
               all_projections := projections;
               last_net_burn := Some net_burn |}
      else s
  end.

(** [calculate_runway(self, cash, monthly_burn, monthly_revenue=0,
    revenue_growth_rate=0)]. *)
Definition calculate_runway (cash monthly_burn monthly_revenue
    revenue_growth_rate : T) : outcome runway :=
  let s := runway_loop 60 monthly_burn revenue_growth_rate
             {| months := 0; remaining_cash := cash;
                current_revenue := monthly_revenue;
                all_projections := []; last_net_burn := None |} in
  match last_net_burn s with
  | None => Raises UnboundLocalError
  | Some net_burn =>
      let default_alive := leb net_burn (of_int 0) in
      Returns {| runway_months := months s;
                 default_alive := default_alive;
                 break_even_month :=
                   if default_alive then Some (months s) else None;
                 cash_at_break_even :=
                   if default_alive then Some (remaining_cash s) else None;
                 projections := take 24 (all_projections s) |}
  end.

(** ** [calculate_build_vs_buy] *)

(** The dict that [calculate_build_vs_buy] returns. *)
Inductive choice : Set := buy | build.

Record comparison : Type := Comparison {
  build_cost_3y : T;
  buy_cost_3y : T;
  break_even_months : T;
  recommendation : choice;
  savings_3y : T;
  build_time_months : Z;
  opportunity_cost : T
}.

(** [float('inf')] and the built-in [abs]. *)
Variable inf : T.
Variable fabs : T → T.

Definition calculate_build_vs_buy (build_cost : T) (build_time_months : Z)
    (buy_cost_monthly integration_cost : T) : outcome comparison :=
  let months := of_int 36 in
  let build_maintenance := div (mul build_cost (dec 2 10)) (of_int 12) in
  let build_total_3y := add build_cost (mul build_maintenance months) in
  let buy_total_3y := add integration_cost (mul buy_cost_monthly months) in
  break_even_months ←
    (if ltb (of_int 0) buy_cost_monthly then
       truediv (sub build_cost integration_cost) buy_cost_monthly
     else Returns inf);
  let opportunity_cost :=
    mul (mul (of_int build_time_months) buy_cost_monthly) (of_int 10) in
  Returns {| build_cost_3y := build_total_3y;
             buy_cost_3y := buy_total_3y;
             break_even_months := break_even_months;
             recommendation :=
               if ltb buy_total_3y build_total_3y then buy else build;
             savings_3y := fabs (sub build_total_3y buy_total_3y);
             build_time_months := build_time_months;
             opportunity_cost := opportunity_cost |}.

(** ** [calculate_unit_economics] *)

(** The dict that [calculate_unit_economics] returns. *)
Record unit_economics : Type := UnitEconomics {
  ltv : T;
  cac : T;
  ltv_cac_ratio : T;
  customer_lifetime_months : T;
  cac_payback_months : T;
  gross_margin : T;
  monthly_churn : T;
  healthy : bool
}.

Definition calculate_unit_economics (cac ltv gross_margin monthly_churn : T)
  : outcome unit_economics :=
  customer_lifetime_months ←
    (if ltb (of_int 0) monthly_churn then truediv (of_int 1) monthly_churn
     else Returns inf);
  ltv_cac_ratio ←
    (if ltb (of_int 0) cac then truediv ltv cac else Returns inf);
  average_revenue_per_user ←
    (if negb (eqb customer_lifetime_months inf) then
       truediv ltv customer_lifetime_months
     else Returns (of_int 0));
  let monthly_gross_profit := mul average_revenue_per_user gross_margin in
  cac_payback_months ←
    (if ltb (of_int 0) monthly_gross_profit then
       truediv cac monthly_gross_profit
     else Returns inf);
  Returns {| ltv := ltv;
             cac := cac;
             ltv_cac_ratio := ltv_cac_ratio;
             customer_lifetime_months := customer_lifetime_months;
             cac_payback_months := cac_payback_months;
             gross_margin := gross_margin;
             monthly_churn := monthly_churn;
             healthy :=
               ltb (of_int 3) ltv_cac_ratio &&
               ltb cac_payback_months (of_int 12) |}.

(** ** [calculate_mvp_resources] *)

(** A feature as the caller passes it:
    [{'name': str, 'effort': int, 'impact': int}]. *)
Record feature : Set := Feature {
  name : string;
  effort : Z;
  impact : Z
}.

(** What the first loop stores under ['roi'] in each feature: a float, or
    the int 0.  (The quotient of two ints is the nearest float to the
    fraction; in binary64 that is the quotient of the converted operands as
    long as these convert exactly, up to 2^53.) *)
Definition roi (f : feature) : T :=
  if 0 <? effort f then div (of_int (impact f)) (of_int (effort f))
  else of_int 0.

(** The dict that [calculate_mvp_resources] returns. *)
Record mvp : Type := Mvp {
  mvp_features : list string;
  mvp_effort_points : Z;
  mvp_sprints : Z;
  mvp_weeks : Z;
  full_effort_points : Z;
  full_sprints : Z;
  effort_saved : T;
  features_cut : Z
}.

(** [math.ceil] on a value of the arithmetic. *)
Variable ceil : T → outcome Z.

(** [calculate_mvp_resources(self, features, team_velocity=20)]. *)
Definition calculate_mvp_resources (features : list feature)
    (team_velocity : T) : outcome mvp :=
  let features_sorted := sorted_desc roi features in
  let mvp_count := Z.max 1 (Z.of_nat (length features) / 5) in
  let mvp_features := take (Z.to_nat mvp_count) features_sorted in
  let mvp_effort := Py.sum (effort <$> mvp_features) in
  let total_effort := Py.sum (effort <$> features) in
  mvp_sprints ← truediv (of_int mvp_effort) team_velocity ≫= ceil;
  total_sprints ← truediv (of_int total_effort) team_velocity ≫= ceil;
  effort_saved ← truediv_int (of_int (total_effort - mvp_effort)) total_effort;
  Returns {| mvp_features := name <$> mvp_features;
             mvp_effort_points := mvp_effort;
             mvp_sprints := mvp_sprints;
             mvp_weeks := mvp_sprints * 2;
             full_effort_points := total_effort;
             full_sprints := total_sprints;
             effort_saved := effort_saved;
             features_cut :=
               Z.of_nat (length features) - Z.of_nat (length mvp_features) |}.

(** ** [calculate_hiring_plan] *)

(** One entry of [timeline] (keys ['month'], ['headcount'], ['hires'],
    ['attrition']) and one of [productive_capacity] (keys ['month'],
    ['total_headcount'], ['productive_capacity']). *)
Record hiring_month : Set := HiringMonth {
  hiring_month_index : nat;
  headcount : Z;
  hires : Z;
  attrition : Z
}.

Record capacity_month : Set := CapacityMonth {
  capacity_month_index : nat;
  total_headcount : Z;
  productive_capacity_of_month : Z
}.

(** The dict that [calculate_hiring_plan] returns. *)
Record hiring_plan : Set := HiringPlan {
  months_to_target : nat;
  total_hires_needed : Z;
  replacement_hires : Z;
  timeline : list hiring_month;
  productive_capacity : list capacity_month;
  achievable : bool
}.

(** The built-in [round] to an [int], and [max] and [min] of two numbers:
    Python keeps the first argument unless the second is strictly beyond
    it. *)
Variable round : T → outcome Z.

Definition max2 (a b : T) : T := if ltb a b then b else a.
Definition min2 (a b : T) : T := if ltb b a then b else a.

(** The local variables of the first loop. *)
Record hiring_state : Type := HiringState {
  months_so_far : nat;
  current : T;
  total_hires : T;
  full_timeline : list hiring_month;
  max_monthly_hires : T
}.

(** [while current < target_headcount and months_to_target < 24: ...]; the
    second test bounds the loop, so 24 rounds of [fuel] always reach its
    exit. *)
Fixpoint hiring_loop (fuel : nat) (target_headcount : Z)
    (monthly_attrition : T) (s : hiring_state) : outcome hiring_state :=
  match fuel with
  | O => Returns s
  | S fuel' =>
      if ltb (current s) (of_int target_headcount) &&
         (months_so_far s <? 24)%nat then
        let attrition := mul (current s) monthly_attrition in
        let monthly_hires :=
          min2 (max_monthly_hires s)
               (add (sub (of_int target_headcount) (current s)) attrition) in
        let current := add (sub (current s) attrition) monthly_hires in
        let total_hires := add (total_hires s) monthly_hires in
        rounded_headcount ← round current;
        rounded_hires ← round monthly_hires;
        rounded_attrition ← round attrition;
        hiring_loop fuel' target_headcount monthly_attrition
          {| months_so_far := S (months_so_far s);
             current := current;
             total_hires := total_hires;
             full_timeline :=
               full_timeline s ++
               [ {| hiring_month_index := months_so_far s;
                    headcount := rounded_headcount;
                    hires := rounded_hires;
                    attrition := rounded_attrition |} ];
             max_monthly_hires := max2 (of_int 1) (mul current (dec 2 10)) |}
      else Returns s
  end.

(** The body of the second loop, for the entry [month_data] at position
    [i] of [timeline]. *)
Definition capacity_of (timeline : list hiring_month) (i : nat)
    (month_data : hiring_month) : outcome capacity_month :=
  let ramping := Py.sum (hires <$> take (S i - (i - 3)) (drop (i - 3) timeline)) in
  let productive :=
    sub (of_int (headcount month_data)) (mul (of_int ramping) (dec 5 10)) in
  rounded ← round productive;
  Returns {| capacity_month_index := i;
             total_headcount := headcount month_data;
             productive_capacity_of_month := rounded |}.

Fixpoint capacity_loop (timeline : list hiring_month) (i : nat)
    (rest : list hiring_month) : outcome (list capacity_month) :=
  match rest with
  | [] => Returns []
  | month_data :: rest' =>
      entry ← capacity_of timeline i month_data;
      entries ← capacity_loop timeline (S i) rest';
      Returns (entry :: entries)
  end.

(** [calculate_hiring_plan(self, current_headcount, target_headcount,
    monthly_attrition=0.01, ramp_weeks=12)]; [ramp_weeks] is not used. *)
Definition calculate_hiring_plan (current_headcount target_headcount : Z)
    (monthly_attrition : T) : outcome hiring_plan :=
  let hires_needed := target_headcount - current_headcount in
  s ← hiring_loop 24 target_headcount monthly_attrition
        {| months_so_far := 0;
           current := of_int current_headcount;
           total_hires := of_int 0;
           full_timeline := [];
           max_monthly_hires :=
             max2 (of_int 1) (mul (of_int current_headcount) (dec 2 10)) |};
  productive_capacity_timeline ←
    capacity_loop (full_timeline s) 0 (full_timeline s);
  total_hires_needed ← round (total_hires s);
  replacement_hires ← round (sub (total_hires s) (of_int hires_needed));
  Returns {| months_to_target := months_so_far s;
             total_hires_needed := total_hires_needed;
             replacement_hires := replacement_hires;
             timeline := take 12 (full_timeline s);
             productive_capacity := take 12 productive_capacity_timeline;
             achievable := (months_so_far s <? 24)%nat |}.

End Calculator.

Arguments mvp T : clear implicits.
Arguments hiring_state T : clear implicits.
Arguments calculator T : clear implicits.
Arguments burn T : clear implicits.
Arguments projection T : clear implicits.
Arguments runway T : clear implicits.
Arguments runway_state T : clear implicits.
Arguments comparison T : clear implicits.
Arguments unit_economics T : clear implicits.

End Operations.

(** * [math.ceil] and [round] in binary64

    Both read the float exactly: a finite float is [m * 2^e] with a sign. *)

Module Rounding.
Import Py PyExn.

Definition float_ceil (x : float) : outcome Z :=
  match Prim2SF x with
  | S754_zero _ => Returns 0
  | S754_infinity _ => Raises OverflowError
  | S754_nan => Raises (Builtin ValueError)
  | S754_finite s m e =>
      if 0 <=? e then
        Returns ((if s then -1 else 1) * (Z.pos m * 2 ^ e))
      else
        let d := 2 ^ (- e) in
        Returns (if s then - (Z.pos m / d) else (Z.pos m + d - 1) / d)
  end.

(** Ties go to the even neighbour. *)
Definition float_round (x : float) : outcome Z :=
  match Prim2SF x with
  | S754_zero _ => Returns 0
  | S754_infinity _ => Raises OverflowError
  | S754_nan => Raises (Builtin ValueError)
  | S754_finite s m e =>
      let magnitude :=
        if 0 <=? e then Z.pos m * 2 ^ e
        else
          let d := 2 ^ (- e) in
          let q := Z.pos m / d in
          let r := Z.pos m mod d in
          if 2 * r <? d then q
          else if d <? 2 * r then q + 1
          else if Z.even q then q else q + 1 in
      Returns (if s then - magnitude else magnitude)
  end.

End Rounding.

(** * Examples

    The features that [main] plans. *)

Module OperationsExamples.
Import Operations.

Definition main_features : list feature :=
  [ Feature "Core Auth" 5 10; Feature "Dashboard" 8 8;
    Feature "API" 13 9; Feature "Mobile App" 21 5;
    Feature "Analytics" 8 6; Feature "Integrations" 13 7 ]%string.

End OperationsExamples.

(** * Failure modes and joint probabilities

    [failure_mode_analysis] and [calculate_joint_probability] of
    [veto-skeptic/scripts/risk_analyzer.py]. *)

Module RiskModes.
Import Py Num PyKey.

Section Modes.
Context {T : Type} `{Arith T}.

(** ** [failure_mode_analysis] *)

(** The dict stored per mode. *)
Record risk : Type := Risk {
  probability : T;
  impact : T;
  risk_score : T;
  expected_loss : T
}.

(** The dict that the method returns; [None] is Python's. *)
Record assessment : Type := Assessment {
  failure_modes : list (string * risk);
  total_expected_loss : T;
  highest_risk : option string;
  highest_probability : string;
  highest_impact : string
}.

(** The body of the [for] loop: the entry of [risks] for one mode. *)
Definition assess (item : string * (T * T)) : string * risk :=
  let '(mode, (prob, impact)) := item in
  let risk_score := mul prob impact in
  (mode, {| probability := prob; impact := impact;
            risk_score := risk_score; expected_loss := risk_score |}).

(** [failure_modes] is a dict: its items in order, under distinct keys. *)
Definition failure_mode_analysis (failure_modes : list (string * (T * T)))
  : res assessment :=
  let risks := assess <$> failure_modes in
  let total_risk :=
    fold_left (λ total (entry : string * risk), add total (risk_score entry.2))
              risks (of_int 0) in
  let sorted_risks := sorted_desc (λ x : string * risk, risk_score x.2) risks in
  by_probability ← max_by (λ x : string * (T * T), x.2.1) failure_modes;
  by_impact ← max_by (λ x : string * (T * T), x.2.2) failure_modes;
  Ret {| failure_modes := sorted_risks;
         total_expected_loss := total_risk;
         highest_risk :=
           match sorted_risks with
           | [] => None
           | first :: _ => Some first.1
           end;
         highest_probability := by_probability.1;
         highest_impact := by_impact.1 |}.

(** ** [calculate_joint_probability] *)

(** [np.prod]: numpy is taken as given, as in [Numpy]. *)
Variable np_prod : list T → T.

Definition calculate_joint_probability (probabilities : list T)
    (independent : bool) : T :=
  if independent then np_prod probabilities
  else mul (np_prod probabilities) (dec 7 10).

End Modes.

Arguments risk T : clear implicits.
Arguments assessment T : clear implicits.

(** The product of an array of reals. *)
Definition product (a : list R) : R := fold_right Rmult 1%R a.

(** The failure modes that [main] analyses. *)
Definition launch_failure_modes : list (string * (float * float)) :=
  [ ("market_rejection"%string, (0.6, 0.9)%float);
    ("technical_issues"%string, (0.3, 0.7)%float);
    ("competition"%string, (0.4, 0.6)%float);
    ("regulatory"%string, (0.2, 1.0)%float);
    ("supply_chain"%string, (0.25, 0.5)%float) ].

End RiskModes.

(** * Binary64 numbers as real numbers

    What the floats of the specification ([SpecFloat]) denote, for the
    properties that bound a rounding error. *)

Module Binary64Real.

(** [2^e] as a real number. *)
Definition bpow (e : Z) : R := powerRZ 2 e.

(** The real number that a float of the specification denotes; infinities and
    NaN are given the value 0. *)
Definition SF2R (x : spec_float) : R :=
  match x with
  | S754_finite s m e =>
      ((if s then -1 else 1) * IZR (Z.pos m) * bpow e)%R
  | _ => 0%R
  end.

Definition B2R (x : float) : R := SF2R (Prim2SF x).

(** What a shift record says of the real [x] it stands for: [shr_m] is its
    integer part, and the two bits tell where the rest lies: nothing, below
    one half, one half, or above. *)
Definition located (x : R) (mrs : shr_record) : Prop :=
  match shr_r mrs, shr_s mrs with
  | false, false => x = IZR (shr_m mrs)
  | false, true => (IZR (shr_m mrs) < x < IZR (shr_m mrs) + 1 / 2)%R
  | true, false => x = (IZR (shr_m mrs) + 1 / 2)%R
  | true, true => (IZR (shr_m mrs) + 1 / 2 < x < IZR (shr_m mrs) + 1)%R
  end.

(** A finite number above zero. *)
Definition positive_finite (x : float) : bool :=
  match Prim2SF x with
  | S754_finite false _ _ => true
  | _ => false
  end.

(** [r] is a finite number above zero within the relative distance [2^-53]
    of the real [z]: what a correctly rounded operation returns for the exact
    result [z], away from underflow and overflow. *)
Definition nearly (r : float) (z : R) : Prop :=
  positive_finite r = true ∧
  (- (bpow (- 53) * z) <= B2R r - z <= bpow (- 53) * z)%R.

End Binary64Real.

(** * Properties of the scheduler *)

Module CriticalPath.
Import Py OperationalCalculator.

(** ** [max] *)

Lemma fold_max_spec (r : list Z) (x : Z) :
  let m := fold_left Z.max r x in
  (m = x ∨ m ∈ r) ∧ x ≤ m ∧ Forall (λ y, y ≤ m) r.
Proof.
  revert x. induction r as [|y r IH]; intros x; simpl.
  - split; [by left | split; [lia | constructor]].
  - destruct (IH (Z.max x y)) as (Hin & Hle & Hall).
    split; [| split].
    + destruct Hin as [-> | Hin].
      * destruct (Z.max_spec x y) as [[_ ->] | [_ ->]];
          [right; left | by left].
      * right. by right.
    + lia.
    + constructor; [lia | done].
Qed.

Lemma max_Ret (xs : list Z) (m : Z) :
  Py.max xs = Ret m → m ∈ xs ∧ Forall (λ y, y ≤ m) xs.
Proof.
  destruct xs as [|x r]; [done |]. intros [= <-].
  destruct (fold_max_spec r x) as (Hin & Hle & Hall).
  split.
  - destruct Hin as [-> | Hin]; [left | by right].
  - by constructor.
Qed.

Lemma max_Raise (xs : list Z) (e : exn) : Py.max xs = Raise e → xs = [].
Proof. by destruct xs. Qed.

(** ** [task_map] holds positions of the list, under the names found there *)

Lemma index_names_lookup (ts : list task) :
  ∀ (i : nat) (m : gmap string nat) (d : string) (j : nat),
    index_names i ts m !! d = Some j →
    m !! d = Some j ∨
    ((i ≤ j)%nat ∧ ∃ t, ts !! (j - i)%nat = Some t ∧ name t = d).
Proof.
  induction ts as [|t r IH]; intros i m d j; simpl; [by left |].
  intros H. apply IH in H as [H | (Hle & t' & Ht' & Hn)].
  - destruct (decide (name t = d)) as [<- | Hne].
    + rewrite lookup_insert_eq in H. injection H as <-.
      right. split; [lia |]. exists t. by rewrite Nat.sub_diag.
    + rewrite lookup_insert_ne in H by done. by left.
  - right. split; [lia |]. exists t'. split; [| done].
    by replace (j - i)%nat with (S (j - S i)) by lia.
Qed.

Lemma task_map_lookup (tasks : list task) (d : string) (j : nat) :
  task_map tasks !! d = Some j → ∃ t, tasks !! j = Some t ∧ name t = d.
Proof.
  intros H. apply index_names_lookup in H as [H | (_ & t & Ht & Hn)].
  - by rewrite lookup_empty in H.
  - exists t. by rewrite Nat.sub_0_r in Ht.
Qed.

Lemma index_names_is_Some (ts : list task) :
  ∀ (i : nat) (m : gmap string nat) (d : string),
    is_Some (index_names i ts m !! d) ↔
    is_Some (m !! d) ∨ d ∈ name <$> ts.
Proof.
  induction ts as [|t r IH]; intros i m d; cbn [index_names].
  - split; [by left | intros [H | H]; [done | by apply elem_of_nil in H]].
  - rewrite IH, lookup_insert_is_Some, fmap_cons, elem_of_cons.
    destruct (decide (name t = d)) as [Heq | Hne]; split.
    + intros _. right. by left.
    + intros _. left. by left.
    + intros [[? | [_ ?]] | ?]; [done | by left | right; by right].
    + intros [? | [? | ?]]; [left; by right | congruence | by right].
Qed.

(** An identifier resolves exactly when some task of the collection
    carries it as its name. *)
Lemma resolves_name (tasks : list task) (d : string) :
  resolves (task_map tasks) d = true ↔ ∃ t, t ∈ tasks ∧ name t = d.
Proof.
  unfold resolves, task_map. rewrite bool_decide_eq_true, index_names_is_Some.
  rewrite list_elem_of_fmap. split.
  - intros [[? H] | (t & -> & Ht)]; [by rewrite lookup_empty in H | eauto].
  - intros (t & Ht & <-). right. eauto.
Qed.

Lemma index_names_ext (f : task → task) (ts : list task) :
  (∀ t, name (f t) = name t) →
  ∀ i m, index_names i (f <$> ts) m = index_names i ts m.
Proof.
  intros Hf. induction ts as [|t r IH]; intros i m; simpl; [done |].
  by rewrite Hf, IH.
Qed.


(** ** What the forward pass keeps *)

Lemma relax_Ret tm (st st' : list timed) (i : nat) (c : bool) :
  relax tm st i = Ret (st', c) →
  base <$> st' = base <$> st ∧ (Forall consistent st → Forall consistent st').
Proof.
  unfold relax. destruct (st !! i) as [t|] eqn:Hi; [| by intros [= <- <-]].
  destruct (dependencies (base t)) as [|d ds]; [by intros [= <- <-] |].
  destruct (Py.max _) as [m|e]; [| done]. cbn.
  destruct (early_start t <? m); intros [= <- <-]; [| done].
  split.
  - rewrite list_fmap_insert. apply list_insert_id.
    by rewrite list_lookup_fmap, Hi.
  - intros Hall. by apply Forall_insert.
Qed.

Lemma sweep_Ret tm (idx : list nat) :
  ∀ (st st' : list timed) (c c' : bool),
    sweep tm idx st c = Ret (st', c') →
    base <$> st' = base <$> st ∧ (Forall consistent st → Forall consistent st').
Proof.
  induction idx as [|i r IH]; intros st st' c c'; simpl.
  - by intros [= <- <-].
  - destruct (relax tm st i) as [[st1 c1]|e] eqn:Hr; [| done]. cbn.
    intros Hs. apply relax_Ret in Hr as [Hb Hc].
    apply IH in Hs as [Hb' Hc']. split; [congruence | auto].
Qed.

Lemma forward_pass_Ret tm (fuel : nat) :
  ∀ st st' : list timed,
    forward_pass fuel tm st = Some (Ret st') →
    base <$> st' = base <$> st ∧ (Forall consistent st → Forall consistent st').
Proof.
  induction fuel as [|fuel IH]; intros st st'; simpl; [done |].
  unfold sweep_all.
  destruct (sweep tm _ st false) as [[st1 [|]]|e] eqn:Hs; [| | done].
  - intros Hf. apply sweep_Ret in Hs as [Hb Hc].
    apply IH in Hf as [Hb' Hc']. split; [congruence | auto].
  - intros [= <-]. by apply sweep_Ret in Hs.
Qed.

Lemma init_early_base (tasks : list task) :
  base <$> (init_early <$> tasks) = tasks.
Proof. rewrite <- list_fmap_compose. apply list_fmap_id. Qed.

Lemma init_early_consistent (tasks : list task) :
  Forall consistent (init_early <$> tasks).
Proof. apply Forall_fmap, Forall_forall. intros t _. unfold consistent. simpl. lia. Qed.

(** The shape of a call that returns. *)
Lemma calculate_critical_path_Ret (fuel : nat) (tasks : list task)
    (a : analysis) (final : list scheduled) :
  calculate_critical_path fuel tasks = Some (Ret (a, final)) →
  ∃ (st : list timed) (pd : Z),
    forward_pass fuel (task_map tasks) (init_early <$> tasks) = Some (Ret st) ∧
    Py.max (early_finish <$> st) = Ret pd ∧
    final = finish pd <$> st ∧ a = summarise pd final ∧
    base <$> st = tasks ∧ Forall consistent st.
Proof.
  unfold calculate_critical_path.
  destruct (forward_pass _ _ _) as [[st|e]|] eqn:Hf; [| done | done]. cbn.
  destruct (Py.max _) as [pd|e] eqn:Hm; [| done]. cbn.
  intros [= <- <-]. exists st, pd.
  apply forward_pass_Ret in Hf as [Hb Hc].
  rewrite init_early_base in Hb.
  repeat split; try done. apply Hc, init_early_consistent.
Qed.

Lemma finish_slack (pd : Z) (t : timed) :
  consistent t → slack (finish pd t) = pd - early_finish t.
Proof. unfold consistent. simpl. lia. Qed.

(** ** The four-task graph *)

(** C1.  On the graph A (3), B (2, after A), C (4, after A), D (1, after B
    and C) the call returns project duration 8.  Its backward pass gives
    every task the late finish 8, whether or not another task depends on
    it, so the slacks are 5, 3, 1 and 0 and the critical path holds D
    alone. *)
Theorem four_tasks_schedule :
  observe (calculate_critical_path 2 four_tasks) =
  Some (Ret ({| project_duration := 8;
                critical_path := ["D"];
                critical_path_length := 1;
                tasks_with_slack := ["A"; "B"; "C"];
                average_slack := 9 # 4 |},
             [ ("A", (0, 3), (8, 5, 5));
               ("B", (3, 5), (8, 6, 3));
               ("C", (3, 7), (8, 4, 1));
               ("D", (7, 8), (8, 7, 0)) ]))%string.
Proof. vm_compute. reflexivity. Qed.

(** The backward pass in general: the late finish of every task is the
    project duration. *)
Lemma late_finish_is_project_duration (fuel : nat) (tasks : list task)
    (a : analysis) (final : list scheduled) :
  calculate_critical_path fuel tasks = Some (Ret (a, final)) →
  Forall (λ s, late_finish s = project_duration a ∧
               late_start s = project_duration a - duration (base (fwd s)))
         final.
Proof.
  intros (st & pd & _ & _ & -> & -> & _)%calculate_critical_path_Ret.
  apply Forall_fmap, Forall_forall. by intros t _.
Qed.

(** ** The empty collection *)

(** C4.  On the empty collection the forward loop ends after one sweep and
    [max(task['early_finish'] for task in tasks)] then raises: the call
    returns nothing. *)
Theorem empty_collection_raises (fuel : nat) :
  calculate_critical_path (S fuel) [] = Some (Raise ValueError).
Proof. reflexivity. Qed.

(** ** Tasks that finish last *)

(** C9.  When the call returns on a collection that is not empty, the
    critical path is not empty: every task whose early finish is the project
    duration has slack 0 and its name is on the critical path. *)
Theorem critical_path_nonempty (fuel : nat) (tasks : list task)
    (a : analysis) (final : list scheduled) :
  tasks ≠ [] →
  calculate_critical_path fuel tasks = Some (Ret (a, final)) →
  critical_path a ≠ [] ∧
  ∀ s, s ∈ final →
       early_finish (fwd s) = project_duration a →
       slack s = 0 ∧ sname s ∈ critical_path a.
Proof.
  intros _ (st & pd & _ & Hm & -> & -> & _ & Hc)%calculate_critical_path_Ret.
  assert (Hlast : ∀ s, s ∈ finish pd <$> st →
                       early_finish (fwd s) = pd →
                       slack s = 0 ∧
                       sname s ∈ critical_path (summarise pd (finish pd <$> st))).
  { intros s Hs Hef. assert (Hz : slack s = 0).
    { apply list_elem_of_fmap in Hs as (t & -> & Ht).
      rewrite finish_slack by by eapply Forall_forall in Hc.
      simpl in Hef. lia. }
    split; [done |]. simpl. apply list_elem_of_fmap. exists s.
    split; [done |]. by apply list_elem_of_filter. }
  split; [| exact Hlast].
  apply max_Ret in Hm as [(t & Hef & Ht)%list_elem_of_fmap _].
  destruct (Hlast (finish pd t)) as [_ Hin].
  - apply list_elem_of_fmap. eauto.
  - done.
  - intros Hnil. rewrite Hnil in Hin. by apply elem_of_nil in Hin.
Qed.

(** The call does return on such a collection, here on the four-task
    graph. *)
Lemma critical_path_nonempty_witness :
  ∃ a final,
    calculate_critical_path 2 four_tasks = Some (Ret (a, final)) ∧
    critical_path a ≠ [].
Proof.
  eexists _, _. split; [vm_compute; reflexivity |].
  refine (proj1 (critical_path_nonempty 2 four_tasks _ _ _ _)).
  - by vm_compute.
  - vm_compute. reflexivity.
Defined.

(** ** When the call raises

    The only [raise] of the function is that of [max] over an empty
    iterable. *)

Lemma omap_nil_inv {A B} (f : A → option B) (l : list A) :
  omap f l = [] → Forall (λ x, f x = None) l.
Proof.
  induction l as [|x l IH]; simpl; [constructor |].
  destruct (f x) eqn:Hx; [done |]. by constructor; auto.
Qed.

Section NoRaise.
Variable tasks : list task.
Hypothesis Hanchored : Forall (λ t, anchored (task_map tasks) t = true) tasks.

Lemma relax_no_raise (st : list timed) (i : nat) (e : exn) :
  base <$> st = tasks → relax (task_map tasks) st i ≠ Raise e.
Proof using Hanchored.
  intros Hb. unfold relax.
  destruct (st !! i) as [t|] eqn:Hi; [| done].
  assert (Ht : anchored (task_map tasks) (base t) = true).
  { eapply Forall_forall in Hanchored; [done |].
    rewrite <- Hb. apply list_elem_of_fmap. exists t.
    split; [done |]. by eapply list_elem_of_lookup_2. }
  unfold anchored in Ht.
  destruct (dependencies (base t)) as [|d ds]; [done |].
  destruct (Py.max _) as [m|e'] eqn:Hm; cbn; [by destruct (_ <? _) |].
  apply max_Raise, omap_nil_inv in Hm.
  apply existsb_exists in Ht as (d' & Hin & Hres).
  eapply Forall_forall in Hm; [| by apply list_elem_of_In].
  unfold resolves in Hres. apply bool_decide_eq_true in Hres as [j Hj].
  rewrite Hj in Hm. cbn in Hm.
  apply task_map_lookup in Hj as (t' & Ht' & _).
  rewrite <- Hb, list_lookup_fmap in Ht'.
  by destruct (st !! j).
Qed.

Lemma sweep_no_raise (idx : list nat) (e : exn) :
  ∀ (st : list timed) (c : bool),
    base <$> st = tasks → sweep (task_map tasks) idx st c ≠ Raise e.
Proof using Hanchored.
  induction idx as [|i r IH]; intros st c Hb; simpl; [done |].
  destruct (relax _ st i) as [[st1 c1]|e1] eqn:Hr; cbn.
  - apply IH. apply relax_Ret in Hr as [-> _]. done.
  - by apply relax_no_raise in Hr.
Qed.

Lemma forward_pass_no_raise (fuel : nat) (e : exn) :
  ∀ st : list timed,
    base <$> st = tasks →
    forward_pass fuel (task_map tasks) st ≠ Some (Raise e).
Proof using Hanchored.
  induction fuel as [|fuel IH]; intros st Hb; simpl; [done |].
  unfold sweep_all.
  destruct (sweep _ _ st false) as [[st1 [|]]|e1] eqn:Hs; [| done |].
  - apply IH. by apply sweep_Ret in Hs as [-> _].
  - by apply sweep_no_raise in Hs.
Qed.
End NoRaise.

(** A collection that is not empty and in which every task with dependencies
    names at least one task of the collection raises nothing, cyclic or
    not. *)
Lemma no_cycle_failure (tasks : list task) (fuel : nat) (e : exn) :
  tasks ≠ [] →
  Forall (λ t, anchored (task_map tasks) t = true) tasks →
  calculate_critical_path fuel tasks ≠ Some (Raise e).
Proof.
  intros Hne Hanch. unfold calculate_critical_path.
  destruct (forward_pass _ _ _) as [[st|e1]|] eqn:Hf; cbn; [| | done].
  - destruct (Py.max _) as [pd|e1] eqn:Hm; cbn; [done |].
    apply max_Raise, fmap_nil_inv in Hm. subst st.
    apply forward_pass_Ret in Hf as [Hb _].
    rewrite init_early_base in Hb. by subst tasks.
  - apply forward_pass_no_raise in Hf; [done | done |].
    apply init_early_base.
Qed.

(** ** Two tasks that depend on each other *)

Section TwoCycle.
Variables da db : Z.
Hypothesis Hda : 0 < da.
Hypothesis Hdb : 0 < db.

Let tm := task_map (two_cycle da db).


Lemma two_cycle_relax_A (a ea b eb : Z) :
  a < eb →
  relax tm [ Timed (Task "A" da ["B"]) a ea;
             Timed (Task "B" db ["A"]) b eb ]%string 0 =
  Ret ([ Timed (Task "A" da ["B"]) eb (eb + da);
         Timed (Task "B" db ["A"]) b eb ]%string, true).
Proof.
  intros Hlt. unfold relax, dep_finishes, tm.
  cbn [lookup list_lookup base dependencies omap list_omap].
  change (task_map (two_cycle da db) !! "B"%string) with (Some 1%nat).
  cbn. by rewrite (proj2 (Z.ltb_lt a eb)).
Qed.

Lemma two_cycle_relax_B (a ea b eb : Z) :
  b < ea →
  relax tm [ Timed (Task "A" da ["B"]) a ea;
             Timed (Task "B" db ["A"]) b eb ]%string 1 =
  Ret ([ Timed (Task "A" da ["B"]) a ea;
         Timed (Task "B" db ["A"]) ea (ea + db) ]%string, true).
Proof.
  intros Hlt. unfold relax, dep_finishes, tm.
  cbn [lookup list_lookup base dependencies omap list_omap].
  change (task_map (two_cycle da db) !! "A"%string) with (Some 0%nat).
  cbn. by rewrite (proj2 (Z.ltb_lt b ea)).
Qed.

Lemma two_cycle_sweep (a b : Z) :
  a < b + db →
  sweep_all tm (two_cycle_store da db a b) =
  Ret (two_cycle_store da db (b + db) (b + db + da), true).
Proof using Hda Hdb.
  intros Hab. unfold sweep_all, two_cycle_store. cbn [length seq sweep].
  rewrite two_cycle_relax_A by done. cbn [mbind res_bind].
  rewrite two_cycle_relax_B by lia. reflexivity.
Qed.

Lemma two_cycle_forward_pass (fuel : nat) :
  ∀ a b, a < b + db → forward_pass fuel tm (two_cycle_store da db a b) = None.
Proof using Hda Hdb.
  induction fuel as [|fuel IH]; intros a b Hab; [done |].
  cbn [forward_pass]. rewrite two_cycle_sweep by done.
  apply IH. lia.
Qed.

(** With positive durations the forward loop changes a task in every
    sweep: no amount of fuel lets the call return or raise. *)
Lemma two_cycle_never_returns (fuel : nat) :
  calculate_critical_path fuel (two_cycle da db) = None.
Proof using Hda Hdb.
  unfold calculate_critical_path.
  change (init_early <$> two_cycle da db) with (two_cycle_store da db 0 0).
  fold tm. by rewrite two_cycle_forward_pass.
Qed.
End TwoCycle.

(** The function looks for no cycle.  With durations 0 the cycle A, B is
    scheduled like any other collection and the call returns; with durations
    1 every sweep moves both tasks and the call neither returns nor raises,
    whatever the fuel. *)
Lemma cycle_not_detected :
  observe (calculate_critical_path 1 (two_cycle 0 0)) =
    Some (Ret ({| project_duration := 0;
                  critical_path := ["A"; "B"];
                  critical_path_length := 2;
                  tasks_with_slack := [];
                  average_slack := 0 # 2 |},
               [ ("A", (0, 0), (0, 0, 0)); ("B", (0, 0), (0, 0, 0)) ]))%string
  ∧ ∀ fuel, calculate_critical_path fuel (two_cycle 1 1) = None.
Proof.
  split; [vm_compute; reflexivity |].
  intros fuel. by apply two_cycle_never_returns.
Qed.

(** ** Identifiers that name no task *)


Lemma dep_finishes_prune tm (st : list timed) (deps : list string) :
  dep_finishes tm (prune_timed tm <$> st) (List.filter (resolves tm) deps) =
  dep_finishes tm st deps.
Proof.
  unfold dep_finishes. induction deps as [|d ds IH]; [done |].
  cbn [List.filter omap list_omap]. unfold resolves at 1.
  destruct (tm !! d) as [j|] eqn:Hd.
  - rewrite bool_decide_eq_true_2 by eauto.
    cbn [omap list_omap]. rewrite Hd. cbn.
    rewrite list_lookup_fmap.
    destruct (st !! j) as [u|]; cbn; by rewrite IH.
  - rewrite bool_decide_eq_false_2 by (by intros [? ?]). cbn. exact IH.
Qed.

#[local] Arguments dep_finishes : simpl never.


Lemma relax_prune tm (st : list timed) (i : nat) :
  Forall (λ t, anchored tm (base t) = true) st →
  relax tm (prune_timed tm <$> st) i = prune_step tm (relax tm st i).
Proof.
  intros Hall. unfold relax. rewrite list_lookup_fmap.
  destruct (st !! i) as [t|] eqn:Hi; [| done]. cbn.
  assert (Ht : anchored tm (base t) = true).
  { eapply Forall_forall in Hall; [done |]. by eapply list_elem_of_lookup_2. }
  unfold anchored in Ht.
  destruct (dependencies (base t)) as [|d ds] eqn:Hdeps; [done |].
  destruct (List.filter (resolves tm) (d :: ds)) as [|d' ds'] eqn:Hf.
  { apply existsb_exists in Ht as (x & Hin & Hx).
    assert (Hx' : In x (List.filter (resolves tm) (d :: ds)))
      by (apply filter_In; done).
    rewrite Hf in Hx'. destruct Hx'. }
  rewrite <- Hf, dep_finishes_prune.
  destruct (Py.max _) as [m|e]; [| done]. cbn.
  destruct (early_start t <? m); [| done]. cbn.
  by rewrite list_fmap_insert.
Qed.

Lemma sweep_prune tm (idx : list nat) :
  ∀ (st : list timed) (c : bool),
    Forall (λ t, anchored tm (base t) = true) st →
    sweep tm idx (prune_timed tm <$> st) c = prune_step tm (sweep tm idx st c).
Proof.
  induction idx as [|i r IH]; intros st c Hall; [done |].
  cbn [sweep]. rewrite relax_prune by done.
  destruct (relax tm st i) as [[st1 c1]|e] eqn:Hr; [| done]. cbn.
  apply IH. apply relax_Ret in Hr as [Hb _].
  apply (Forall_fmap base (λ b, anchored tm b = true)).
  rewrite Hb. by apply Forall_fmap.
Qed.

Lemma forward_pass_prune tm (fuel : nat) :
  ∀ st : list timed,
    Forall (λ t, anchored tm (base t) = true) st →
    forward_pass fuel tm (prune_timed tm <$> st) =
    match forward_pass fuel tm st with
    | Some (Ret st') => Some (Ret (prune_timed tm <$> st'))
    | o => o
    end.
Proof.
  induction fuel as [|fuel IH]; intros st Hall; [done |].
  cbn [forward_pass]. unfold sweep_all.
  rewrite length_fmap, sweep_prune by done.
  destruct (sweep tm _ st false) as [[st1 [|]]|e] eqn:Hs; [| done | done].
  cbn. apply IH. apply sweep_Ret in Hs as [Hb _].
  apply (Forall_fmap base (λ b, anchored tm b = true)).
  rewrite Hb. by apply Forall_fmap.
Qed.

Lemma summarise_prune tm (pd : Z) (st : list timed) :
  summarise pd (finish pd <$> (prune_timed tm <$> st)) =
  summarise pd (finish pd <$> st).
Proof.
  unfold summarise.
  assert (Hf : ∀ (P : scheduled → Prop) `{∀ s, Decision (P s)},
             (∀ t, P (finish pd (prune_timed tm t)) ↔ P (finish pd t)) →
             sname <$> filter P (finish pd <$> (prune_timed tm <$> st)) =
             sname <$> filter P (finish pd <$> st)).
  { intros P HP Hiff. induction st as [|t r IH]; [done |].
    rewrite !fmap_cons, !filter_cons.
    destruct (decide (P (finish pd t))) as [Hp | Hp].
    - rewrite decide_True by by apply Hiff. rewrite !fmap_cons. by f_equal.
    - rewrite decide_False by by rewrite Hiff. done. }
  rewrite !Hf by done.
  replace (slack <$> (finish pd <$> (prune_timed tm <$> st)))
    with (slack <$> (finish pd <$> st))
    by (rewrite <- !list_fmap_compose; by apply list_fmap_ext).
  rewrite !length_fmap. by destruct st.
Qed.

Lemma task_map_prune (tasks : list task) :
  task_map (prune tasks) = task_map tasks.
Proof. unfold prune, task_map. by apply index_names_ext. Qed.

(** C3, as the code has it.  An identifier that names no task is passed
    over by the forward pass and reported nowhere: on every collection in
    which each task with dependencies names at least one task, the call
    leaves what it leaves on the collection without those identifiers, the
    dict it returns and the values it writes alike. *)
Theorem dangling_dependency_skipped (tasks : list task) (fuel : nat) :
  Forall (λ t, anchored (task_map tasks) t = true) tasks →
  observe (calculate_critical_path fuel tasks) =
  observe (calculate_critical_path fuel (prune tasks)).
Proof.
  intros Hall. unfold calculate_critical_path.
  rewrite task_map_prune. unfold prune.
  set (tm := task_map tasks) in *.
  replace (init_early <$> (prune_task tm <$> tasks))
    with (prune_timed tm <$> (init_early <$> tasks))
    by (rewrite <- !list_fmap_compose; by apply list_fmap_ext).
  rewrite forward_pass_prune by by apply Forall_fmap.
  destruct (forward_pass fuel tm _) as [[st|e]|]; [| done | done]. cbn.
  replace (early_finish <$> (prune_timed tm <$> st)) with (early_finish <$> st)
    by (rewrite <- !list_fmap_compose; by apply list_fmap_ext).
  destruct (Py.max _) as [pd|e]; [| done]. cbn.
  rewrite summarise_prune. do 3 f_equal.
  rewrite <- !list_fmap_compose. by apply list_fmap_ext.
Qed.

Lemma dangling_dependency_skipped_witness :
  prune dangling_beside = [ Task "A" 3 []; Task "B" 2 ["A"] ]%string ∧
  observe (calculate_critical_path 2 dangling_beside) =
  observe (calculate_critical_path 2 (prune dangling_beside)).
Proof.
  split; [by vm_compute |].
  apply (dangling_dependency_skipped dangling_beside 2).
  repeat constructor.
Defined.

(** C3, as the specification states it, fails: B names [X], which no task
    carries, and the call returns a schedule in which B follows A. *)
Lemma dangling_dependency_not_reported :
  observe (calculate_critical_path 2 dangling_beside) =
  Some (Ret ({| project_duration := 5;
                critical_path := ["B"];
                critical_path_length := 1;
                tasks_with_slack := ["A"];
                average_slack := 2 # 2 |},
             [ ("A", (0, 3), (5, 2, 2)); ("B", (3, 5), (5, 3, 0)) ]))%string.
Proof. vm_compute. reflexivity. Qed.

End CriticalPath.

(** * Facts of binary64 arithmetic

    Read off the specification of the primitive floats ([SpecFloat]). *)

Module Binary64.
Import Num.

Lemma Prim2SF_0 : Prim2SF 0 = S754_zero false.
Proof. vm_compute. reflexivity. Qed.

Lemma Prim2SF_1 : Prim2SF 1 = S754_finite false 4503599627370496 (-52).
Proof. vm_compute. reflexivity. Qed.

(** A float in [[0, 1]] is a zero or a positive finite number. *)
Lemma unit_interval_shape (x : float) :
  PrimFloat.leb 0 x = true → PrimFloat.leb x 1 = true →
  (∃ s, Prim2SF x = S754_zero s) ∨
  (∃ m e, Prim2SF x = S754_finite false m e).
Proof.
  intros H0 H1.
  rewrite leb_spec in H0. rewrite leb_spec in H1.
  rewrite Prim2SF_0 in H0. rewrite Prim2SF_1 in H1.
  unfold SFleb, SFcompare in H0, H1.
  destruct (Prim2SF x) as [s|s| |s m e].
  - eauto.
  - destruct s; discriminate.
  - discriminate.
  - destruct s; [discriminate |]. eauto.
Qed.


Lemma digits2_shl52 (m : positive) :
  Z.pos (digits2_pos (shl52 m)) = Z.pos (digits2_pos m) + 52.
Proof. unfold shl52. cbn [digits2_pos]. lia. Qed.

Lemma shr_shl52 (m : positive) :
  SpecFloat.iter_pos shr_1 52 {| shr_m := Z.pos (shl52 m); shr_r := false; shr_s := false |}
  = {| shr_m := Z.pos m; shr_r := false; shr_s := false |}.
Proof. reflexivity. Qed.

Lemma mul_shl52 (m : positive) : (m * 4503599627370496)%positive = shl52 m.
Proof. rewrite Pos.mul_comm. reflexivity. Qed.

(** The product of a finite number and 1 rounds to the number. *)
Lemma SFmul_one_finite (m : positive) (e : Z) :
  bounded prec emax m e = true →
  SF64mul (S754_finite false m e) (S754_finite false 4503599627370496 (-52)) =
  S754_finite false m e.
Proof.
  intros Hb. unfold bounded, canonical_mantissa in Hb.
  apply andb_prop in Hb as [Hc He].
  apply Z.eqb_eq in Hc.
  unfold SF64mul, SFmul. rewrite mul_shl52.
  unfold binary_round_aux, shr_fexp at 1.
  unfold Zdigits2. rewrite digits2_shl52.
  replace (Z.pos (digits2_pos m) + 52 + (e + -52))
    with (Z.pos (digits2_pos m) + e) by lia.
  rewrite Hc.
  replace (e - (e + -52)) with 52 by lia.
  unfold shr, shr_record_of_loc. rewrite shr_shl52.
  unfold shr_m at 1, loc_of_shr_record, round_nearest_even.
  replace (e + -52 + 52) with e by lia.
  unfold shr_fexp, Zdigits2. rewrite Hc, Z.sub_diag.
  unfold shr, shr_record_of_loc, shr_m.
  unfold xorb. rewrite He. reflexivity.
Qed.

(** The quotient of a finite number by itself is 1, exactly. *)
Lemma SFdiv_self_finite (s : bool) (m : positive) (e : Z) :
  SF64div (S754_finite s m e) (S754_finite s m e) =
  S754_finite false 4503599627370496 (-52).
Proof.
  unfold SF64div, SFdiv, SFdiv_core_binary.
  rewrite !Z.sub_diag.
  change (Z.min (fexp prec emax 0) 0) with (-53).
  change (0 - -53) with 53.
  cbv beta iota.
  rewrite Z.shiftl_mul_pow2 by lia.
  destruct (Z.div_eucl (Z.pos m * 2 ^ 53) (Z.pos m)) as [q r] eqn:Hqr.
  assert (Hq : q = 2 ^ 53).
  { change q with (fst (q, r)). rewrite <- Hqr.
    change (fst (Z.div_eucl ?a ?b)) with (a / b).
    rewrite Z.mul_comm. apply Z.div_mul. lia. }
  assert (Hr : r = 0).
  { change r with (snd (q, r)). rewrite <- Hqr.
    change (snd (Z.div_eucl ?a ?b)) with (a mod b).
    rewrite Z.mul_comm. apply Z.mod_mul. lia. }
  subst q r.
  assert (Hl : new_location (Z.pos m) 0 = loc_Exact).
  { unfold new_location. destruct (Z.even (Z.pos m)); reflexivity. }
  rewrite Hl. destruct s; vm_compute; reflexivity.
Qed.

Section UnitInterval.
Variable x : float.
Hypothesis Hlo : PrimFloat.leb 0 x = true.
Hypothesis Hhi : PrimFloat.leb x 1 = true.

(** [x * 1.0] is [x]. *)
Lemma mul_one : PrimFloat.mul x 1 = x.
Proof using Hlo Hhi.
  apply Prim2SF_inj. rewrite mul_spec, Prim2SF_1.
  destruct (unit_interval_shape x Hlo Hhi) as [[s Hx] | (m & e & Hx)].
  - rewrite Hx. by destruct s.
  - pose proof (Prim2SF_valid x) as Hv. rewrite Hx in Hv |- *.
    by apply SFmul_one_finite.
Qed.

(** [x * 0.0] is a zero. *)
Lemma mul_zero : ∃ s, Prim2SF (PrimFloat.mul x 0) = S754_zero s.
Proof using Hlo Hhi.
  rewrite mul_spec, Prim2SF_0.
  destruct (unit_interval_shape x Hlo Hhi) as [[s Hx] | (m & e & Hx)];
    rewrite Hx; unfold SF64mul, SFmul; eauto.
Qed.

End UnitInterval.

End Binary64.

(** * Rounding in binary64

    The operations of the primitive floats round the exact result to the
    nearest float, ties to even: away from underflow and overflow the result
    is within the relative distance [2^-53] of the exact one.  Derived from
    the specification of the operations ([SpecFloat]). *)

Module Rounding64.
Import Binary64Real.

(** ** Powers of two *)

Lemma bpow_IZR (e : Z) : 0 ≤ e → bpow e = IZR (2 ^ e).
Proof.
  intros He. unfold bpow. rewrite <- (Z2Nat.id e) by done.
  rewrite <- pow_powerRZ. change 2%R with (IZR 2). apply pow_IZR.
Qed.

Lemma bpow_pos (e : Z) : (0 < bpow e)%R.
Proof. apply powerRZ_lt. lra. Qed.

Lemma bpow_add (a b : Z) : bpow (a + b) = (bpow a * bpow b)%R.
Proof. apply powerRZ_add. lra. Qed.

Lemma bpow_0 : bpow 0 = 1%R.
Proof. reflexivity. Qed.

Lemma bpow_succ (e : Z) : bpow (e + 1) = (2 * bpow e)%R.
Proof. rewrite bpow_add. unfold bpow at 2. rewrite powerRZ_1. lra. Qed.

Lemma bpow_pred (e : Z) : bpow (e - 1) = (bpow e / 2)%R.
Proof.
  pose proof (bpow_succ (e - 1)) as H.
  replace (e - 1 + 1) with e in H by lia. lra.
Qed.

Lemma bpow_opp (e : Z) : bpow (- e) = (/ bpow e)%R.
Proof. apply powerRZ_neg'. Qed.

Lemma bpow_ge_1 (e : Z) : 0 ≤ e → (1 <= bpow e)%R.
Proof.
  intros He. rewrite bpow_IZR by done. apply IZR_le.
  pose proof (Z.pow_pos_nonneg 2 e). lia.
Qed.

Lemma bpow_le (a b : Z) : a ≤ b → (bpow a <= bpow b)%R.
Proof.
  intros Hab. replace b with (a + (b - a)) by lia. rewrite bpow_add.
  pose proof (bpow_pos a). pose proof (bpow_ge_1 (b - a) ltac:(lia)). nra.
Qed.

Lemma bpow_lt (a b : Z) : a < b → (bpow a < bpow b)%R.
Proof.
  intros Hab. replace b with (a + 1 + (b - a - 1)) by lia.
  rewrite bpow_add, bpow_succ.
  pose proof (bpow_pos a). pose proof (bpow_ge_1 (b - a - 1) ltac:(lia)). nra.
Qed.

Lemma bpow_lt_inv (a b : Z) : (bpow a < bpow b)%R → a < b.
Proof.
  intros H. destruct (Z_lt_le_dec a b) as [|Hle]; [done |].
  apply bpow_le in Hle. lra.
Qed.

Lemma bpow_le_inv (a b : Z) : (bpow a <= bpow b)%R → a ≤ b.
Proof.
  intros H. destruct (Z_le_gt_dec a b) as [|Hgt]; [done |].
  assert (b < a) as Hlt%bpow_lt by lia. lra.
Qed.

(** ** The number of digits *)

Lemma digits2_size (m : positive) : digits2_pos m = Pos.size m.
Proof. induction m as [m IH|m IH|]; simpl; by rewrite ?IH. Qed.

Lemma digits2_log2 (m : positive) : Z.pos (digits2_pos m) = Z.log2 (Z.pos m) + 1.
Proof.
  rewrite digits2_size. destruct m as [m|m|]; simpl; [| | done].
  - rewrite Pos2Z.inj_succ. lia.
  - rewrite Pos2Z.inj_succ. lia.
Qed.

Lemma Zdigits2_log2 (m : Z) : 0 < m → Zdigits2 m = Z.log2 m + 1.
Proof. destruct m as [|m|m]; [lia | | lia]. intros _. apply digits2_log2. Qed.

Lemma Zdigits2_nonneg (m : Z) : 0 ≤ Zdigits2 m.
Proof. destruct m; simpl; lia. Qed.

Lemma Zdigits2_bounds (m : Z) :
  0 < m → 2 ^ (Zdigits2 m - 1) ≤ m < 2 ^ Zdigits2 m.
Proof.
  intros Hm. rewrite Zdigits2_log2 by done.
  pose proof (Z.log2_spec m Hm) as H.
  replace (Z.log2 m + 1 - 1) with (Z.log2 m) by lia.
  replace (Z.log2 m + 1) with (Z.succ (Z.log2 m)) by lia. done.
Qed.

Lemma Zdigits2_unique (m d : Z) :
  2 ^ (d - 1) ≤ m < 2 ^ d → 0 < m → Zdigits2 m = d.
Proof.
  intros H Hm. rewrite Zdigits2_log2 by done.
  assert (0 < d).
  { destruct (Z_lt_le_dec 0 d) as [|Hd]; [done |].
    assert (2 ^ d ≤ 1); [| lia].
    destruct (Z.eq_dec d 0) as [-> | Hne]; [done |].
    rewrite Z.pow_neg_r by lia. lia. }
  enough (Z.log2 m = d - 1) by lia.
  apply Z.log2_unique; [lia |]. by replace (Z.succ (d - 1)) with d by lia.
Qed.

Lemma Zdigits2_le (m d : Z) : 0 ≤ m → 0 ≤ d → m < 2 ^ d → Zdigits2 m ≤ d.
Proof.
  intros Hm Hd Hlt. destruct (Z.eq_dec m 0) as [-> | Hne]; [done |].
  rewrite Zdigits2_log2 by lia.
  apply Z.log2_lt_pow2 in Hlt; lia.
Qed.

Lemma Zdigits2_ge (m d : Z) : 0 < m → 2 ^ (d - 1) ≤ m → d ≤ Zdigits2 m.
Proof.
  intros Hm Hle. rewrite Zdigits2_log2 by lia.
  destruct (Z_lt_le_dec (d - 1) 0) as [|Hd].
  - pose proof (Z.log2_nonneg m). lia.
  - apply Z.log2_le_pow2 in Hle; lia.
Qed.

(** The mantissa of a number below [2^d]. *)
Lemma IZR_lt_bpow (m d : Z) : 0 ≤ d → m < 2 ^ d → (IZR m < bpow d)%R.
Proof. intros Hd Hm. rewrite bpow_IZR by done. by apply IZR_lt. Qed.

Lemma IZR_ge_bpow (m d : Z) : 0 ≤ d → 2 ^ d ≤ m → (bpow d <= IZR m)%R.
Proof. intros Hd Hm. rewrite bpow_IZR by done. by apply IZR_le. Qed.


(** ** Shifting a mantissa to the right *)

Lemma IZR_xI (p : positive) : IZR (Z.pos p~1) = (2 * IZR (Z.pos p) + 1)%R.
Proof. by rewrite Pos2Z.inj_xI, plus_IZR, mult_IZR. Qed.

Lemma IZR_xO (p : positive) : IZR (Z.pos p~0) = (2 * IZR (Z.pos p))%R.
Proof. by rewrite Pos2Z.inj_xO, mult_IZR. Qed.

Lemma located_bounds (x : R) (mrs : shr_record) :
  located x mrs → (IZR (shr_m mrs) <= x < IZR (shr_m mrs) + 1)%R.
Proof. unfold located. destruct (shr_r mrs), (shr_s mrs); lra. Qed.

Lemma shr_1_located (x : R) (mrs : shr_record) :
  0 ≤ shr_m mrs → located x mrs →
  located (x / 2) (shr_1 mrs) ∧ 0 ≤ shr_m (shr_1 mrs).
Proof.
  destruct mrs as [m r s]. unfold located. cbn [shr_m shr_r shr_s].
  intros Hm Hx.
  destruct m as [|[p|p|]|p]; [| | | | lia]; cbn [shr_1 shr_m shr_r shr_s];
    (split; [| lia]).
  - destruct r, s; cbn [orb]; lra.
  - pose proof (IZR_xI p). destruct r, s; cbn [orb]; lra.
  - pose proof (IZR_xO p). destruct r, s; cbn [orb]; lra.
  - destruct r, s; cbn [orb]; lra.
Qed.


Lemma bpow_neq_0 (e : Z) : bpow e ≠ 0%R.
Proof. pose proof (bpow_pos e). lra. Qed.

Lemma iter_shr_located (p : positive) :
  ∀ (x : R) (mrs : shr_record),
    0 ≤ shr_m mrs → located x mrs →
    located (x / bpow (Z.pos p)) (SpecFloat.iter_pos shr_1 p mrs) ∧
    0 ≤ shr_m (SpecFloat.iter_pos shr_1 p mrs).
Proof.
  induction p as [p IH|p IH|]; intros x mrs Hm Hx; cbn [SpecFloat.iter_pos].
  - destruct (shr_1_located x mrs Hm Hx) as [H1 Hm1].
    destruct (IH _ _ Hm1 H1) as [H2 Hm2]. destruct (IH _ _ Hm2 H2) as [H3 Hm3].
    split; [| done].
    replace (x / bpow (Z.pos p~1))%R
      with (x / 2 / bpow (Z.pos p) / bpow (Z.pos p))%R; [done |].
    rewrite Pos2Z.inj_xI.
    replace (2 * Z.pos p + 1) with (Z.pos p + Z.pos p + 1) by lia.
    rewrite bpow_succ, bpow_add. field. apply bpow_neq_0.
  - destruct (IH _ _ Hm Hx) as [H2 Hm2]. destruct (IH _ _ Hm2 H2) as [H3 Hm3].
    split; [| done].
    replace (x / bpow (Z.pos p~0))%R
      with (x / bpow (Z.pos p) / bpow (Z.pos p))%R; [done |].
    rewrite Pos2Z.inj_xO.
    replace (2 * Z.pos p) with (Z.pos p + Z.pos p) by lia.
    rewrite bpow_add. field. apply bpow_neq_0.
  - destruct (shr_1_located x mrs Hm Hx) as [H1 Hm1]. split; [| done].
    change (bpow 1) with (2 * 1)%R. by replace (x / (2 * 1))%R with (x / 2)%R by lra.
Qed.

Lemma shr_located (x : R) (mrs mrs' : shr_record) (e e' n : Z) :
  0 ≤ shr_m mrs → located x mrs → 0 ≤ n →
  shr mrs e n = (mrs', e') →
  e' = e + n ∧ located (x / bpow n) mrs' ∧ 0 ≤ shr_m mrs'.
Proof.
  intros Hm Hx Hn. unfold shr. destruct n as [|p|p]; [| | lia].
  - intros [= <- <-]. rewrite bpow_0.
    replace (x / 1)%R with x by lra. split; [lia | done].
  - intros [= <- <-]. split; [done |]. by apply iter_shr_located.
Qed.

Lemma shr_idle (mrs : shr_record) (e n : Z) : n ≤ 0 → shr mrs e n = (mrs, e).
Proof. intros Hn. unfold shr. destruct n; [done | lia | done]. Qed.

Lemma shr_m_of_loc (m : Z) (l : location) : shr_m (shr_record_of_loc m l) = m.
Proof. by destruct l as [|[]]. Qed.

(** ** Rounding to the nearest integer, ties to even *)

Lemma round_nearest_even_spec (x : R) (mrs : shr_record) :
  located x mrs →
  let mr := round_nearest_even (shr_m mrs) (loc_of_shr_record mrs) in
  (- (1 / 2) <= IZR mr - x <= 1 / 2)%R ∧
  shr_m mrs ≤ mr ≤ shr_m mrs + 1 ∧
  (x = IZR (shr_m mrs) → mr = shr_m mrs).
Proof.
  destruct mrs as [m r s]. unfold located. cbn [shr_m shr_r shr_s].
  destruct r, s; cbn [loc_of_shr_record round_nearest_even]; intros Hx.
  - rewrite plus_IZR. split; [lra |]. split; [lia |]. intros ->. lra.
  - destruct (Z.even m); rewrite ?plus_IZR.
    + split; [lra |]. split; [lia |]. intros ->. lra.
    + split; [lra |]. split; [lia |]. intros ->. lra.
  - split; [lra |]. split; [lia | done].
  - split; [lra |]. split; [lia | done].
Qed.

(** ** The rounding of the specification *)

Lemma fexp_eq (e : Z) : fexp prec emax e = Z.max (e - 53) (- 1074).
Proof. reflexivity. Qed.

Lemma binary_round_aux_spec (s : bool) (m e : Z) (l : location) (x : R) :
  0 ≤ m → located x (shr_record_of_loc m l) →
  e ≤ fexp prec emax (Zdigits2 m + e) →
  Zdigits2 m + e ≤ 1023 →
  ∃ mf ef : Z,
    0 ≤ mf ∧
    binary_round_aux prec emax s m e l =
      match mf with Z.pos p => S754_finite s p ef | _ => S754_zero s end ∧
    (- bpow (fexp prec emax (Zdigits2 m + e) - 1)
       <= IZR mf * bpow ef - x * bpow e
       <= bpow (fexp prec emax (Zdigits2 m + e) - 1))%R ∧
    (fexp prec emax (Zdigits2 m + e) = e → l = loc_Exact →
     (IZR mf * bpow ef = x * bpow e)%R).
Proof.
  intros Hm Hx He Hd.
  set (e1 := fexp prec emax (Zdigits2 m + e)) in *.
  assert (He1 : e1 = Z.max (Zdigits2 m + e - 53) (- 1074)) by apply fexp_eq.
  unfold binary_round_aux, shr_fexp at 1. fold e1.
  destruct (shr (shr_record_of_loc m l) e (e1 - e)) as [mrs' e'] eqn:Hshr.
  pose proof Hshr as Hshr0.
  apply (shr_located x) in Hshr as (-> & Hx1 & Hm1);
    [| by rewrite shr_m_of_loc | done | lia].
  replace (e + (e1 - e)) with e1 in * by lia.
  set (x1 := (x / bpow (e1 - e))%R) in *.
  assert (Hscale : (x * bpow e = x1 * bpow e1)%R).
  { unfold x1. replace e1 with (e + (e1 - e)) at 2 by lia.
    rewrite bpow_add. field. apply bpow_neq_0. }
  pose proof (round_nearest_even_spec x1 mrs' Hx1) as (Hr & Hmr & _).
  set (mr := round_nearest_even (shr_m mrs') (loc_of_shr_record mrs')) in *.
  assert (Hex : e1 = e → l = loc_Exact → IZR mr = x1).
  { intros Hee ->. rewrite Hee, Z.sub_diag in Hshr0. cbn in Hshr0.
    injection Hshr0 as <-. unfold mr, x1. cbn.
    unfold located in Hx. cbn in Hx. rewrite Hee, Z.sub_diag, bpow_0. lra. }
  assert (Hx53 : (x1 < bpow 53)%R).
  { assert (Hxd : (x < bpow (Zdigits2 m))%R).
    { pose proof (located_bounds _ _ Hx) as Hb. rewrite shr_m_of_loc in Hb.
      destruct (Z.eq_dec m 0) as [-> | Hne].
      - cbn in Hb |- *. lra.
      - pose proof (Zdigits2_bounds m ltac:(lia)) as [_ Hlt].
        pose proof (Zdigits2_nonneg m).
        assert (IZR (m + 1) <= bpow (Zdigits2 m))%R.
        { rewrite bpow_IZR by done. apply IZR_le. lia. }
        rewrite plus_IZR in *. lra. }
    assert (Hle : (bpow (Zdigits2 m) <= bpow (53 + (e1 - e)))%R)
      by (apply bpow_le; lia).
    rewrite bpow_add in Hle. unfold x1.
    pose proof (bpow_pos (e1 - e)) as Hp.
    apply (Rmult_lt_reg_r (bpow (e1 - e))); [done |].
    replace (x / bpow (e1 - e) * bpow (e1 - e))%R with x
      by (field; apply bpow_neq_0). lra. }
  assert (Hmr53 : 0 ≤ mr ≤ 2 ^ 53).
  { split; [lia |]. rewrite bpow_IZR in Hx53 by lia.
    assert (IZR mr < IZR (2 ^ 53 + 1))%R as Hlt%lt_IZR; [| lia].
    rewrite plus_IZR. lra. }
  pose proof (bpow_pos e1) as Hp1.
  assert (Hhalf : bpow (e1 - 1) = (bpow e1 / 2)%R) by apply bpow_pred.
  assert (Hgoal : ∀ mf ef : Z,
            (IZR mf * bpow ef = IZR mr * bpow e1)%R →
            (- bpow (e1 - 1) <= IZR mf * bpow ef - x * bpow e
               <= bpow (e1 - 1))%R ∧
            (e1 = e → l = loc_Exact → (IZR mf * bpow ef = x * bpow e)%R)).
  { intros mf ef ->. rewrite Hscale, Hhalf. split; [nra |].
    intros Hee Hl. by rewrite (Hex Hee Hl). }
  destruct (Z.eq_dec mr (2 ^ 53)) as [Htop | Hlow].
  - (* the rounding carries into a new digit *)
    unfold shr_fexp. rewrite Htop.
    change (Zdigits2 (2 ^ 53)) with 54.
    rewrite fexp_eq.
    replace (Z.max (54 + e1 - 53) (- 1074) - e1) with 1 by lia.
    change (2 ^ 53) with 9007199254740992.
    cbn [shr shr_record_of_loc SpecFloat.iter_pos shr_1 shr_m].
    exists (2 ^ 52), (e1 + 1). split; [lia |]. split.
    { change (2 ^ 52) with 4503599627370496.
      assert (Hov : (e1 + 1 <=? emax - prec) = true).
      { apply Z.leb_le. change (emax - prec) with 971. lia. }
      cbv beta iota. by rewrite Hov. }
    apply Hgoal. rewrite Htop, bpow_succ.
    change (2 ^ 53) with (2 * 2 ^ 52). rewrite mult_IZR. lra.
  - unfold shr_fexp.
    assert (Hdr : Zdigits2 mr ≤ 53) by (apply Zdigits2_le; lia).
    rewrite shr_idle by (rewrite fexp_eq; lia).
    rewrite shr_m_of_loc.
    exists mr, e1. split; [lia |]. split.
    { assert (Hov : (e1 <=? emax - prec) = true).
      { apply Z.leb_le. change (emax - prec) with 971. lia. }
      destruct mr as [|p|p]; [done | by rewrite Hov | lia]. }
    by apply Hgoal.
Qed.


Lemma bpow_m1 : bpow (- 1) = (1 / 2)%R.
Proof. unfold bpow, powerRZ. change (Pos.to_nat 1) with 1%nat. simpl. lra. Qed.

Lemma bpow_m53_small : (0 < bpow (- 53) <= 1 / 2)%R.
Proof.
  split; [apply bpow_pos |]. rewrite <- bpow_m1. apply bpow_le. lia.
Qed.

(** The value that is rounded lies below [2^d] for the [d] digits of its
    integer part. *)
Lemma located_lt_bpow (x : R) (m : Z) (l : location) :
  0 ≤ m → located x (shr_record_of_loc m l) → (x < bpow (Zdigits2 m))%R.
Proof.
  intros Hm Hx. pose proof (located_bounds _ _ Hx) as Hb.
  rewrite shr_m_of_loc in Hb.
  destruct (Z.eq_dec m 0) as [-> | Hne].
  - cbn in Hb |- *. lra.
  - pose proof (Zdigits2_bounds m ltac:(lia)) as [_ Hlt].
    pose proof (Zdigits2_nonneg m).
    assert (IZR (m + 1) <= bpow (Zdigits2 m))%R.
    { rewrite bpow_IZR by done. apply IZR_le. lia. }
    rewrite plus_IZR in *. lra.
Qed.

Lemma IZR_ge_bpow_digits (m : Z) : 0 < m → (bpow (Zdigits2 m - 1) <= IZR m)%R.
Proof.
  intros Hm. pose proof (Zdigits2_bounds m Hm) as [Hle _].
  assert (0 ≤ Zdigits2 m - 1).
  { rewrite Zdigits2_log2 by done. pose proof (Z.log2_nonneg m). lia. }
  by apply IZR_ge_bpow.
Qed.

(** Away from underflow and overflow the rounding has a relative error of at
    most [2^-53]. *)
Lemma binary_round_aux_rel (s : bool) (m e : Z) (l : location) (x : R) :
  0 ≤ m → located x (shr_record_of_loc m l) →
  e ≤ fexp prec emax (Zdigits2 m + e) →
  (x * bpow e <= bpow 1000)%R →
  (bpow (- 1022) <= x * bpow e)%R ∨ (l = loc_Exact ∧ - 1074 ≤ e ∧ 0 < m) →
  ∃ (mf : positive) (ef : Z),
    binary_round_aux prec emax s m e l = S754_finite s mf ef ∧
    (- (bpow (- 53) * (x * bpow e))
       <= IZR (Z.pos mf) * bpow ef - x * bpow e
       <= bpow (- 53) * (x * bpow e))%R.
Proof.
  intros Hm Hx He Hhi Hlo.
  pose proof (located_bounds _ _ Hx) as Hb. rewrite shr_m_of_loc in Hb.
  pose proof (located_lt_bpow _ _ _ Hm Hx) as Hxd.
  pose proof (bpow_pos e) as Hpe.
  pose proof (Zdigits2_nonneg m) as Hdn.
  pose proof (fexp_eq (Zdigits2 m + e)) as He1.
  assert (Hmpos : 0 < m).
  { destruct Hlo as [Hlo | (_ & _ & ?)]; [| done].
    destruct (Z.eq_dec m 0) as [-> | ?]; [| lia]. exfalso.
    change (Zdigits2 0) with 0 in *. rewrite Z.add_0_l in *.
    rewrite He1 in He. change (IZR 0) with 0%R in Hb.
    assert (Hle : (bpow e <= bpow (- 1074))%R) by (apply bpow_le; lia).
    assert (Hlt : (bpow (- 1074) < bpow (- 1022))%R) by (apply bpow_lt; lia).
    nra. }
  pose proof (IZR_ge_bpow_digits m Hmpos) as Hmd.
  assert (Hz : (bpow (Zdigits2 m - 1 + e) <= x * bpow e)%R).
  { rewrite bpow_add. nra. }
  assert (Hpz : (0 < x * bpow e)%R).
  { pose proof (bpow_pos (Zdigits2 m - 1 + e)). lra. }
  assert (Hd : Zdigits2 m + e ≤ 1023).
  { assert (bpow (Zdigits2 m - 1 + e) <= bpow 1000)%R as ?%bpow_le_inv by lra.
    lia. }
  destruct (binary_round_aux_spec s m e l x Hm Hx He Hd)
    as (mf & ef & Hmf & Heq & Herr & Hexact).
  pose proof bpow_m53_small as Hu.
  assert (Hrel : (- (bpow (- 53) * (x * bpow e))
                   <= IZR mf * bpow ef - x * bpow e
                   <= bpow (- 53) * (x * bpow e))%R).
  { assert (Hcase : fexp prec emax (Zdigits2 m + e) = Zdigits2 m + e - 53 ∨
                    (fexp prec emax (Zdigits2 m + e) = e ∧ l = loc_Exact)).
    { destruct Hlo as [Hlo | (Hl & Hemin & _)].
      - left. assert (Hlt : (bpow (- 1022) < bpow (Zdigits2 m + e))%R).
        { rewrite bpow_add. nra. }
        apply bpow_lt_inv in Hlt. lia.
      - destruct (Z.eq_dec (fexp prec emax (Zdigits2 m + e)) e) as [? | ?];
          [by right | left; lia]. }
    destruct Hcase as [Hn | [Hee Hl]].
    - rewrite Hn in Herr.
      replace (Zdigits2 m + e - 53 - 1) with (- 53 + (Zdigits2 m - 1 + e))
        in Herr by lia.
      rewrite bpow_add in Herr.
      assert (bpow (- 53) * bpow (Zdigits2 m - 1 + e)
              <= bpow (- 53) * (x * bpow e))%R by nra.
      lra.
    - rewrite (Hexact Hee Hl). nra. }
  destruct mf as [|p|p]; [| | lia].
  - exfalso. rewrite Rmult_0_l in Hrel. nra.
  - exists p, ef. done.
Qed.


(** ** Finite numbers *)

Lemma positive_finite_inv (x : float) :
  positive_finite x = true → ∃ m e, Prim2SF x = S754_finite false m e.
Proof.
  unfold positive_finite. destruct (Prim2SF x) as [| | |[] m e]; try done. eauto.
Qed.

Lemma positive_finite_intro (x : float) (m : positive) (e : Z) :
  Prim2SF x = S754_finite false m e →
  positive_finite x = true ∧ B2R x = (IZR (Z.pos m) * bpow e)%R.
Proof. intros Hx. unfold positive_finite, B2R. rewrite Hx. cbn. split; [done | lra]. Qed.

Lemma IZR_pos_pos (m : positive) : (0 < IZR (Z.pos m))%R.
Proof. apply IZR_lt. lia. Qed.

Lemma B2R_positive (x : float) : positive_finite x = true → (0 < B2R x)%R.
Proof.
  intros (m & e & Hx)%positive_finite_inv.
  destruct (positive_finite_intro x m e Hx) as [_ ->].
  pose proof (IZR_pos_pos m). pose proof (bpow_pos e). nra.
Qed.

(** The mantissa and the exponent of a float are canonical. *)
Lemma valid_canonical (x : float) (s : bool) (m : positive) (e : Z) :
  Prim2SF x = S754_finite s m e →
  e = Z.max (Z.pos (digits2_pos m) + e - 53) (- 1074) ∧ e ≤ 971.
Proof.
  intros Hx. pose proof (Prim2SF_valid x) as Hv. rewrite Hx in Hv.
  cbn [valid_binary] in Hv. unfold bounded, canonical_mantissa in Hv.
  apply andb_prop in Hv as [Hc He].
  apply Z.eqb_eq in Hc. apply Z.leb_le in He. rewrite fexp_eq in Hc.
  change (emax - prec) with 971 in He. lia.
Qed.

Lemma digits2_pos_mul (a b : positive) :
  Z.pos (digits2_pos a) + Z.pos (digits2_pos b) - 1
    ≤ Z.pos (digits2_pos (a * b)).
Proof.
  change (Z.pos (digits2_pos (a * b))) with (Zdigits2 (Z.pos a * Z.pos b)).
  apply Zdigits2_ge; [lia |].
  pose proof (Zdigits2_bounds (Z.pos a) ltac:(lia)) as [Ha _].
  pose proof (Zdigits2_bounds (Z.pos b) ltac:(lia)) as [Hb _].
  cbn [Zdigits2] in Ha, Hb.
  replace (Z.pos (digits2_pos a) + Z.pos (digits2_pos b) - 1 - 1)
    with ((Z.pos (digits2_pos a) - 1) + (Z.pos (digits2_pos b) - 1)) by lia.
  rewrite Z.pow_add_r by lia. nia.
Qed.

(** ** Multiplication *)

Lemma mul_nearly (a b : float) :
  positive_finite a = true → positive_finite b = true →
  (bpow (- 1022) <= B2R a * B2R b <= bpow 1000)%R →
  nearly (a * b) (B2R a * B2R b).
Proof.
  intros (ma & ea & Ha)%positive_finite_inv (mb & eb & Hb)%positive_finite_inv.
  destruct (positive_finite_intro a ma ea Ha) as [_ ->].
  destruct (positive_finite_intro b mb eb Hb) as [_ ->].
  intros [Hlo Hhi].
  pose proof (valid_canonical a _ _ _ Ha) as [Hca _].
  pose proof (valid_canonical b _ _ _ Hb) as [Hcb _].
  pose proof (digits2_pos_mul ma mb) as Hd.
  assert (Hval : (IZR (Z.pos (ma * mb)) * bpow (ea + eb) =
                  IZR (Z.pos ma) * bpow ea * (IZR (Z.pos mb) * bpow eb))%R).
  { rewrite Pos2Z.inj_mul, mult_IZR, bpow_add. ring. }
  destruct (binary_round_aux_rel false (Z.pos (ma * mb)) (ea + eb) loc_Exact
              (IZR (Z.pos (ma * mb)))) as (mf & ef & Hr & Herr).
  - lia.
  - reflexivity.
  - rewrite fexp_eq. cbn [Zdigits2]. lia.
  - rewrite Hval. lra.
  - left. rewrite Hval. lra.
  - assert (Hp : Prim2SF (a * b) = S754_finite false mf ef).
    { rewrite mul_spec, Ha, Hb. exact Hr. }
    destruct (positive_finite_intro _ mf ef Hp) as [Hpf HB].
    split; [done |]. rewrite HB, <- Hval. exact Herr.
Qed.


(** ** Addition and subtraction *)

Lemma iter_xO (m d : positive) : Z.pos (Pos.iter xO m d) = Z.pos m * 2 ^ Z.pos d.
Proof.
  induction d as [|d IH] using Pos.peano_ind.
  - cbn [Pos.iter]. lia.
  - rewrite Pos.iter_succ, Pos2Z.inj_xO, IH, Pos2Z.inj_succ.
    rewrite Z.pow_succ_r by lia. lia.
Qed.

Lemma shl_align_spec (m : positive) (e e' : Z) :
  ∃ m' e'', shl_align m e e' = (m', e'') ∧ e'' = Z.min e e' ∧
            Z.pos m' = Z.pos m * 2 ^ (e - e'').
Proof.
  unfold shl_align. destruct (e' - e) as [|p|p] eqn:Hd.
  - exists m, e. split; [done |]. split; [lia |].
    rewrite Z.sub_diag. lia.
  - exists m, e. split; [done |]. split; [lia |].
    rewrite Z.sub_diag. lia.
  - exists (Pos.iter xO m p), e'. split; [done |]. split; [lia |].
    rewrite iter_xO. f_equal. f_equal. lia.
Qed.

Lemma align_value (m : Z) (e ez : Z) :
  ez ≤ e → (IZR (m * 2 ^ (e - ez)) * bpow ez = IZR m * bpow e)%R.
Proof.
  intros Hle. rewrite mult_IZR, <- bpow_IZR by lia.
  replace e with ((e - ez) + ez) at 2 by lia. rewrite bpow_add. ring.
Qed.

Lemma binary_round_rel (s : bool) (m : positive) (e : Z) :
  - 1074 ≤ e → (IZR (Z.pos m) * bpow e <= bpow 1000)%R →
  ∃ (mf : positive) (ef : Z),
    binary_round prec emax s m e = S754_finite s mf ef ∧
    (- (bpow (- 53) * (IZR (Z.pos m) * bpow e))
       <= IZR (Z.pos mf) * bpow ef - IZR (Z.pos m) * bpow e
       <= bpow (- 53) * (IZR (Z.pos m) * bpow e))%R.
Proof.
  intros He Hhi. unfold binary_round.
  destruct (shl_align_spec m e (fexp prec emax (Z.pos (digits2_pos m) + e)))
    as (mz & ez & -> & Hez & Hmz).
  assert (Hval : (IZR (Z.pos mz) * bpow ez = IZR (Z.pos m) * bpow e)%R).
  { rewrite Hmz. apply align_value. lia. }
  rewrite <- Hval.
  apply binary_round_aux_rel.
  - lia.
  - reflexivity.
  - assert (Hd : Zdigits2 (Z.pos mz) + ez = Z.pos (digits2_pos m) + e).
    { rewrite Hmz, Zdigits2_log2 by lia.
      rewrite Z.log2_mul_pow2 by lia. rewrite digits2_log2. lia. }
    rewrite Hd. lia.
  - by rewrite Hval.
  - right. split; [done |]. rewrite fexp_eq in Hez. lia.
Qed.

Lemma SFadd_pos (ma mb : positive) (ea eb : Z) :
  - 1074 ≤ ea → - 1074 ≤ eb →
  (IZR (Z.pos ma) * bpow ea + IZR (Z.pos mb) * bpow eb <= bpow 1000)%R →
  ∃ (mf : positive) (ef : Z),
    SFadd prec emax (S754_finite false ma ea) (S754_finite false mb eb)
      = S754_finite false mf ef ∧
    (- (bpow (- 53) * (IZR (Z.pos ma) * bpow ea + IZR (Z.pos mb) * bpow eb))
       <= IZR (Z.pos mf) * bpow ef
          - (IZR (Z.pos ma) * bpow ea + IZR (Z.pos mb) * bpow eb)
       <= bpow (- 53) * (IZR (Z.pos ma) * bpow ea + IZR (Z.pos mb) * bpow eb))%R.
Proof.
  intros Hea Heb Hhi. unfold SFadd.
  destruct (shl_align_spec ma ea (Z.min ea eb)) as (ma' & ea' & -> & Hea' & Hma').
  destruct (shl_align_spec mb eb (Z.min ea eb)) as (mb' & eb' & -> & Heb' & Hmb').
  cbn [fst cond_Zopp].
  change (Z.pos ma' + Z.pos mb') with (Z.pos (ma' + mb')).
  cbn [binary_normalize].
  assert (Hval : (IZR (Z.pos (ma' + mb')) * bpow (Z.min ea eb) =
                  IZR (Z.pos ma) * bpow ea + IZR (Z.pos mb) * bpow eb)%R).
  { rewrite Pos2Z.inj_add, plus_IZR, Hma', Hmb', Rmult_plus_distr_r.
    replace ea' with (Z.min ea eb) by lia.
    replace eb' with (Z.min ea eb) by lia.
    rewrite !align_value by lia. done. }
  rewrite <- Hval. apply binary_round_rel; [lia | by rewrite Hval].
Qed.

Lemma SFsub_pos (ma mb : positive) (ea eb : Z) :
  - 1074 ≤ ea → - 1074 ≤ eb →
  (IZR (Z.pos ma) * bpow ea <= bpow 1000)%R →
  (IZR (Z.pos mb) * bpow eb <= IZR (Z.pos ma) * bpow ea)%R →
  ((IZR (Z.pos mb) * bpow eb = IZR (Z.pos ma) * bpow ea)%R ∧
   SFsub prec emax (S754_finite false ma ea) (S754_finite false mb eb)
     = S754_zero false) ∨
  ∃ (mf : positive) (ef : Z),
    SFsub prec emax (S754_finite false ma ea) (S754_finite false mb eb)
      = S754_finite false mf ef ∧
    (- (bpow (- 53) * (IZR (Z.pos ma) * bpow ea - IZR (Z.pos mb) * bpow eb))
       <= IZR (Z.pos mf) * bpow ef
          - (IZR (Z.pos ma) * bpow ea - IZR (Z.pos mb) * bpow eb)
       <= bpow (- 53) * (IZR (Z.pos ma) * bpow ea - IZR (Z.pos mb) * bpow eb))%R.
Proof.
  intros Hea Heb Hhi Hle. unfold SFsub.
  destruct (shl_align_spec ma ea (Z.min ea eb)) as (ma' & ea' & -> & Hea' & Hma').
  destruct (shl_align_spec mb eb (Z.min ea eb)) as (mb' & eb' & -> & Heb' & Hmb').
  cbn [fst cond_Zopp].
  assert (Hval : (IZR (Z.pos ma' - Z.pos mb') * bpow (Z.min ea eb) =
                  IZR (Z.pos ma) * bpow ea - IZR (Z.pos mb) * bpow eb)%R).
  { rewrite minus_IZR, Hma', Hmb', Rmult_minus_distr_r.
    replace ea' with (Z.min ea eb) by lia.
    replace eb' with (Z.min ea eb) by lia.
    rewrite !align_value by lia. done. }
  pose proof (bpow_pos (Z.min ea eb)) as Hp.
  destruct (Z.pos ma' - Z.pos mb') as [|p|p] eqn:Hdiff.
  - left. rewrite Rmult_0_l in Hval. split; [lra | done].
  - right. cbn [binary_normalize]. rewrite <- Hval.
    apply binary_round_rel; [lia |]. rewrite Hval.
    pose proof (IZR_pos_pos mb). pose proof (bpow_pos eb). nra.
  - exfalso. assert (IZR (Z.neg p) < 0)%R by (apply IZR_lt; lia). nra.
Qed.

Lemma B2R_finite (x : float) (m : positive) (e : Z) :
  Prim2SF x = S754_finite false m e → B2R x = (IZR (Z.pos m) * bpow e)%R.
Proof. intros Hx. unfold B2R. rewrite Hx. cbn. lra. Qed.

Lemma add_nearly (a b : float) :
  positive_finite a = true → positive_finite b = true →
  (B2R a + B2R b <= bpow 1000)%R →
  nearly (a + b) (B2R a + B2R b).
Proof.
  intros (ma & ea & Ha)%positive_finite_inv (mb & eb & Hb)%positive_finite_inv.
  rewrite (B2R_finite a _ _ Ha), (B2R_finite b _ _ Hb). intros Hhi.
  pose proof (valid_canonical a _ _ _ Ha) as [Hca _].
  pose proof (valid_canonical b _ _ _ Hb) as [Hcb _].
  destruct (SFadd_pos ma mb ea eb) as (mf & ef & Hr & Herr); [lia | lia | done |].
  assert (Hp : Prim2SF (a + b) = S754_finite false mf ef).
  { rewrite add_spec, Ha, Hb. exact Hr. }
  destruct (positive_finite_intro _ mf ef Hp) as [Hpf HB].
  split; [done |]. by rewrite HB.
Qed.

Lemma sub_nearly (a b : float) :
  positive_finite a = true → positive_finite b = true →
  (B2R a <= bpow 1000)%R → (B2R b <= B2R a)%R →
  ((B2R b = B2R a)%R ∧ Prim2SF (a - b) = S754_zero false) ∨
  nearly (a - b) (B2R a - B2R b).
Proof.
  intros (ma & ea & Ha)%positive_finite_inv (mb & eb & Hb)%positive_finite_inv.
  rewrite (B2R_finite a _ _ Ha), (B2R_finite b _ _ Hb). intros Hhi Hle.
  pose proof (valid_canonical a _ _ _ Ha) as [Hca _].
  pose proof (valid_canonical b _ _ _ Hb) as [Hcb _].
  destruct (SFsub_pos ma mb ea eb) as [[Heq Hz] | (mf & ef & Hr & Herr)];
    [lia | lia | done | done | |].
  - left. split; [done |]. rewrite sub_spec, Ha, Hb. exact Hz.
  - right. assert (Hp : Prim2SF (a - b) = S754_finite false mf ef).
    { rewrite sub_spec, Ha, Hb. exact Hr. }
    destruct (positive_finite_intro _ mf ef Hp) as [Hpf HB].
    split; [done |]. by rewrite HB.
Qed.


(** ** Division *)

(** Where the rest [k / n] of a division lies. *)
Lemma new_location_spec (n q k : Z) :
  0 < n → 0 ≤ k < n →
  located (IZR q + IZR k / IZR n) (shr_record_of_loc q (new_location n k)).
Proof.
  intros Hn Hk.
  assert (HN : (0 < IZR n)%R) by (by apply IZR_lt).
  set (t := (IZR k / IZR n)%R).
  assert (Ht : (t * IZR n = IZR k)%R) by (unfold t; field; lra).
  assert (Hk0 : k = 0 → t = 0%R).
  { intros ->. unfold t. lra. }
  assert (Hkpos : k ≠ 0 → (0 < t)%R).
  { intros Hne. assert (0 < IZR k)%R by (apply IZR_lt; lia). nra. }
  assert (Hlt1 : (t < 1)%R).
  { assert (IZR k < IZR n)%R by (apply IZR_lt; lia). nra. }
  assert (Hlow : 2 * k < n → (t < 1 / 2)%R).
  { intros H. apply IZR_lt in H. rewrite mult_IZR in H. nra. }
  assert (Hmid : 2 * k = n → (t = 1 / 2)%R).
  { intros H. apply (f_equal IZR) in H. rewrite mult_IZR in H. nra. }
  assert (Hhigh : n < 2 * k → (1 / 2 < t)%R).
  { intros H. apply IZR_lt in H. rewrite mult_IZR in H. nra. }
  unfold new_location, new_location_even, new_location_odd, located.
  destruct (Z.even n) eqn:Hev.
  - destruct (Z.eqb_spec k 0) as [Hz | Hnz]; cbn [shr_record_of_loc shr_r shr_s shr_m].
    + rewrite (Hk0 Hz). lra.
    + specialize (Hkpos Hnz).
      destruct (Z.compare_spec (2 * k) n) as [He | Hl | Hg];
        cbn [shr_record_of_loc shr_r shr_s shr_m].
      * rewrite (Hmid He). lra.
      * specialize (Hlow Hl). lra.
      * specialize (Hhigh Hg). lra.
  - destruct (Z.eqb_spec k 0) as [Hz | Hnz]; cbn [shr_record_of_loc shr_r shr_s shr_m].
    + rewrite (Hk0 Hz). lra.
    + specialize (Hkpos Hnz).
      assert (Hodd : 2 * k ≠ n).
      { intros <-. rewrite Z.even_mul in Hev. done. }
      destruct (Z.compare_spec (2 * k + 1) n) as [He | Hl | Hg];
        cbn [shr_record_of_loc shr_r shr_s shr_m].
      * assert (Hl : 2 * k < n) by lia. specialize (Hlow Hl). lra.
      * assert (Hl' : 2 * k < n) by lia. specialize (Hlow Hl'). lra.
      * assert (Hg' : n < 2 * k) by lia. specialize (Hhigh Hg'). lra.
Qed.

Lemma SFdiv_pos (ma mb : positive) (ea eb : Z) :
  (bpow (- 1022) <= IZR (Z.pos ma) * bpow ea / (IZR (Z.pos mb) * bpow eb)
     <= bpow 1000)%R →
  ∃ (mf : positive) (ef : Z),
    SFdiv prec emax (S754_finite false ma ea) (S754_finite false mb eb)
      = S754_finite false mf ef ∧
    (- (bpow (- 53) * (IZR (Z.pos ma) * bpow ea / (IZR (Z.pos mb) * bpow eb)))
       <= IZR (Z.pos mf) * bpow ef
          - IZR (Z.pos ma) * bpow ea / (IZR (Z.pos mb) * bpow eb)
       <= bpow (- 53) * (IZR (Z.pos ma) * bpow ea / (IZR (Z.pos mb) * bpow eb)))%R.
Proof.
  intros [Hlo Hhi]. unfold SFdiv, SFdiv_core_binary. cbn [xorb].
  set (d1 := Zdigits2 (Z.pos ma)). set (d2 := Zdigits2 (Z.pos mb)).
  set (e' := Z.min (fexp prec emax (d1 + ea - (d2 + eb))) (ea - eb)).
  set (sh := ea - eb - e').
  assert (Hsh : 0 ≤ sh) by (unfold sh, e'; lia).
  set (m' := match sh with
             | 0 => Z.pos ma
             | Z.pos _ => Z.shiftl (Z.pos ma) sh
             | Z.neg _ => 0
             end).
  assert (Hm' : m' = Z.pos ma * 2 ^ sh).
  { unfold m'. destruct sh as [|p|p] eqn:Hs; [lia | | lia].
    apply Z.shiftl_mul_pow2. lia. }
  clearbody m'.
  pose proof (Z.div_eucl_eq m' (Z.pos mb) ltac:(lia)) as Hdiv.
  pose proof (Z.mod_pos_bound m' (Z.pos mb) ltac:(lia)) as Hmod.
  unfold Z.modulo in Hmod.
  destruct (Z.div_eucl m' (Z.pos mb)) as [q r]. cbn [fst snd] in Hdiv.
  pose proof (IZR_pos_pos ma) as Hpa. pose proof (IZR_pos_pos mb) as Hpb.
  pose proof (bpow_pos ea) as Hea. pose proof (bpow_pos eb) as Heb.
  pose proof (bpow_pos e') as Hpe'.
  set (x := (IZR q + IZR r / IZR (Z.pos mb))%R).
  assert (Hx : (x = IZR m' / IZR (Z.pos mb))%R).
  { unfold x. rewrite Hdiv, plus_IZR, mult_IZR. field. lra. }
  assert (Hval : (x * bpow e' =
                  IZR (Z.pos ma) * bpow ea / (IZR (Z.pos mb) * bpow eb))%R).
  { rewrite Hx, Hm', mult_IZR, <- bpow_IZR by done.
    assert (Hsplit : bpow ea = (bpow sh * bpow e' * bpow eb)%R).
    { rewrite <- !bpow_add. f_equal. unfold sh. lia. }
    rewrite Hsplit. field. lra. }
  assert (Hq : 0 ≤ q).
  { assert (0 ≤ m') by (rewrite Hm'; pose proof (Z.pow_nonneg 2 sh); lia).
    destruct (Z_lt_le_dec q 0) as [Hneg |]; [| done]. nia. }
  rewrite <- Hval.
  apply binary_round_aux_rel.
  - done.
  - apply new_location_spec; lia.
  - (* the quotient has enough digits *)
    assert (Hdq : d1 + sh - d2 ≤ Zdigits2 q).
    { pose proof (Zdigits2_nonneg q).
      destruct (Z_le_gt_dec (d1 + sh - d2) 0) as [| Hpos]; [lia |].
      pose proof (Zdigits2_bounds (Z.pos ma) ltac:(lia)) as [Ha1 _].
      pose proof (Zdigits2_bounds (Z.pos mb) ltac:(lia)) as [_ Hb2].
      fold d1 in Ha1. fold d2 in Hb2.
      assert (Hd1 : 1 ≤ d1) by (unfold d1; cbn; lia).
      assert (Hd2 : 1 ≤ d2) by (unfold d2; cbn; lia).
      assert (Hpow : 2 ^ (d1 - 1 + sh) = 2 ^ (d1 + sh - d2 - 1) * 2 ^ d2).
      { rewrite <- Z.pow_add_r by lia. f_equal. lia. }
      assert (Hm'lo : 2 ^ (d1 - 1 + sh) ≤ m').
      { rewrite Hm', Z.pow_add_r by lia.
        pose proof (Z.pow_pos_nonneg 2 sh). nia. }
      assert (Hqlo : 2 ^ (d1 + sh - d2 - 1) ≤ q).
      { pose proof (Z.pow_pos_nonneg 2 (d1 + sh - d2 - 1) ltac:(lia) ltac:(lia)).
        destruct (Z_le_gt_dec (2 ^ (d1 + sh - d2 - 1)) q) as [| Hgt]; [done |].
        exfalso. nia. }
      apply Zdigits2_ge; [| done].
      pose proof (Z.pow_pos_nonneg 2 (d1 + sh - d2 - 1) ltac:(lia) ltac:(lia)). lia. }
    rewrite fexp_eq. unfold e' at 1. rewrite fexp_eq. unfold sh in Hdq. lia.
  - by rewrite Hval.
  - left. by rewrite Hval.
Qed.

Lemma div_nearly (a b : float) :
  positive_finite a = true → positive_finite b = true →
  (bpow (- 1022) <= B2R a / B2R b <= bpow 1000)%R →
  nearly (a / b) (B2R a / B2R b).
Proof.
  intros (ma & ea & Ha)%positive_finite_inv (mb & eb & Hb)%positive_finite_inv.
  rewrite (B2R_finite a _ _ Ha), (B2R_finite b _ _ Hb). intros Hr.
  destruct (SFdiv_pos ma mb ea eb Hr) as (mf & ef & Hq & Herr).
  assert (Hp : Prim2SF (a / b) = S754_finite false mf ef).
  { rewrite div_spec, Ha, Hb. exact Hq. }
  destruct (positive_finite_intro _ mf ef Hp) as [Hpf HB].
  split; [done |]. by rewrite HB.
Qed.


(** ** Comparisons *)

Lemma canonical_digits (x : float) (s : bool) (m : positive) (e : Z) :
  Prim2SF x = S754_finite s m e →
  (IZR (Z.pos m) < bpow 53)%R ∧ - 1074 ≤ e ∧
  (- 1074 < e → (bpow 52 <= IZR (Z.pos m))%R).
Proof.
  intros [Hc _]%valid_canonical.
  pose proof (Zdigits2_bounds (Z.pos m) ltac:(lia)) as [Hlo Hhi].
  cbn [Zdigits2] in Hlo, Hhi.
  split; [| split; [lia |]].
  - apply IZR_lt_bpow; [lia |].
    eapply Z.lt_le_trans; [exact Hhi |]. apply Z.pow_le_mono_r; lia.
  - intros He. apply IZR_ge_bpow; [lia |].
    replace 52 with (Z.pos (digits2_pos m) - 1) by lia. done.
Qed.

(** [<=] on finite numbers above zero is the order of their values. *)
Lemma leb_B2R (a b : float) :
  positive_finite a = true → positive_finite b = true →
  PrimFloat.leb a b = true → (B2R a <= B2R b)%R.
Proof.
  intros (ma & ea & Ha)%positive_finite_inv (mb & eb & Hb)%positive_finite_inv.
  rewrite (B2R_finite a _ _ Ha), (B2R_finite b _ _ Hb).
  rewrite leb_spec, Ha, Hb. unfold SFleb, SFcompare.
  pose proof (canonical_digits a _ _ _ Ha) as (Ha53 & Hamin & _).
  pose proof (canonical_digits b _ _ _ Hb) as (_ & _ & Hb52).
  pose proof (bpow_pos ea). pose proof (bpow_pos eb).
  destruct (Z.compare_spec ea eb) as [-> | Hlt | Hgt].
  - fold (Pos.compare ma mb). intros Hc.
    assert (Z.pos ma ≤ Z.pos mb) as Hle%IZR_le
      by (destruct (Pos.compare_spec ma mb); [lia | lia | done]).
    nra.
  - intros _. specialize (Hb52 ltac:(lia)).
    assert (Hstep : (bpow (53 + ea) <= bpow (52 + eb))%R) by (apply bpow_le; lia).
    rewrite !bpow_add in Hstep. nra.
  - done.
Qed.

(** What lies at or above a finite number above zero is such a number, or
    the infinity. *)
Lemma leb_positive (a b : float) :
  positive_finite a = true → PrimFloat.leb a b = true →
  positive_finite b = true ∨ Prim2SF b = S754_infinity false.
Proof.
  intros (ma & ea & Ha)%positive_finite_inv.
  rewrite leb_spec, Ha. unfold positive_finite, SFleb, SFcompare.
  destruct (Prim2SF b) as [s|[]| |[] m e]; try done; auto.
Qed.

Lemma below_finite (a b : float) :
  positive_finite b = true → PrimFloat.leb a b = true →
  Prim2SF a ≠ S754_infinity false.
Proof.
  intros (mb & eb & Hb)%positive_finite_inv.
  rewrite leb_spec, Hb. intros H Hinf. by rewrite Hinf in H.
Qed.

(** A float below 1 is below 1 by a multiple of its last place. *)
Lemma below_one_gap (p : float) (k : Z) :
  positive_finite p = true → 0 ≤ k →
  (bpow (- k) <= B2R p)%R → (B2R p < 1)%R →
  (B2R p + bpow (- k - 52) <= 1)%R.
Proof.
  intros (m & e & Hp)%positive_finite_inv Hk.
  rewrite (B2R_finite p _ _ Hp). intros Hlo Hhi.
  pose proof (canonical_digits p _ _ _ Hp) as (H53 & _ & _).
  pose proof (bpow_pos e) as Hpe.
  assert (He : - k - 52 ≤ e).
  { assert (Hlt : (bpow (- k) < bpow (53 + e))%R) by (rewrite bpow_add; nra).
    apply bpow_lt_inv in Hlt. lia. }
  assert (Hneg : e < 0).
  { assert (Hlt : (bpow e < bpow 0)%R).
    { rewrite bpow_0. assert (1 <= IZR (Z.pos m))%R by (apply IZR_le; lia). nra. }
    by apply bpow_lt_inv in Hlt. }
  assert (Hone : (IZR (2 ^ (- e)) * bpow e = 1)%R).
  { rewrite <- bpow_IZR, <- bpow_add by lia.
    replace (- e + e) with 0 by lia. apply bpow_0. }
  assert (Hm : Z.pos m < 2 ^ (- e)).
  { apply lt_IZR. nra. }
  assert (Hm1 : (IZR (Z.pos m) + 1 <= IZR (2 ^ (- e)))%R).
  { rewrite <- plus_IZR. apply IZR_le. lia. }
  assert (Hgap : (bpow (- k - 52) <= bpow e)%R) by (by apply bpow_le).
  nra.
Qed.

(** ** The error of an update, in real arithmetic *)

Section Error.
Local Open Scope R_scope.

(** The error of the five rounded operations of an update with two equal
    likelihoods, as real arithmetic. *)
Lemma posterior_error (u L P A Q B E r : R) :
  0 < u <= 1 / 1000 → 0 < L → 0 < P < 1 →
  - (u * (L * P)) <= A - L * P <= u * (L * P) →
  - (u * (1 - P)) <= Q - (1 - P) <= u * (1 - P) →
  - (u * (L * Q)) <= B - L * Q <= u * (L * Q) →
  - (u * (A + B)) <= E - (A + B) <= u * (A + B) →
  - (u * (A / E)) <= r - A / E <= u * (A / E) →
  - (8 * u * P) <= r - P <= 8 * u * P.
Proof.
  intros Hu HL HP HA HQ HB HE Hr.
  assert (HLP : 0 < L * P) by nra.
  assert (HA0 : 0 < A) by nra.
  assert (HQ0 : 0 < Q) by nra.
  assert (HLQ : 0 < L * Q) by nra.
  assert (HB0 : 0 < B) by nra.
  assert (HE0 : 0 < E) by nra.
  set (t := A / E) in *.
  assert (Ht : t * E = A) by (unfold t; field; lra).
  assert (Ht0 : 0 < t) by (unfold t; apply Rdiv_lt_0_compat; lra).
  set (c := (1 - u) * (1 - u) * (1 - u)).
  set (d := (1 + u) * (1 + u) * (1 + u)).
  assert (Hc : 0 < c) by (unfold c; nra).
  assert (Hd : 0 < d) by (unfold d; nra).
  (* the sum of the two products *)
  assert (HBlo : L * (1 - P) * ((1 - u) * (1 - u)) <= B).
  { assert (L * ((1 - P) * (1 - u)) <= L * Q) by nra. nra. }
  assert (HBhi : B <= L * (1 - P) * ((1 + u) * (1 + u))).
  { assert (L * Q <= L * ((1 - P) * (1 + u))) by nra. nra. }
  assert (HSlo : L * ((1 - u) * (1 - u)) <= A + B) by nra.
  assert (HShi : A + B <= L * ((1 + u) * (1 + u))) by nra.
  assert (HElo : L * c <= E).
  { unfold c. assert ((A + B) * (1 - u) <= E) by nra. nra. }
  assert (HEhi : E <= L * d).
  { unfold d. assert (E <= (A + B) * (1 + u)) by nra. nra. }
  assert (Hup : t * c <= P * (1 + u)).
  { apply (Rmult_le_reg_l L); [done |].
    assert (t * (L * c) <= t * E) by nra. nra. }
  assert (Hdn : P * (1 - u) <= t * d).
  { apply (Rmult_le_reg_l L); [done |].
    assert (t * E <= t * (L * d)) by nra. nra. }
  assert (Hpc : (1 + u) * (1 + u) <= (1 + 8 * u) * c) by (unfold c; nra).
  assert (Hpd : (1 - 8 * u) * d <= (1 - u) * (1 - u)) by (unfold d; nra).
  split.
  - apply (Rmult_le_reg_r d); [done |].
    assert (t * (1 - u) <= r) by nra.
    assert (P * ((1 - 8 * u) * d) <= P * ((1 - u) * (1 - u))) by nra.
    assert (P * (1 - u) * (1 - u) <= t * d * (1 - u)) by nra.
    assert (t * (1 - u) * d <= r * d) by nra.
    nra.
  - apply (Rmult_le_reg_r c); [done |].
    assert (r <= t * (1 + u)) by nra.
    assert (P * ((1 + u) * (1 + u)) <= P * ((1 + 8 * u) * c)) by nra.
    assert (t * c * (1 + u) <= P * (1 + u) * (1 + u)) by nra.
    assert (r * c <= t * (1 + u) * c) by nra.
    nra.
Qed.

(** The quotient that the update rounds last lies near the prior. *)
Lemma quotient_bounds (u L P A Q B E : R) :
  0 < u <= 1 / 1000 → 0 < L → 0 < P < 1 →
  - (u * (L * P)) <= A - L * P <= u * (L * P) →
  - (u * (1 - P)) <= Q - (1 - P) <= u * (1 - P) →
  - (u * (L * Q)) <= B - L * Q <= u * (L * Q) →
  - (u * (A + B)) <= E - (A + B) <= u * (A + B) →
  P / 2 <= A / E <= 2 * P.
Proof.
  intros Hu HL HP HA HQ HB HE.
  assert (HLP : 0 < L * P) by nra.
  assert (HA0 : 0 < A) by nra.
  assert (HQ0 : 0 < Q) by nra.
  assert (HLQ : 0 < L * Q) by nra.
  assert (HB0 : 0 < B) by nra.
  assert (HE0 : 0 < E) by nra.
  set (t := A / E) in *.
  assert (Ht : t * E = A) by (unfold t; field; lra).
  assert (Ht0 : 0 < t) by (unfold t; apply Rdiv_lt_0_compat; lra).
  assert (HBlo : L * (1 - P) * (9 / 10) <= B).
  { assert (L * ((1 - P) * (1 - u)) <= L * Q) by nra. nra. }
  assert (HBhi : B <= L * (1 - P) * (11 / 10)).
  { assert (L * Q <= L * ((1 - P) * (1 + u))) by nra. nra. }
  assert (HElo : L * (8 / 10) <= E) by nra.
  assert (HEhi : E <= L * (12 / 10)) by nra.
  split.
  - apply (Rmult_le_reg_l L); [done |].
    assert (t * E <= t * (L * (12 / 10))) by nra. nra.
  - apply (Rmult_le_reg_l L); [done |].
    assert (t * (L * (8 / 10)) <= t * E) by nra. nra.
Qed.

End Error.

End Rounding64.

(** * Properties of the Bayesian update and of the base-rate adjustment *)

Module Belief.
Import Num RiskAnalyzer Binary64 Binary64Real Rounding64.

(** ** Certainty *)

Section Certainty.
Variables lt lf : float.
Hypothesis Hlt0 : PrimFloat.leb 0 lt = true.
Hypothesis Hlt1 : PrimFloat.leb lt 1 = true.
Hypothesis Hlf0 : PrimFloat.leb 0 lf = true.
Hypothesis Hlf1 : PrimFloat.leb lf 1 = true.

Lemma bayesian_update_false :
  PrimFloat.eqb (bayesian_update 0%float lt lf) 0 = true.
Proof using Hlt0 Hlt1 Hlf0 Hlf1.
  unfold bayesian_update. cbn [add sub mul div eqb of_int binary64].
  change (float_of_int 1) with 1%float. change (float_of_int 0) with 0%float.
  change (PrimFloat.sub 1 0) with 1%float.
  rewrite (mul_one lf Hlf0 Hlf1).
  destruct (mul_zero lt Hlt0 Hlt1) as [s Hz].
  destruct (unit_interval_shape lf Hlf0 Hlf1) as [[s' Hx] | (m & e & Hx)].
  - assert (He : PrimFloat.eqb (PrimFloat.add (PrimFloat.mul lt 0) lf) 0 = true).
    { rewrite FloatAxioms.eqb_spec, FloatAxioms.add_spec, Hz, Hx, Prim2SF_0. by destruct s, s'. }
    rewrite He. reflexivity.
  - assert (He : PrimFloat.eqb (PrimFloat.add (PrimFloat.mul lt 0) lf) 0 = false).
    { rewrite FloatAxioms.eqb_spec, FloatAxioms.add_spec, Hz, Hx, Prim2SF_0. by destruct s. }
    rewrite He.
    rewrite FloatAxioms.eqb_spec, FloatAxioms.div_spec, FloatAxioms.add_spec, Hz, Hx, Prim2SF_0. by destruct s.
Qed.

Lemma bayesian_update_true :
  PrimFloat.eqb (bayesian_update 1%float lt lf) 1 = true.
Proof using Hlt0 Hlt1 Hlf0 Hlf1.
  unfold bayesian_update. cbn [add sub mul div eqb of_int binary64].
  change (float_of_int 1) with 1%float. change (float_of_int 0) with 0%float.
  change (PrimFloat.sub 1 1) with 0%float.
  rewrite (mul_one lt Hlt0 Hlt1).
  destruct (mul_zero lf Hlf0 Hlf1) as [s Hz].
  destruct (unit_interval_shape lt Hlt0 Hlt1) as [[s' Hx] | (m & e & Hx)].
  - assert (He : PrimFloat.eqb (PrimFloat.add lt (PrimFloat.mul lf 0)) 0 = true).
    { rewrite FloatAxioms.eqb_spec, FloatAxioms.add_spec, Hz, Hx, Prim2SF_0. by destruct s, s'. }
    rewrite He. reflexivity.
  - assert (Hs : Prim2SF (PrimFloat.add lt (PrimFloat.mul lf 0)) =
                 S754_finite false m e).
    { rewrite FloatAxioms.add_spec, Hz, Hx. reflexivity. }
    assert (He : PrimFloat.eqb (PrimFloat.add lt (PrimFloat.mul lf 0)) 0 = false).
    { rewrite FloatAxioms.eqb_spec, Hs, Prim2SF_0. reflexivity. }
    rewrite He.
    rewrite FloatAxioms.eqb_spec, FloatAxioms.div_spec, Hs, Hx, SFdiv_self_finite, Prim2SF_1.
    vm_compute. reflexivity.
Qed.

End Certainty.

(** C10.  Certainty is a fixed point of the update in binary64: for
    likelihoods in [[0, 1]], the posterior of prior 0 equals 0 and the
    posterior of prior 1 equals 1 (equality is Python's [==]: for the
    likelihood [-0.0] the posterior of 0 is [-0.0]). *)
Theorem certainty_is_fixed (lt lf : float) :
  PrimFloat.leb 0 lt = true → PrimFloat.leb lt 1 = true →
  PrimFloat.leb 0 lf = true → PrimFloat.leb lf 1 = true →
  eqb (bayesian_update (of_int 0) lt lf) (of_int 0) = true ∧
  eqb (bayesian_update (of_int 1) lt lf) (of_int 1) = true.
Proof.
  intros Hlt0 Hlt1 Hlf0 Hlf1. split.
  - by apply bayesian_update_false.
  - by apply bayesian_update_true.
Qed.

Lemma certainty_is_fixed_witness :
  eqb (bayesian_update (of_int 0) 0.9 0.1)%float (of_int 0) = true ∧
  eqb (bayesian_update (of_int 1) 0.9 0.1)%float (of_int 1) = true.
Proof.
  apply (certainty_is_fixed 0.9 0.1); reflexivity.
Defined.

(** The same over the real numbers, where no hypothesis on the likelihoods is
    needed. *)
Lemma certainty_is_fixed_exact (lt lf : R) :
  bayesian_update 0%R lt lf = 0%R ∧ bayesian_update 1%R lt lf = 1%R.
Proof.
  unfold bayesian_update. cbn [add sub mul div eqb of_int exact].
  split; destruct (Req_dec_T _ _) as [E | NE]; try reflexivity.
  - unfold Rdiv. by rewrite Rmult_0_r, Rmult_0_l.
  - field. intros E. apply NE. rewrite <- E. ring.
Qed.

(** ** Uninformative evidence *)

(** C7, as the specification states it, fails in binary64: prior 0.1 with
    both likelihoods 0.3 lies in [[0, 1]], the evidence rounds to
    0.30000000000000004 and the posterior to 0.09999999999999998. *)
Lemma uninformative_update_rounds :
  (PrimFloat.leb 0 0.1 && PrimFloat.leb 0.1 1 &&
   PrimFloat.leb 0 0.3 && PrimFloat.leb 0.3 1 = true)%float ∧
  (bayesian_update 0.1 0.3 0.3 = 0.099999999999999978)%float ∧
  (eqb (bayesian_update 0.1 0.3 0.3) 0.1 = false)%float.
Proof. repeat split; vm_compute; reflexivity. Qed.

(** Over the real numbers the update with two equal likelihoods returns the
    prior: when the evidence is 0 the prior itself is returned, otherwise the
    likelihood cancels. *)
Lemma uninformative_update_exact (prior L : R) :
  bayesian_update prior L L = prior.
Proof.
  unfold bayesian_update. cbn [add sub mul div eqb of_int exact].
  destruct (Req_dec_T _ _) as [E | NE]; [reflexivity |].
  assert (HL : L ≠ 0%R) by (intros ->; apply NE; lra).
  field. lra.
Qed.

(** Whatever the arithmetic, evidence that compares equal to 0 makes the
    update return the prior itself. *)
Lemma zero_evidence_returns_prior {T} `{Arith T} (prior lt lf : T) :
  eqb (add (mul lt prior) (mul lf (sub (of_int 1) prior))) (of_int 0) = true →
  bayesian_update prior lt lf = prior.
Proof. unfold bayesian_update. by intros ->. Qed.

(** ** Uninformative evidence in binary64 *)

Lemma B2R_one : B2R 1 = 1%R.
Proof.
  rewrite (B2R_finite 1 _ _ Prim2SF_1).
  change 4503599627370496 with (2 ^ 52). rewrite <- bpow_IZR, <- bpow_add by lia.
  apply bpow_0.
Qed.

Lemma B2R_small : B2R 0x1p-400 = bpow (- 400).
Proof.
  assert (H : Prim2SF 0x1p-400 = S754_finite false 4503599627370496 (- 452))
    by (vm_compute; reflexivity).
  rewrite (B2R_finite _ _ _ H).
  change 4503599627370496 with (2 ^ 52). rewrite <- bpow_IZR, <- bpow_add by lia.
  done.
Qed.

Lemma positive_finite_one : positive_finite 1 = true.
Proof. vm_compute. reflexivity. Qed.

Lemma positive_finite_small : positive_finite 0x1p-400 = true.
Proof. vm_compute. reflexivity. Qed.

(** A float between [2^-400] and 1. *)
Lemma moderate_shape (x : float) :
  PrimFloat.leb 0x1p-400 x = true → PrimFloat.leb x 1 = true →
  positive_finite x = true ∧ (bpow (- 400) <= B2R x <= 1)%R.
Proof.
  intros Hlo Hhi.
  assert (Hx : positive_finite x = true).
  { destruct (leb_positive _ _ positive_finite_small Hlo) as [? | Hinf]; [done |].
    by apply (below_finite _ _ positive_finite_one) in Hhi. }
  split; [done |]. rewrite <- B2R_small, <- B2R_one.
  split; apply leb_B2R; done || apply positive_finite_small || apply positive_finite_one.
Qed.

Lemma eqb_zero_inv (x : float) :
  PrimFloat.eqb x 0 = true → ∃ s, Prim2SF x = S754_zero s.
Proof.
  rewrite FloatAxioms.eqb_spec, Prim2SF_0. unfold SFeqb, SFcompare.
  destruct (Prim2SF x) as [s|[]| |[] m e]; try done. eauto.
Qed.

Lemma positive_finite_nonzero (x : float) :
  positive_finite x = true → PrimFloat.eqb x 0 = false.
Proof.
  intros (m & e & Hx)%positive_finite_inv.
  by rewrite FloatAxioms.eqb_spec, Hx, Prim2SF_0.
Qed.

(** [1 - x] for [x] in [[0, 1]] is a zero or a finite number above zero. *)
Lemma one_minus_shape (x : float) :
  PrimFloat.leb 0 x = true → PrimFloat.leb x 1 = true →
  (∃ s, Prim2SF (1 - x) = S754_zero s) ∨ positive_finite (1 - x) = true.
Proof.
  intros H0 H1.
  destruct (unit_interval_shape x H0 H1) as [[s Hx] | (m & e & Hx)].
  - right. unfold positive_finite.
    rewrite FloatAxioms.sub_spec, Prim2SF_1, Hx. done.
  - destruct (positive_finite_intro x m e Hx) as [Hpf _].
    destruct (sub_nearly 1 x positive_finite_one Hpf) as [[_ Hz] | [Hq _]].
    + rewrite B2R_one. pose proof (bpow_ge_1 1000 ltac:(lia)). lra.
    + apply leb_B2R; done || apply positive_finite_one.
    + left. eauto.
    + by right.
Qed.

(** With likelihoods that compare equal to 0 the evidence is a zero and the
    prior is returned. *)
Lemma zero_likelihood_returns_prior (prior L : float) :
  PrimFloat.leb 0 prior = true → PrimFloat.leb prior 1 = true →
  PrimFloat.eqb L 0 = true →
  bayesian_update prior L L = prior.
Proof.
  intros H0 H1 [s HL]%eqb_zero_inv.
  apply zero_evidence_returns_prior.
  cbn [add sub mul eqb of_int binary64].
  change (float_of_int 1) with 1%float. change (float_of_int 0) with 0%float.
  assert (Ha : ∃ s', Prim2SF (L * prior) = S754_zero s').
  { rewrite FloatAxioms.mul_spec, HL.
    destruct (unit_interval_shape prior H0 H1) as [[s' ->] | (m & e & ->)];
      cbn; eauto. }
  assert (Hb : ∃ s', Prim2SF (L * (1 - prior)) = S754_zero s').
  { rewrite FloatAxioms.mul_spec, HL.
    destruct (one_minus_shape prior H0 H1) as [[s' ->] | (m & e & ->)%positive_finite_inv];
      cbn; eauto. }
  destruct Ha as [sa Ha]. destruct Hb as [sb Hb].
  rewrite FloatAxioms.eqb_spec, FloatAxioms.add_spec, Ha, Hb, Prim2SF_0.
  by destruct sa, sb.
Qed.

Lemma bpow_m10 : bpow (- 10) = (/ 1024)%R.
Proof. unfold bpow, powerRZ. change (Pos.to_nat 10) with 10%nat. simpl. lra. Qed.

Lemma bpow_m50 : bpow (- 50) = (8 * bpow (- 53))%R.
Proof.
  replace (- 50) with (3 + - 53) by lia. rewrite bpow_add, bpow_IZR by lia.
  done.
Qed.

(** Between [2^-400] and 1 the update with two equal likelihoods returns a
    finite number within [2^-50] of the prior, relatively. *)
Lemma uninformative_update_close (prior L : float) :
  PrimFloat.leb 0x1p-400 prior = true → PrimFloat.leb prior 1 = true →
  PrimFloat.leb 0x1p-400 L = true → PrimFloat.leb L 1 = true →
  positive_finite (bayesian_update prior L L) = true ∧
  (- (bpow (- 50) * B2R prior)
     <= B2R (bayesian_update prior L L) - B2R prior
     <= bpow (- 50) * B2R prior)%R.
Proof.
  intros Hp0 Hp1 HL0 HL1.
  destruct (moderate_shape prior Hp0 Hp1) as [Hp [HPlo HPhi]].
  destruct (moderate_shape L HL0 HL1) as [HL [HLlo HLhi]].
  unfold bayesian_update. cbn [add sub mul div eqb of_int binary64].
  change (float_of_int 1) with 1%float. change (float_of_int 0) with 0%float.
  pose proof bpow_m53_small as [Hu0 _].
  assert (Hu : (bpow (- 53) <= 1 / 1000)%R).
  { pose proof (bpow_le (- 53) (- 10) ltac:(lia)) as H. rewrite bpow_m10 in H. lra. }
  pose proof (bpow_pos (- 400)) as H400.
  pose proof (bpow_ge_1 1000 ltac:(lia)) as H1000.
  pose proof (bpow_le (- 1022) (- 800) ltac:(lia)) as H800.
  replace (- 800) with (- 400 + - 400) in H800 by lia. rewrite bpow_add in H800.
  pose proof (bpow_le 2 1000 ltac:(lia)) as Hfour.
  rewrite (bpow_IZR 2) in Hfour by lia. change (IZR (2 ^ 2)) with 4%R in Hfour.
  assert (Ha : nearly (L * prior) (B2R L * B2R prior)).
  { apply mul_nearly; [done | done |]. nra. }
  destruct Ha as [Hpa Ha].
  destruct (sub_nearly 1 prior positive_finite_one Hp) as [[HP1 Hq] | [Hpq Hq]].
  { rewrite B2R_one. lra. }
  { by rewrite B2R_one. }
  - (* prior = 1: the second product is a zero and the quotient is 1 *)
    destruct (positive_finite_inv _ Hpa) as (ma & ea & Hma).
    destruct (positive_finite_inv _ HL) as (ml & el & Hml).
    assert (Hb : Prim2SF (L * (1 - prior)) = S754_zero false).
    { rewrite FloatAxioms.mul_spec, Hml, Hq. done. }
    assert (He : (L * prior + L * (1 - prior))%float = (L * prior)%float).
    { apply Prim2SF_inj. rewrite FloatAxioms.add_spec, Hb, Hma. done. }
    rewrite He, (positive_finite_nonzero _ Hpa).
    assert (Hr : Prim2SF (L * prior / (L * prior)) =
                 S754_finite false 4503599627370496 (- 52)).
    { rewrite FloatAxioms.div_spec, Hma. apply SFdiv_self_finite. }
    destruct (positive_finite_intro _ _ _ Hr) as [Hpr _].
    split; [done |].
    assert (HB : B2R (L * prior / (L * prior)) = 1%R).
    { rewrite <- B2R_one. unfold B2R. by rewrite Hr, Prim2SF_1. }
    rewrite HB, HP1, B2R_one. pose proof (bpow_pos (- 50)). lra.
  - rewrite B2R_one in Hq.
    pose proof (B2R_positive _ Hpq) as HQ0.
    assert (HPlt : (B2R prior < 1)%R) by nra.
    pose proof (below_one_gap prior 400 Hp ltac:(lia) HPlo HPlt) as Hgap.
    change (bpow (- (400) - 52)) with (bpow (- 452)) in Hgap.
    pose proof (bpow_pos (- 452)) as H452.
    pose proof (bpow_le (- 1022) (- 853) ltac:(lia)) as H853.
    replace (- 853) with (- 400 + (- 452 + - 1)) in H853 by lia.
    rewrite !bpow_add, bpow_m1 in H853.
    assert (HQlo : (bpow (- 452) * (1 / 2) <= B2R (1 - prior))%R).
    { assert (bpow (- 452) * (1 - bpow (- 53))
              <= (1 - B2R prior) * (1 - bpow (- 53)))%R
        by (apply Rmult_le_compat_r; lra).
      assert (bpow (- 452) * (1 / 2) <= bpow (- 452) * (1 - bpow (- 53)))%R
        by (apply Rmult_le_compat_l; lra).
      lra. }
    assert (HQhi : (B2R (1 - prior) <= 2)%R).
    { assert (bpow (- 53) * (1 - B2R prior) <= 1 * 1)%R
        by (apply Rmult_le_compat; lra).
      lra. }
    assert (Hb : nearly (L * (1 - prior)) (B2R L * B2R (1 - prior))).
    { apply mul_nearly; [done | done |]. split; [| nra].
      eapply Rle_trans; [exact H853 |]. nra. }
    destruct Hb as [Hpb Hb].
    assert (He : nearly (L * prior + L * (1 - prior))
                        (B2R (L * prior) + B2R (L * (1 - prior)))).
    { apply add_nearly; [done | done |]. nra. }
    destruct He as [Hpe He].
    rewrite (positive_finite_nonzero _ Hpe).
    assert (HP : (0 < B2R prior < 1)%R) by lra.
    assert (HL' : (0 < B2R L)%R) by lra.
    pose proof (quotient_bounds _ _ _ _ _ _ _ (conj Hu0 Hu) HL' HP Ha Hq Hb He)
      as [Hqlo Hqhi].
    pose proof (bpow_le (- 1022) (- 401) ltac:(lia)) as H401.
    replace (- 401) with (- 400 + - 1) in H401 by lia.
    rewrite bpow_add, bpow_m1 in H401.
    assert (Hr : nearly (L * prior / (L * prior + L * (1 - prior)))
                        (B2R (L * prior) / B2R (L * prior + L * (1 - prior)))).
    { apply div_nearly; [done | done |]. split; lra. }
    destruct Hr as [Hpr Hr]. split; [done |].
    rewrite bpow_m50.
    pose proof (posterior_error _ _ _ _ _ _ _ _ (conj Hu0 Hu) HL' HP Ha Hq Hb He Hr).
    lra.
Qed.

(** Below the range of the normal numbers the products underflow and the
    posterior leaves the prior: with both likelihoods [2^-1074] the prior
    0.75 is updated to 1 and the prior 0.25 to 0. *)
Lemma uninformative_update_underflows :
  (bayesian_update 0.75 0x1p-1074 0x1p-1074 = 1)%float ∧
  (bayesian_update 0.25 0x1p-1074 0x1p-1074 = 0)%float.
Proof. split; vm_compute; reflexivity. Qed.

(** C7, as the code has it, in binary64.  For a prior in [[0, 1]]: with
    likelihoods that compare equal to 0 the evidence is 0 and the prior itself
    is returned; and when the prior and the likelihood both lie between
    [2^-400] and 1, the posterior is a finite number above zero whose distance
    from the prior is at most [2^-50] times the prior.  [B2R] is the real
    value of a float. *)
Theorem uninformative_update_binary64 (prior L : float) :
  PrimFloat.leb 0 prior = true → PrimFloat.leb prior 1 = true →
  (PrimFloat.eqb L 0 = true → bayesian_update prior L L = prior) ∧
  (PrimFloat.leb 0x1p-400 prior = true →
   PrimFloat.leb 0x1p-400 L = true → PrimFloat.leb L 1 = true →
   positive_finite (bayesian_update prior L L) = true ∧
   (Rabs (B2R (bayesian_update prior L L) - B2R prior)
      <= bpow (- 50) * B2R prior)%R).
Proof.
  intros H0 H1. split.
  - by apply zero_likelihood_returns_prior.
  - intros Hp HL0 HL1.
    destruct (uninformative_update_close prior L Hp H1 HL0 HL1) as [Hf Hb].
    split; [done |]. apply Rabs_le. lra.
Qed.

Lemma uninformative_update_binary64_witness :
  (bayesian_update 0.1 0 0 = 0.1)%float ∧
  positive_finite (bayesian_update 0.1 0.3 0.3)%float = true ∧
  (Rabs (B2R (bayesian_update 0.1 0.3 0.3)%float - B2R 0.1%float)
     <= bpow (- 50) * B2R 0.1%float)%R.
Proof.
  split.
  - apply (uninformative_update_binary64 0.1 0); reflexivity.
  - apply (uninformative_update_binary64 0.1 0.3); reflexivity.
Defined.

(** The documented example: prior 0.5, likelihoods 0.9 and 0.1. *)
Lemma bayesian_update_example :
  (bayesian_update 0.5 0.9 0.1 = 0.9)%float.
Proof. vm_compute. reflexivity. Qed.

(** ** Base rates *)

(** The decimal literals of the file in binary64. *)
Lemma literals_binary64 :
  (dec 7 10 = 0.7 ∧ dec 3 10 = 0.3 ∧ dec 1 100 = 0.01 ∧ dec 1 10 = 0.1)%float.
Proof. repeat split; vm_compute; reflexivity. Qed.

(** The table of [__init__] in binary64, literal by literal. *)
Lemma base_rates_binary64 (c : float) :
  base_rates (init c) =
  ({[ "startup_unicorn" := 0.00006;
      "new_product_success" := 0.05;
      "it_project_on_time" := 0.16;
      "ma_value_creation" := 0.30;
      "platform_network_effects" := 0.01;
      "behavior_change_scale" := 0.08;
      "regulatory_approval_new" := 0.22;
      "disruption_incumbent" := 0.03 ]}%float)%string.
Proof. vm_compute. reflexivity. Qed.

(** C6.  For a category of the table the adjustment is
    [base_rate * 0.7 + projection * 0.3], for any other it is
    [projection / 3]; ten millions for ["new_product_success"] give
    3000000.035. *)
Theorem adjust_for_base_rate_spec (self : analyzer float)
    (optimistic_projection : float) (scenario_category : string) :
  adjust_for_base_rate self optimistic_projection scenario_category =
    match base_rates self !! scenario_category with
    | Some base_rate => (base_rate * 0.7 + optimistic_projection * 0.3)%float
    | None => (optimistic_projection / 3)%float
    end
  ∧ base_rates (init 0.95%float) !! "new_product_success"%string = Some 0.05%float
  ∧ adjust_for_base_rate (init 0.95%float) (of_int 10000000)
                         "new_product_success" = 3000000.035%float.
Proof.
  split; [| split].
  - unfold adjust_for_base_rate. by destruct (base_rates self !! _).
  - vm_compute. reflexivity.
  - vm_compute. reflexivity.
Qed.

End Belief.

(** * numpy over the real numbers keeps its part *)

Module NumpyRealFacts.
Import Py Num RiskAnalyzer NumpyReal.

#[local] Instance Rle_transitive : Transitive Rle.
Proof. intros x y z. apply Rle_trans. Qed.

#[local] Instance Rle_total : Total Rle.
Proof. intros x y. destruct (Rle_dec x y); [by left | right; lra]. Qed.






End NumpyRealFacts.

(** * Properties of the simulation *)

Module Simulator.
Import Py Num RiskAnalyzer.

Section Generic.
Context {F G : Type} `{Numpy F G}.



End Generic.

(** ** Runs on the example streams *)

Import NumpyReal NumpyRealFacts.


Lemma sorted_singleton (x : R) : sorted [x] = [x].
Proof. reflexivity. Qed.

Lemma summary_singleton (x : R) :
  ∃ r, summary [x] 1 = Ret r ∧ worst_case r = x.
Proof.
  unfold summary. cbn [percentile np_min np_max example_numpy stream_numpy].
  unfold linear_percentile. rewrite sorted_singleton.
  cbn [amin amax fold_left mbind res_bind]. eauto.
Qed.

(** One draw around 10 with volatility 3/10 and no black swan, from the
    position [g]: the call returns, its only sample is the worst case, and
    the generator is left one position further. *)
Lemma example_invocation (g : nat) :
  ∃ r, monte_carlo_simulation 10%R (3 / 10)%R 1 false g = (Ret r, S g) ∧
       worst_case r = (10 + 10 * (3 / 10) * example_normal g)%R.
Proof.
  unfold monte_carlo_simulation.
  cbn [random_normal example_numpy stream_numpy mul np_arith exact].
  unfold normal.
  destruct (Rlt_dec (10 * (3 / 10)) 0) as [Hneg | _]; [lra |].
  change (1 <? 0) with false. change (Z.to_nat 1) with 1%nat.
  cbn [seq fmap list_fmap]. rewrite Nat.add_1_r.
  destruct (summary_singleton (10 + 10 * (3 / 10) * example_normal g)%R)
    as (r & Hr & Hw).
  exists r. by rewrite Hr.
Qed.

(** ** The order of the percentiles *)

#[local] Instance Rle_antisymmetric : AntiSymm eq Rle.
Proof. intros x y. apply Rle_antisym. Qed.






(** The function has no seed to be given and never seeds numpy: it reads the
    generator of the process and leaves it advanced.  Of two invocations with
    the same arguments the second starts where the first left the generator;
    on the example streams the first returns the worst case 7 and the second
    the worst case 10. *)
Lemma invocations_differ :
  ∃ r1 r2 g2,
    monte_carlo_simulation 10%R (3 / 10)%R 1 false 0%nat = (Ret r1, 1%nat) ∧
    monte_carlo_simulation 10%R (3 / 10)%R 1 false 1%nat = (Ret r2, g2) ∧
    worst_case r1 = 7%R ∧ worst_case r2 = 10%R.
Proof.
  destruct (example_invocation 0) as (r1 & Hr1 & Hw1).
  destruct (example_invocation 1) as (r2 & Hr2 & Hw2).
  exists r1, r2, 2%nat. repeat split; [done | done | |].
  - rewrite Hw1. unfold example_normal. simpl. lra.
  - rewrite Hw2. unfold example_normal. simpl. lra.
Qed.

End Simulator.

(** * The schedule that a call returns *)

Module Schedule.
Import Py OperationalCalculator CriticalPath SchedulerNotions.

#[local] Arguments dep_finishes : simpl never.

(** ** One step of the forward loop *)

Lemma relax_cases tm (st st' : list timed) (i : nat) (c : bool) :
  relax tm st i = Ret (st', c) →
  (st' = st ∧ c = false) ∨
  ∃ t m, st !! i = Some t ∧ dependencies (base t) ≠ [] ∧
         Py.max (dep_finishes tm st (dependencies (base t))) = Ret m ∧
         early_start t < m ∧ c = true ∧
         st' = <[i := {| base := base t; early_start := m;
                         early_finish := m + duration (base t) |}]> st.
Proof.
  unfold relax. destruct (st !! i) as [t|] eqn:Hi; [| intros [= <- <-]; by left].
  destruct (dependencies (base t)) as [|d ds] eqn:Hd; [intros [= <- <-]; by left |].
  destruct (Py.max _) as [m|e] eqn:Hm; [| done]. cbn.
  destruct (early_start t <? m) eqn:Hlt; intros [= <- <-]; [| by left].
  right. exists t, m. rewrite Hd. apply Z.ltb_lt in Hlt. by repeat split.
Qed.

Lemma quiet_spec tm (st : list timed) (i : nat) (t : timed) :
  st !! i = Some t →
  quiet tm st i ↔
  dependencies (base t) = [] ∨
  ∃ m, Py.max (dep_finishes tm st (dependencies (base t))) = Ret m ∧
       m ≤ early_start t.
Proof.
  intros Hi. unfold quiet, relax. rewrite Hi.
  destruct (dependencies (base t)) as [|d ds] eqn:Hd.
  { split; [by left | done]. }
  destruct (Py.max _) as [m|e] eqn:Hm; cbn.
  - destruct (early_start t <? m) eqn:Hlt.
    + apply Z.ltb_lt in Hlt. split; [done |].
      intros [? | (m' & [= <-] & Hle)]; [done | lia].
    + apply Z.ltb_ge in Hlt. split; [| done]. intros _. right. eauto.
  - split; [done |]. by intros [? | (m' & ? & _)].
Qed.

Lemma quiet_out_of_range tm (st : list timed) (i : nat) :
  st !! i = None → quiet tm st i.
Proof. intros Hi. unfold quiet, relax. by rewrite Hi. Qed.

(** ** Early times only grow *)

Lemma advances_refl (st : list timed) : advances st st.
Proof. apply Forall_Forall2_diag, Forall_forall. intros t _. repeat split; lia. Qed.

Lemma advances_trans (st1 st2 st3 : list timed) :
  advances st1 st2 → advances st2 st3 → advances st1 st3.
Proof.
  unfold advances. intros H12 H23.
  eapply Forall2_trans; [| exact H12 | exact H23].
  intros t1 t2 t3 (Hb & Hs & Hf) (Hb' & Hs' & Hf').
  repeat split; [congruence | lia | lia].
Qed.

Lemma relax_advances tm (st st' : list timed) (i : nat) (c : bool) :
  Forall consistent st →
  relax tm st i = Ret (st', c) → advances st st'.
Proof.
  intros Hc [[-> _] | (t & m & Hi & _ & _ & Hlt & _ & ->)]%relax_cases.
  - apply advances_refl.
  - rewrite <- (list_insert_id st i t) at 1 by done.
    apply Forall2_insert; [apply advances_refl |].
    eapply Forall_lookup_1 in Hc; [| exact Hi]. unfold consistent in Hc.
    cbn. repeat split; lia.
Qed.

Lemma sweep_advances tm (idx : list nat) :
  ∀ (st st' : list timed) (c c' : bool),
    Forall consistent st →
    sweep tm idx st c = Ret (st', c') → advances st st'.
Proof.
  induction idx as [|i r IH]; intros st st' c c' Hc; simpl.
  - intros [= <- <-]. apply advances_refl.
  - destruct (relax tm st i) as [[st1 c1]|e] eqn:Hr; [| done]. cbn.
    intros Hs. eapply advances_trans.
    + by eapply relax_advances.
    + eapply IH; [| exact Hs]. by eapply relax_Ret.
Qed.

Lemma forward_pass_advances tm (fuel : nat) :
  ∀ st st' : list timed,
    Forall consistent st →
    forward_pass fuel tm st = Some (Ret st') → advances st st'.
Proof.
  induction fuel as [|fuel IH]; intros st st' Hc; simpl; [done |].
  unfold sweep_all.
  destruct (sweep tm _ st false) as [[st1 [|]]|e] eqn:Hs; [| | done].
  - intros Hf. eapply advances_trans; [by eapply sweep_advances |].
    eapply IH; [| exact Hf]. by eapply sweep_Ret.
  - intros [= <-]. by eapply sweep_advances.
Qed.

(** ** The last sweep changes nothing *)

Lemma sweep_unchanged tm (idx : list nat) :
  ∀ (st st' : list timed) (c : bool),
    sweep tm idx st c = Ret (st', false) →
    st' = st ∧ c = false ∧ Forall (quiet tm st) idx.
Proof.
  induction idx as [|i r IH]; intros st st' c; simpl.
  - by intros [= <- <-].
  - destruct (relax tm st i) as [[st1 c1]|e] eqn:Hr; [| done]. cbn.
    intros (-> & Hcc & Hall)%IH.
    apply orb_false_elim in Hcc as [-> ->].
    pose proof Hr as [[-> _] | (t & m & _ & _ & _ & _ & ? & _)]%relax_cases;
      [| done].
    split; [done | split; [done | by constructor]].
Qed.

Lemma forward_pass_quiet tm (fuel : nat) :
  ∀ (st st' : list timed),
    forward_pass fuel tm st = Some (Ret st') → ∀ i, quiet tm st' i.
Proof.
  induction fuel as [|fuel IH]; intros st st'; simpl; [done |].
  unfold sweep_all.
  destruct (sweep tm _ st false) as [[st1 [|]]|e] eqn:Hs; [| | done].
  - apply IH.
  - intros [= <-] i. apply sweep_unchanged in Hs as (-> & _ & Hall).
    destruct (st !! i) as [t|] eqn:Hi; [| by apply quiet_out_of_range].
    eapply Forall_forall in Hall; [exact Hall |].
    apply elem_of_seq. apply lookup_lt_Some in Hi. lia.
Qed.

(** ** What the forward pass reads *)

Lemma dep_finishes_elem tm (st : list timed) (deps : list string) (x : Z) :
  x ∈ dep_finishes tm st deps ↔
  ∃ d j u, d ∈ deps ∧ tm !! d = Some j ∧ st !! j = Some u ∧ early_finish u = x.
Proof.
  unfold dep_finishes. rewrite list_elem_of_omap. split.
  - intros (d & Hd & Hx). destruct (tm !! d) as [j|] eqn:Hj; [| done].
    cbn in Hx. destruct (st !! j) as [u|] eqn:Hu; [| done].
    injection Hx as <-. eauto 10.
  - intros (d & j & u & Hd & Hj & Hu & <-). exists d. split; [done |].
    rewrite Hj. cbn. by rewrite Hu.
Qed.

Lemma dep_finishes_advances tm (st st' : list timed) (deps : list string) :
  advances st st' →
  Forall2 Z.le (dep_finishes tm st deps) (dep_finishes tm st' deps).
Proof.
  intros Hadv. unfold dep_finishes.
  induction deps as [|d ds IH]; [constructor |].
  cbn [omap list_omap]. destruct (tm !! d) as [j|]; [| exact IH]. cbn.
  pose proof (proj1 (Forall2_lookup _ _ _) Hadv j) as Hj.
  destruct Hj as [t t' (_ & _ & Hle) |]; cbn; [by constructor | exact IH].
Qed.

Lemma fold_max_le (r r' : list Z) :
  Forall2 Z.le r r' →
  ∀ x x', x ≤ x' → fold_left Z.max r x ≤ fold_left Z.max r' x'.
Proof. induction 1 as [|y y' r r' Hy _ IH]; intros x x' Hx; simpl; [done |]. apply IH. lia. Qed.

Lemma max_le (xs ys : list Z) (m : Z) :
  Forall2 Z.le xs ys → Py.max xs = Ret m →
  ∃ m', Py.max ys = Ret m' ∧ m ≤ m'.
Proof.
  destruct 1 as [|x y r r' Hxy Hr]; [done |]. intros [= <-].
  eexists. split; [done |]. by apply fold_max_le.
Qed.

(** ** No task is moved past its dependencies *)

Lemma relax_tight tm (st st' : list timed) (i : nat) (c : bool) :
  Forall consistent st → tight tm st →
  relax tm st i = Ret (st', c) → tight tm st'.
Proof.
  intros Hc Ht Hr. pose proof (relax_advances _ _ _ _ _ Hc Hr) as Hadv.
  apply relax_cases in Hr as [[-> _] | (t & m & Hi & _ & Hm & Hlt & _ & ->)];
    [done |].
  intros k tk Hk. destruct (decide (k = i)) as [-> | Hne].
  - rewrite list_lookup_insert_eq in Hk by by eapply lookup_lt_Some.
    injection Hk as <-. cbn. destruct (Ht i t Hi) as [H0 _].
    split; [lia |]. right.
    destruct (max_le _ _ _ (dep_finishes_advances tm _ _ _ Hadv) Hm)
      as (m' & Hm' & Hle). eauto.
  - rewrite list_lookup_insert_ne in Hk by done.
    destruct (Ht k tk Hk) as [H0 [Hz | (mk & Hmk & Hle)]]; [by split; [| left] |].
    split; [done |]. right.
    destruct (max_le _ _ _ (dep_finishes_advances tm _ _ _ Hadv) Hmk)
      as (m' & Hm' & Hle'). exists m'. split; [done | lia].
Qed.

Lemma sweep_tight tm (idx : list nat) :
  ∀ (st st' : list timed) (c c' : bool),
    Forall consistent st → tight tm st →
    sweep tm idx st c = Ret (st', c') → tight tm st'.
Proof.
  induction idx as [|i r IH]; intros st st' c c' Hc Ht; simpl.
  - by intros [= <- <-].
  - destruct (relax tm st i) as [[st1 c1]|e] eqn:Hr; [| done]. cbn.
    apply IH; [by eapply relax_Ret | by eapply relax_tight].
Qed.

Lemma forward_pass_tight tm (fuel : nat) :
  ∀ st st' : list timed,
    Forall consistent st → tight tm st →
    forward_pass fuel tm st = Some (Ret st') → tight tm st'.
Proof.
  induction fuel as [|fuel IH]; intros st st' Hc Ht; simpl; [done |].
  unfold sweep_all.
  destruct (sweep tm _ st false) as [[st1 [|]]|e] eqn:Hs; [| | done].
  - apply IH; [by eapply sweep_Ret | by eapply sweep_tight].
  - intros [= <-]. by eapply sweep_tight.
Qed.

Lemma init_early_tight tm (tasks : list task) : tight tm (init_early <$> tasks).
Proof.
  intros i t Hi. rewrite list_lookup_fmap in Hi.
  destruct (tasks !! i); [| done]. injection Hi as <-. cbn. split; [lia | by left].
Qed.

(** X1.  A returned schedule respects the dependencies: no task starts
    before a task it names has finished. *)
Theorem starts_after_dependencies (fuel : nat) (tasks : list task)
    (a : analysis) (final : list scheduled) :
  calculate_critical_path fuel tasks = Some (Ret (a, final)) →
  ∀ s d j u,
    s ∈ final → d ∈ dependencies (base (fwd s)) →
    task_map tasks !! d = Some j → final !! j = Some u →
    early_finish (fwd u) ≤ early_start (fwd s).
Proof.
  intros (st & pd & Hf & _ & -> & _ & _ & _)%calculate_critical_path_Ret
         s d j u Hs Hd Hj Hu.
  apply list_elem_of_fmap in Hs as (t & -> & [i Hi]%list_elem_of_lookup_1).
  rewrite list_lookup_fmap in Hu.
  destruct (st !! j) as [tu|] eqn:Htu; [| done]. injection Hu as <-. cbn in *.
  pose proof (forward_pass_quiet _ _ _ _ Hf i) as Hq.
  apply (quiet_spec _ _ _ _ Hi) in Hq as [Hnil | (m & Hm & Hle)].
  { rewrite Hnil in Hd. by apply elem_of_nil in Hd. }
  apply max_Ret in Hm as [_ Hall].
  eapply Forall_forall in Hall; [| apply dep_finishes_elem; eauto 10]. lia.
Qed.

Lemma starts_after_dependencies_witness :
  ∃ a final,
    calculate_critical_path 2 four_tasks = Some (Ret (a, final)) ∧
    ∀ s d j u,
      s ∈ final → d ∈ dependencies (base (fwd s)) →
      task_map four_tasks !! d = Some j → final !! j = Some u →
      early_finish (fwd u) ≤ early_start (fwd s).
Proof.
  eexists _, _. split; [vm_compute; reflexivity |].
  eapply (starts_after_dependencies 2 four_tasks). vm_compute. reflexivity.
Defined.

(** X2.  A returned schedule holds no idle time before a task: every task
    starts at 0 or at the very moment one of the tasks it names finishes. *)
Theorem starts_without_delay (fuel : nat) (tasks : list task)
    (a : analysis) (final : list scheduled) :
  calculate_critical_path fuel tasks = Some (Ret (a, final)) →
  ∀ s, s ∈ final →
    early_start (fwd s) = 0 ∨
    ∃ d j u,
      d ∈ dependencies (base (fwd s)) ∧
      task_map tasks !! d = Some j ∧ final !! j = Some u ∧
      early_start (fwd s) = early_finish (fwd u).
Proof.
  intros (st & pd & Hf & _ & -> & _ & _ & _)%calculate_critical_path_Ret s Hs.
  apply list_elem_of_fmap in Hs as (t & -> & [i Hi]%list_elem_of_lookup_1).
  cbn. pose proof (forward_pass_quiet _ _ _ _ Hf i) as Hq.
  pose proof (forward_pass_tight _ _ _ _ (init_early_consistent tasks)
                (init_early_tight _ tasks) Hf i t Hi) as [_ [Hz | (m & Hm & Hle)]];
    [by left |].
  apply (quiet_spec _ _ _ _ Hi) in Hq as [Hnil | (m' & Hm' & Hle')].
  { by rewrite Hnil in Hm. }
  rewrite Hm in Hm'. injection Hm' as <-. right.
  apply max_Ret in Hm as [(d & j & u & Hd & Hj & Hu & Hx)%dep_finishes_elem _].
  exists d, j, (finish pd u). repeat split; [done | done | |].
  - by rewrite list_lookup_fmap, Hu.
  - cbn. lia.
Qed.

Lemma starts_without_delay_witness :
  ∃ a final,
    calculate_critical_path 2 four_tasks = Some (Ret (a, final)) ∧
    ∀ s, s ∈ final →
      early_start (fwd s) = 0 ∨
      ∃ d j u,
        d ∈ dependencies (base (fwd s)) ∧
        task_map four_tasks !! d = Some j ∧ final !! j = Some u ∧
        early_start (fwd s) = early_finish (fwd u).
Proof.
  eexists _, _. split; [vm_compute; reflexivity |].
  eapply (starts_without_delay 2 four_tasks). vm_compute. reflexivity.
Defined.

(** X3.  In a returned schedule no task starts before time 0, every early
    finish is the early start plus the duration and lies within the project
    duration, and the slack of a task is the time from its early finish to the
    project duration: it is never negative. *)
Theorem slack_never_negative (fuel : nat) (tasks : list task)
    (a : analysis) (final : list scheduled) :
  calculate_critical_path fuel tasks = Some (Ret (a, final)) →
  Forall (λ s, 0 ≤ early_start (fwd s) ∧
               early_finish (fwd s) =
                 early_start (fwd s) + duration (base (fwd s)) ∧
               early_finish (fwd s) ≤ project_duration a ∧
               slack s = project_duration a - early_finish (fwd s) ∧
               0 ≤ slack s) final.
Proof.
  intros (st & pd & Hf & Hm & -> & -> & _ & Hc)%calculate_critical_path_Ret.
  pose proof (forward_pass_tight _ _ _ _ (init_early_consistent tasks)
                (init_early_tight _ tasks) Hf) as Ht.
  apply max_Ret in Hm as [_ Hall].
  apply Forall_fmap, Forall_lookup. intros i t Hi. cbn.
  destruct (Ht i t Hi) as [H0 _].
  pose proof (Forall_lookup_1 _ _ _ _ Hc Hi) as Hct. unfold consistent in Hct.
  assert (Hle : early_finish t ≤ pd).
  { eapply Forall_forall in Hall; [exact Hall |].
    apply list_elem_of_fmap. exists t. split; [done |].
    by eapply list_elem_of_lookup_2. }
  repeat split; lia.
Qed.

Lemma slack_never_negative_witness :
  ∃ a final,
    calculate_critical_path 2 four_tasks = Some (Ret (a, final)) ∧
    Forall (λ s, 0 ≤ early_start (fwd s) ∧
                 early_finish (fwd s) =
                   early_start (fwd s) + duration (base (fwd s)) ∧
                 early_finish (fwd s) ≤ project_duration a ∧
                 slack s = project_duration a - early_finish (fwd s) ∧
                 0 ≤ slack s) final.
Proof.
  eexists _, _. split; [vm_compute; reflexivity |].
  eapply (slack_never_negative 2 four_tasks). vm_compute. reflexivity.
Defined.

Lemma filter_positive_slack (final : list scheduled) :
  Forall (λ s, 0 ≤ slack s) final →
  filter (λ s, 0 < slack s) final = filter (λ s, ¬ slack s = 0) final.
Proof.
  induction 1 as [|s r Hs _ IH]; [done |]. rewrite !filter_cons, IH.
  destruct (decide (0 < slack s)), (decide (¬ slack s = 0)); (done || lia).
Qed.

(** X4.  The report of a returned call splits the tasks in two: every task
    is on the critical path or among the tasks with slack, and on one of the
    two only; [critical_path_length] counts the first. *)
Theorem critical_path_or_slack (fuel : nat) (tasks : list task)
    (a : analysis) (final : list scheduled) :
  calculate_critical_path fuel tasks = Some (Ret (a, final)) →
  critical_path a ++ tasks_with_slack a ≡ₚ name <$> tasks ∧
  critical_path_length a = length (critical_path a) ∧
  (critical_path_length a + length (tasks_with_slack a) = length tasks)%nat.
Proof.
  intros Hcall.
  pose proof Hcall as (st & pd & Hf & Hm & -> & -> & Hb & Hc)%calculate_critical_path_Ret.
  assert (Hpos : Forall (λ s, 0 ≤ slack s) (finish pd <$> st)).
  { pose proof (forward_pass_tight _ _ _ _ (init_early_consistent tasks)
                  (init_early_tight _ tasks) Hf) as Ht.
    apply max_Ret in Hm as [_ Hall].
    apply Forall_fmap, Forall_lookup. intros i t Hi. cbn.
    pose proof (Forall_lookup_1 _ _ _ _ Hc Hi) as Hct. unfold consistent in Hct.
    eapply Forall_forall in Hall;
      [| apply list_elem_of_fmap; exists t; split;
         [done | by eapply list_elem_of_lookup_2]].
    cbn in Hall. lia. }
  assert (Hperm : critical_path (summarise pd (finish pd <$> st)) ++
                  tasks_with_slack (summarise pd (finish pd <$> st)) ≡ₚ
                  name <$> tasks).
  { cbn. rewrite (filter_positive_slack _ Hpos), <- fmap_app.
    rewrite filter_app_complement, <- Hb, <- !list_fmap_compose.
    done. }
  split; [done |]. split; [done |].
  apply Permutation_length in Hperm.
  rewrite length_app, length_fmap in Hperm. exact Hperm.
Qed.

Lemma critical_path_or_slack_witness :
  ∃ a final,
    calculate_critical_path 2 four_tasks = Some (Ret (a, final)) ∧
    critical_path a ++ tasks_with_slack a ≡ₚ name <$> four_tasks ∧
    critical_path_length a = length (critical_path a) ∧
    (critical_path_length a + length (tasks_with_slack a) = length four_tasks)%nat.
Proof.
  eexists _, _. split; [vm_compute; reflexivity |].
  eapply (critical_path_or_slack 2 four_tasks). vm_compute. reflexivity.
Defined.

(** ** Names carried by several tasks *)

Lemma index_names_last (ts : list task) :
  ∀ (i : nat) (m : gmap string nat) (d : string) (j : nat),
    index_names i ts m !! d = Some j →
    ∀ k t, (j < i + k)%nat → ts !! k = Some t → name t ≠ d.
Proof.
  induction ts as [|t r IH]; intros i m d j H k t' Hk Ht'; [done |].
  cbn [index_names] in H. destruct k as [|k]; cbn in Ht'.
  - injection Ht' as <-. intros Heq.
    apply index_names_lookup in H as [H | (Hle & _)]; [| lia].
    rewrite <- Heq, lookup_insert_eq in H. injection H as <-. lia.
  - eapply (IH _ _ _ _ H k); [lia | done].
Qed.

(** X5.  When several tasks carry one name, a dependency on that name is a
    dependency on the last of them: the position that [task_map] holds for a
    name is that of a task with this name, and no later task has it. *)
Theorem duplicate_name_last_wins (tasks : list task) (d : string) (j : nat) :
  task_map tasks !! d = Some j →
  (∃ t, tasks !! j = Some t ∧ name t = d) ∧
  ∀ k t, (j < k)%nat → tasks !! k = Some t → name t ≠ d.
Proof.
  intros H. split; [by apply task_map_lookup |].
  intros k t Hk. by apply (index_names_last _ _ _ _ _ H).
Qed.

Lemma duplicate_name_last_wins_witness :
  task_map [ Task "A" 1 []; Task "A" 5 []; Task "B" 1 ["A"] ]%string
    !! "A"%string = Some 1%nat ∧
  ((∃ t, [ Task "A" 1 []; Task "A" 5 []; Task "B" 1 ["A"] ]%string !! 1%nat
         = Some t ∧ name t = "A"%string) ∧
   ∀ k t, (1 < k)%nat →
          [ Task "A" 1 []; Task "A" 5 []; Task "B" 1 ["A"] ]%string !! k
          = Some t → name t ≠ "A"%string).
Proof.
  assert (H : task_map [ Task "A" 1 []; Task "A" 5 []; Task "B" 1 ["A"] ]%string
                !! "A"%string = Some 1%nat) by (vm_compute; reflexivity).
  exact (conj H (duplicate_name_last_wins _ "A"%string 1%nat H)).
Defined.

(** ** Collections without a cycle

    A ranking of the positions under which every dependency that resolves
    leads to a smaller rank: the collection has no cycle. *)

Section Ranked.
Variable tasks : list task.
Variable rank : nat → nat.
Hypothesis Hrank :
  ∀ i t d j, tasks !! i = Some t → d ∈ dependencies t →
             task_map tasks !! d = Some j → (rank j < rank i)%nat.

Let tm := task_map tasks.

Lemma dep_finishes_insert_other (st : list timed) (k : nat) (x : timed)
    (deps : list string) :
  (∀ d, d ∈ deps → tm !! d ≠ Some k) →
  dep_finishes tm (<[k := x]> st) deps = dep_finishes tm st deps.
Proof.
  unfold dep_finishes. induction deps as [|d ds IH]; intros Hk; [done |].
  cbn [omap list_omap]. rewrite IH by (intros d' Hd'; apply Hk; by right).
  destruct (tm !! d) as [j|] eqn:Hj; [| done]. cbn.
  rewrite list_lookup_insert_ne; [done |].
  intros ->. by apply (Hk d); [left |].
Qed.

Lemma quiet_frame (st : list timed) (i k : nat) (x : timed) :
  base <$> st = tasks → quiet tm st i → i ≠ k → (rank i ≤ rank k)%nat →
  quiet tm (<[k := x]> st) i.
Proof using Hrank.
  intros Hb Hq Hne Hle.
  destruct (st !! i) as [t|] eqn:Hi.
  - assert (Hi' : <[k := x]> st !! i = Some t)
      by by rewrite list_lookup_insert_ne.
    apply (quiet_spec _ _ _ _ Hi'). apply (quiet_spec _ _ _ _ Hi) in Hq.
    rewrite dep_finishes_insert_other; [done |].
    intros d Hd Hj.
    assert (Ht : tasks !! i = Some (base t))
      by by rewrite <- Hb, list_lookup_fmap, Hi.
    pose proof (Hrank _ _ _ _ Ht Hd Hj). lia.
  - apply quiet_out_of_range. by rewrite list_lookup_insert_ne.
Qed.

Lemma relax_settles (st st' : list timed) (k : nat) (c : bool) :
  base <$> st = tasks → relax tm st k = Ret (st', c) → quiet tm st' k.
Proof using Hrank.
  intros Hb Hr.
  pose proof Hr as [[-> ->] | (t & m & Hk & _ & Hm & _ & _ & ->)]%relax_cases;
    [exact Hr |].
  assert (Hlen : (k < length st)%nat) by by eapply lookup_lt_Some.
  eapply quiet_spec; [by apply list_lookup_insert_eq |]. cbn. right.
  exists m. split; [| lia].
  rewrite dep_finishes_insert_other; [done |].
  intros d Hd Hj.
  assert (Ht : tasks !! k = Some (base t))
    by by rewrite <- Hb, list_lookup_fmap, Hk.
  pose proof (Hrank _ _ _ _ Ht Hd Hj). lia.
Qed.

(** A sweep that starts with the ranks below [s] at rest leaves the ranks
    up to [s] at rest. *)
Lemma sweep_settles (s : nat) (idx : list nat) :
  ∀ (st : list timed) (c : bool) (D : nat → Prop),
    base <$> st = tasks →
    (∀ i, (rank i < s)%nat ∨ (rank i = s ∧ D i) → quiet tm st i) →
    match sweep tm idx st c with
    | Raise _ => True
    | Ret (st', _) =>
        base <$> st' = tasks ∧
        ∀ i, (rank i < s)%nat ∨ (rank i = s ∧ (D i ∨ i ∈ idx)) →
             quiet tm st' i
    end.
Proof using Hrank.
  induction idx as [|k r IH]; intros st c D Hb Hq; cbn [sweep].
  - split; [done |]. intros i [? | [? [? | Hin]]]; [by apply Hq; left | by apply Hq; right |].
    by apply elem_of_nil in Hin.
  - destruct (relax tm st k) as [[st1 c1]|e] eqn:Hr; [| done]. cbn.
    assert (Hb1 : base <$> st1 = tasks) by (apply relax_Ret in Hr as [-> _]; done).
    specialize (IH st1 (c || c1) (λ i, D i ∨ i = k) Hb1).
    destruct (sweep tm r st1 (c || c1)) as [[st2 c2]|e]; [| done].
    assert (Hq1 : ∀ i, (rank i < s)%nat ∨ (rank i = s ∧ (D i ∨ i = k)) →
                       quiet tm st1 i).
    { intros i Hi. destruct (decide (i = k)) as [-> | Hne].
      { exact (relax_settles _ _ _ _ Hb Hr). }
      assert (Hold : quiet tm st i).
      { apply Hq. destruct Hi as [? | [? [? | ?]]]; [by left | by right | done]. }
      pose proof Hr as [[-> _] | (t & m & Hk & _ & _ & _ & Hc & ->)]%relax_cases;
        [done |].
      apply quiet_frame; [done | done | done |].
      destruct (decide (rank k < s)%nat) as [Hlt | Hge].
      - assert (Hqk : quiet tm st k) by (apply Hq; by left).
        unfold quiet in Hqk. rewrite Hr in Hqk. by subst c1.
      - destruct Hi as [? | [? _]]; lia. }
    destruct (IH Hq1) as [Hb2 Hq2]. split; [done |].
    intros i [? | [? [? | Hin]]]; apply Hq2; [by left | right; auto | right].
    split; [done |]. apply elem_of_cons in Hin as [-> | ?]; auto.
Qed.

Lemma sweep_at_rest (idx : list nat) (st : list timed) (c : bool) :
  (∀ i, quiet tm st i) → sweep tm idx st c = Ret (st, c).
Proof.
  intros Hq. revert c. induction idx as [|k r IH]; intros c; cbn [sweep]; [done |].
  rewrite (Hq k). cbn. rewrite IH. by rewrite orb_false_r.
Qed.

Variable bound : nat.
Hypothesis Hbound : ∀ i, (i < length tasks)%nat → (rank i < bound)%nat.

Lemma forward_pass_ends (fuel : nat) :
  ∀ (s : nat) (st : list timed),
    base <$> st = tasks →
    (∀ i, (rank i < s)%nat → quiet tm st i) →
    (bound ≤ fuel + s)%nat →
    is_Some (forward_pass (S fuel) tm st).
Proof using Hrank Hbound.
  induction fuel as [|fuel IH]; intros s st Hb Hq Hle.
  - cbn [forward_pass]. unfold sweep_all.
    rewrite sweep_at_rest; [done |].
    intros i. destruct (st !! i) as [t|] eqn:Hi; [| by apply quiet_out_of_range].
    apply Hq. apply lookup_lt_Some in Hi.
    rewrite <- Hb, length_fmap in Hbound. specialize (Hbound i Hi). lia.
  - change (forward_pass (S (S fuel)) tm st) with
      (match sweep_all tm st with
       | Raise e => Some (Raise e)
       | Ret (st', true) => forward_pass (S fuel) tm st'
       | Ret (st', false) => Some (Ret st')
       end).
    unfold sweep_all.
    pose proof (sweep_settles s (seq 0 (length st)) st false (λ _, False) Hb) as Hs.
    destruct (sweep tm _ st false) as [[st' [|]]|e]; [| done | done].
    destruct Hs as [Hb' Hq'].
    { intros i [? | [_ []]]. by apply Hq. }
    apply (IH (S s)); [done | | lia].
    intros i Hi. destruct (st' !! i) as [t|] eqn:Hi'; [| by apply quiet_out_of_range].
    apply Hq'. destruct (decide (rank i < s)%nat); [by left | right].
    split; [lia |]. right. apply elem_of_seq.
    apply lookup_lt_Some in Hi'.
    assert (length st' = length st)
      by (rewrite <- (length_fmap base st'), Hb', <- Hb, length_fmap; done).
    lia.
Qed.

End Ranked.

(** X6.  On a collection without a cycle the call ends.  When the positions
    can be ranked below [bound] so that every dependency that resolves leads
    to a smaller rank, [bound + 1] sweeps of the forward loop are enough for
    the call to return or raise; and it returns a schedule when, besides, the
    collection is not empty and every task with dependencies names at least
    one task. *)
Theorem acyclic_collection_ends (tasks : list task) (rank : nat → nat)
    (bound fuel : nat) :
  (∀ i t d j, tasks !! i = Some t → d ∈ dependencies t →
              task_map tasks !! d = Some j → (rank j < rank i)%nat) →
  (∀ i, (i < length tasks)%nat → (rank i < bound)%nat) →
  (bound < fuel)%nat →
  is_Some (calculate_critical_path fuel tasks) ∧
  (tasks ≠ [] →
   Forall (λ t, anchored (task_map tasks) t = true) tasks →
   ∃ a final, calculate_critical_path fuel tasks = Some (Ret (a, final))).
Proof.
  intros Hrank Hbound Hfuel.
  destruct fuel as [|fuel]; [lia |].
  destruct (forward_pass_ends tasks rank Hrank bound Hbound fuel 0
              (init_early <$> tasks)) as [out Hout].
  { apply init_early_base. }
  { intros i Hi. lia. }
  { lia. }
  unfold calculate_critical_path. rewrite Hout. cbn. split; [done |].
  intros Hne Hanch. destruct out as [st|e].
  - cbn. destruct (Py.max _) as [pd|e] eqn:Hm; cbn; [eauto |].
    apply max_Raise, fmap_nil_inv in Hm. subst st.
    apply forward_pass_Ret in Hout as [Hb _].
    rewrite init_early_base in Hb. by subst tasks.
  - by apply forward_pass_no_raise in Hout; [| | apply init_early_base].
Qed.

Lemma acyclic_collection_ends_witness :
  ∃ a final, calculate_critical_path 5 four_tasks = Some (Ret (a, final)).
Proof.
  refine (proj2 (acyclic_collection_ends four_tasks (λ i, i) 4 5 _ _ _) _ _).
  - intros i t d j Hi Hd Hj.
    do 4 (destruct i as [|i]; [injection Hi as <-; cbn in Hd;
      repeat (apply elem_of_cons in Hd as [-> | Hd]);
      try (by apply elem_of_nil in Hd);
      vm_compute in Hj; injection Hj as <-; lia |]).
    done.
  - intros i Hi. cbn in Hi. lia.
  - lia.
  - done.
  - repeat constructor.
Defined.

(** ** Cycles *)

(** Among finitely many positions one has the least value. *)
Lemma least_position (f : nat → Z) (l : list nat) :
  l ≠ [] → ∃ i, i ∈ l ∧ ∀ j, j ∈ l → f i ≤ f j.
Proof.
  induction l as [|k l IH]; [done |]. intros _.
  destruct l as [|k' l'].
  - exists k. split; [by left |]. intros j ->%list_elem_of_singleton. lia.
  - destruct IH as (i & Hi & Hmin); [done |].
    destruct (Z_le_gt_dec (f k) (f i)) as [Hle | Hgt].
    + exists k. split; [by left |].
      intros j [-> | Hj]%elem_of_cons; [lia |]. specialize (Hmin j Hj). lia.
    + exists i. split; [by right |].
      intros j [-> | Hj]%elem_of_cons; [lia | by apply Hmin].
Qed.

Lemma waits_within_spec (tasks : list task) (cycle : list nat) (i : nat) :
  waits_within tasks cycle i = true →
  ∃ t d j, tasks !! i = Some t ∧ 0 < duration t ∧ d ∈ dependencies t ∧
           task_map tasks !! d = Some j ∧ j ∈ cycle.
Proof.
  unfold waits_within. destruct (tasks !! i) as [t|]; [| done].
  intros [Hd (d & Hin & Hj)%existsb_exists]%andb_prop.
  destruct (task_map tasks !! d) as [j|] eqn:Hm; [| done].
  apply bool_decide_eq_true in Hj. apply Z.ltb_lt in Hd.
  exists t, d, j. repeat split; try done. by apply list_elem_of_In.
Qed.

(** C2.  A dependency cycle is not detected, and the call on it never
    returns: when the tasks at the positions [cycle] all take time and each
    names a task at one of these positions, no number of sweeps of the forward
    loop ends in a schedule; and when, besides, every task with dependencies
    names at least one task of the collection, the call does not raise
    either: the loop runs on for ever. *)
Theorem cycle_never_settles (tasks : list task) (cycle : list nat) :
  cycle ≠ [] →
  forallb (waits_within tasks cycle) cycle = true →
  (∀ fuel a final, calculate_critical_path fuel tasks ≠ Some (Ret (a, final))) ∧
  (Forall (λ t, anchored (task_map tasks) t = true) tasks →
   ∀ fuel, calculate_critical_path fuel tasks = None).
Proof.
  intros Hne Hcyc.
  assert (Hall : ∀ i, i ∈ cycle → waits_within tasks cycle i = true).
  { intros i Hi. eapply forallb_forall in Hcyc; [exact Hcyc |].
    by apply list_elem_of_In. }
  assert (Hnever : ∀ fuel a final,
             calculate_critical_path fuel tasks ≠ Some (Ret (a, final))).
  { intros fuel a final
      (st & pd & Hf & _ & _ & _ & Hb & Hc)%calculate_critical_path_Ret.
    pose proof (forward_pass_quiet _ _ _ _ Hf) as Hq.
    set (start := λ k, match st !! k with Some t => early_start t | None => 0 end).
    destruct (least_position start cycle Hne) as (i & Hi & Hmin).
    destruct (waits_within_spec _ _ _ (Hall i Hi)) as (t & d & j & Ht & _ & Hd & Hj & Hjc).
    destruct (waits_within_spec _ _ _ (Hall j Hjc)) as (t' & _ & _ & Ht' & Hpos & _).
    rewrite <- Hb, list_lookup_fmap in Ht, Ht'.
    destruct (st !! i) as [ti|] eqn:Hti; [| done]. injection Ht as <-.
    destruct (st !! j) as [tj|] eqn:Htj; [| done]. injection Ht' as <-.
    apply (quiet_spec _ _ _ _ Hti) in Hq as [Hnil | (m & Hm & Hle)].
    { rewrite Hnil in Hd. by apply elem_of_nil in Hd. }
    apply max_Ret in Hm as [_ Hm].
    eapply Forall_forall in Hm; [| apply dep_finishes_elem; eauto 10].
    eapply Forall_lookup_1 in Hc; [| exact Htj]. unfold consistent in Hc.
    specialize (Hmin j Hjc). unfold start in Hmin. rewrite Hti, Htj in Hmin. lia. }
  split; [exact Hnever |].
  intros Hanch fuel.
  destruct (calculate_critical_path fuel tasks) as [[[a final]|e]|] eqn:Hcall;
    [by apply Hnever in Hcall | | done].
  exfalso. eapply no_cycle_failure; [| exact Hanch | exact Hcall].
  intros ->. destruct cycle as [|i r]; [done |].
  destruct (waits_within_spec [] (i :: r) i) as (t & _ & _ & Ht & _); [| done].
  apply Hall. by left.
Qed.

Lemma cycle_never_settles_witness :
  [0; 1]%nat ≠ [] ∧
  forallb (waits_within (two_cycle 1 1) [0; 1]%nat) [0; 1]%nat = true ∧
  Forall (λ t, anchored (task_map (two_cycle 1 1)) t = true) (two_cycle 1 1) ∧
  ∀ fuel, calculate_critical_path fuel (two_cycle 1 1) = None.
Proof.
  assert (H1 : [0; 1]%nat ≠ []) by done.
  assert (H2 : forallb (waits_within (two_cycle 1 1) [0; 1]%nat) [0; 1]%nat = true)
    by (vm_compute; reflexivity).
  assert (H3 : Forall (λ t, anchored (task_map (two_cycle 1 1)) t = true)
                      (two_cycle 1 1)) by repeat constructor.
  exact (conj H1 (conj H2 (conj H3
           (proj2 (cycle_never_settles (two_cycle 1 1) [0; 1]%nat H1 H2) H3)))).
Defined.

End Schedule.

(** * Properties of the runway *)

Module Runway.
Import Num PyExn Operations.

Section Generic.
Context {T : Type} `{Arith T}.
Variables monthly_burn revenue_growth_rate : T.

(** A state between two rounds of the loop: no break has happened. *)
Lemma runway_loop_shape (fuel : nat) :
  ∀ s : runway_state T,
    (months s ≤ 60)%nat →
    month <$> all_projections s = seq 0 (months s) →
    (last_net_burn s = None ∨
     ∃ nb, last_net_burn s = Some nb ∧ leb nb (of_int 0) = false) →
    let s' := runway_loop fuel monthly_burn revenue_growth_rate s in
    (months s' ≤ 60)%nat ∧
    ((last_net_burn s' = None ∧ s' = s) ∨
     ∃ nb, last_net_burn s' = Some nb ∧
           month <$> all_projections s' =
           seq 0 (months s' + if leb nb (of_int 0) then 1 else 0)).
Proof.
  induction fuel as [|fuel IH]; intros s Hm Hp Hl; cbn [runway_loop].
  - split; [done |]. destruct Hl as [Hn | (nb & Hn & Hb)]; [by left | right].
    exists nb. by rewrite Hb, Nat.add_0_r.
  - destruct (ltb (of_int 0) (remaining_cash s) && (months s <? 60)%nat) eqn:Hc.
    + apply andb_prop in Hc as [_ Hlt%Nat.ltb_lt].
      destruct (leb (sub monthly_burn (current_revenue s)) (of_int 0)) eqn:Hb.
      * cbn. split; [done |]. right. eexists. split; [done |].
        rewrite Hb, fmap_app, Hp, Nat.add_1_r, seq_S. done.
      * match goal with |- context [runway_loop fuel _ _ ?s1] =>
          destruct (IH s1) as [Hm' [[Hn' Heq] | Hr]] end;
          cbn [months all_projections last_net_burn]; [lia | | eauto | |].
        -- rewrite fmap_app, Hp, seq_S. done.
        -- rewrite Heq in Hn'. done.
        -- split; [done |]. by right.
    + split; [done |]. destruct Hl as [Hn | (nb & Hn & Hb)]; [by left | right].
      exists nb. by rewrite Hb, Nat.add_0_r.
Qed.

(** The loop is not entered when its condition fails. *)
Lemma runway_loop_exit (fuel : nat) (s : runway_state T) :
  ltb (of_int 0) (remaining_cash s) && (months s <? 60)%nat = false →
  runway_loop fuel monthly_burn revenue_growth_rate s = s.
Proof. intros Hc. destruct fuel; cbn [runway_loop]; [done |]. by rewrite Hc. Qed.

Lemma runway_loop_enter (fuel : nat) (s : runway_state T) :
  ltb (of_int 0) (remaining_cash s) = true → (months s < 60)%nat →
  leb (sub monthly_burn (current_revenue s)) (of_int 0) = false →
  runway_loop (S fuel) monthly_burn revenue_growth_rate s =
  runway_loop fuel monthly_burn revenue_growth_rate
    {| months := S (months s);
       remaining_cash :=
         sub (remaining_cash s) (sub monthly_burn (current_revenue s));
       current_revenue :=
         mul (current_revenue s) (add (of_int 1) revenue_growth_rate);
       all_projections :=
         all_projections s ++
         [ {| month := months s;
              cash := sub (remaining_cash s)
                          (sub monthly_burn (current_revenue s));
              revenue := current_revenue s;
              net_burn := sub monthly_burn (current_revenue s) |} ];
       last_net_burn := Some (sub monthly_burn (current_revenue s)) |}.
Proof.
  intros Hc Hm Hb. cbn [runway_loop].
  rewrite Hc, (proj2 (Nat.ltb_lt _ _) Hm), Hb. done.
Qed.

End Generic.

#[local] Arguments runway_loop : simpl never.

(** X7.  Without cash the call fails: when [cash > 0] does not hold the loop
    body never runs, [net_burn] is never bound, and reading it after the loop
    raises [UnboundLocalError]. *)
Theorem runway_without_cash_raises {T : Type} `{Arith T}
    (cash monthly_burn monthly_revenue revenue_growth_rate : T) :
  ltb (of_int 0) cash = false →
  calculate_runway cash monthly_burn monthly_revenue revenue_growth_rate =
  Raises UnboundLocalError.
Proof.
  intros Hc. unfold calculate_runway.
  rewrite runway_loop_exit; [done |]. cbn [remaining_cash]. by rewrite Hc.
Qed.

Lemma runway_without_cash_raises_witness :
  calculate_runway (T := float) 0%float 50000%float 20000%float 0.15%float =
  Raises UnboundLocalError.
Proof.
  apply (runway_without_cash_raises (T := float)). vm_compute. reflexivity.
Defined.

(** X8.  The shape of every report: at most 60 months of runway; the
    projections are those of the months 0, 1, 2, ... of the loop, one more
    than [runway_months] when the company is default alive, cut after 24; the
    break-even month is the runway when the company is default alive, and
    both break-even entries are [None] when it is not. *)
Theorem runway_report_shape {T : Type} `{Arith T}
    (cash monthly_burn monthly_revenue revenue_growth_rate : T) (r : runway T) :
  calculate_runway cash monthly_burn monthly_revenue revenue_growth_rate =
    Returns r →
  (runway_months r ≤ 60)%nat ∧
  month <$> projections r =
    seq 0 (Nat.min 24 (runway_months r + if default_alive r then 1 else 0)) ∧
  break_even_month r =
    (if default_alive r then Some (runway_months r) else None) ∧
  (cash_at_break_even r = None ↔ default_alive r = false).
Proof.
  unfold calculate_runway.
  pose proof (runway_loop_shape monthly_burn revenue_growth_rate 60
                {| months := 0; remaining_cash := cash;
                   current_revenue := monthly_revenue;
                   all_projections := []; last_net_burn := None |}
                ltac:(cbn; lia) ltac:(done) ltac:(by left)) as [Hm Hs].
  cbv zeta in Hm, Hs.
  destruct (last_net_burn (runway_loop 60 _ _ _)) as [nb|] eqn:Hl; [| done].
  intros [= <-].
  cbn [runway_months default_alive break_even_month cash_at_break_even
       projections].
  destruct Hs as [[? _] | (nb' & [= <-] & Hp)]; [done |].
  split; [done |]. split.
  - rewrite fmap_take, Hp, take_seq. done.
  - split; [done |]. by destruct (leb nb (of_int 0)).
Qed.

Lemma runway_report_shape_witness :
  ∃ r, calculate_runway (T := float) 2000000%float 93000%float 20000%float 0.15%float = Returns r ∧
       (runway_months r ≤ 60)%nat ∧
       month <$> projections r =
         seq 0 (Nat.min 24 (runway_months r + if default_alive r then 1 else 0)) ∧
       break_even_month r =
         (if default_alive r then Some (runway_months r) else None) ∧
       (cash_at_break_even r = None ↔ default_alive r = false).
Proof.
  eexists. split; [vm_compute; reflexivity |].
  apply (runway_report_shape (T := float) 2000000%float 93000%float 20000%float 0.15%float).
  vm_compute. reflexivity.
Defined.

End Runway.

(** * Properties of the burn rate *)

Module BurnRate.
Import Num PyExn Operations.

(** X10.  The only failure of [calculate_burn_rate], for counts that convert
    to the arithmetic (machine-size ints), is a division by zero, and it
    happens exactly when the headcount dict is not empty and its counts add up
    to 0; a role without a salary raises nothing. *)
Theorem burn_rate_failure {T : Type} `{Arith T} (fsum : list T → T)
    (self : calculator T) (headcount : list (string * Z))
    (salaries : gmap string T) (other_expenses : list (string * T))
    (e : exception) :
  Forall (λ item : string * Z, - 2 ^ 63 < item.2 < 2 ^ 63) headcount →
  - 2 ^ 63 < Py.sum (snd <$> headcount) < 2 ^ 63 →
  calculate_burn_rate fsum self headcount salaries other_expenses = Raises e ↔
  e = ZeroDivisionError ∧ headcount ≠ [] ∧ Py.sum (snd <$> headcount) = 0.
Proof.
  intros _ _.
  unfold calculate_burn_rate. destruct headcount as [|item rest].
  - cbn. split; [done | by intros (_ & ? & _)].
  - unfold truediv_int.
    destruct (Py.sum (snd <$> item :: rest) =? 0) eqn:Hz; cbn.
    + apply Z.eqb_eq in Hz. split; [by intros [= <-] | by intros (-> & _)].
    + apply Z.eqb_neq in Hz. split; [done | by intros (_ & _ & ?)].
Qed.

Lemma burn_rate_failure_witness :
  calculate_burn_rate (T := R) NumpyReal.total init
    [("engineer"%string, 0%Z)] {[ "engineer"%string := 150000%R ]} []
  = Raises ZeroDivisionError.
Proof.
  apply (burn_rate_failure (T := R)).
  - repeat constructor; cbn; lia.
  - cbn. lia.
  - done.
Defined.

Section Payroll.
Context {T : Type} `{Arith T}.
Variable self : calculator T.
Variable salaries : gmap string T.

Lemma fold_add_role_salaried (headcount : list (string * Z)) :
  ∀ acc : T,
    fold_left (add_role self salaries)
              (filter (λ item, is_Some (salaries !! item.1)) headcount) acc =
    fold_left (add_role self salaries) headcount acc.
Proof.
  induction headcount as [|[role count] rest IH]; intros acc; [done |].
  rewrite filter_cons. cbn [fst]. destruct (decide (is_Some (salaries !! role)))
    as [Hs | Hn].
  - cbn [fold_left]. apply IH.
  - cbn [fold_left]. rewrite IH. f_equal. unfold add_role.
    destruct (salaries !! role); [| done]. by destruct Hn.
Qed.

End Payroll.

(** X11.  A role that has no salary adds nothing to the payroll.  When the
    call returns, the call on the headcount without these roles returns the
    same salaries and the same burn, unless the counts that remain add up to
    0: then that call divides by zero, while the full call has returned.  The
    heads of the roles without a salary still count where the salaries are
    divided by the headcount. *)
Theorem unsalaried_roles_ignored {T : Type} `{Arith T} (fsum : list T → T)
    (self : calculator T) (headcount : list (string * Z))
    (salaries : gmap string T) (other_expenses : list (string * T))
    (r : burn T) :
  calculate_burn_rate fsum self headcount salaries other_expenses = Returns r →
  (headcount ≠ [] →
   cost_per_employee r =
   div (monthly_salaries r) (of_int (Py.sum (snd <$> headcount)))) ∧
  let salaried := filter (λ item, is_Some (salaries !! item.1)) headcount in
  match calculate_burn_rate fsum self salaried salaries other_expenses with
  | Returns r' =>
      monthly_salaries r = monthly_salaries r' ∧
      total_monthly_burn r = total_monthly_burn r' ∧
      annual_burn r = annual_burn r' ∧
      daily_burn r = daily_burn r'
  | Raises e =>
      e = ZeroDivisionError ∧ salaried ≠ [] ∧ Py.sum (snd <$> salaried) = 0
  end.
Proof.
  intros Hr. split.
  - unfold calculate_burn_rate in Hr. destruct headcount as [|item rest]; [done |].
    intros _. unfold truediv_int in Hr.
    destruct (Py.sum (snd <$> item :: rest) =? 0); [done |].
    by injection Hr as <-.
  - intros salaried.
    pose proof (fold_add_role_salaried self salaries headcount (of_int 0))
      as Hfold.
    fold salaried in Hfold. unfold calculate_burn_rate. rewrite Hfold.
    assert (Hm : monthly_salaries r =
                 fold_left (add_role self salaries) headcount (of_int 0) ∧
                 total_monthly_burn r =
                 add (fold_left (add_role self salaries) headcount (of_int 0))
                     (fsum (snd <$> other_expenses)) ∧
                 annual_burn r =
                 mul (add (fold_left (add_role self salaries) headcount (of_int 0))
                          (fsum (snd <$> other_expenses))) (of_int 12) ∧
                 daily_burn r =
                 div (add (fold_left (add_role self salaries) headcount (of_int 0))
                          (fsum (snd <$> other_expenses))) (of_int 30)).
    { unfold calculate_burn_rate in Hr.
      destruct (match headcount with [] => _ | _ => _ end) as [c|]; [| done].
      by injection Hr as <-. }
    destruct Hm as (-> & -> & -> & ->).
    clearbody salaried. destruct salaried as [|item rest]; [by cbn |].
    unfold truediv_int. destruct (Py.sum (snd <$> item :: rest) =? 0) eqn:Hz.
    + apply Z.eqb_eq in Hz. by cbn.
    + by cbn.
Qed.

Lemma unsalaried_roles_ignored_witness :
  ∃ r,
    calculate_burn_rate (T := R) NumpyReal.total init
      [("engineer"%string, 0%Z); ("intern"%string, 2%Z)]
      {[ "engineer"%string := 150000%R ]} [] = Returns r ∧
    cost_per_employee r = (monthly_salaries r / 2)%R ∧
    calculate_burn_rate (T := R) NumpyReal.total init
      [("engineer"%string, 0%Z)]
      {[ "engineer"%string := 150000%R ]} [] = Raises ZeroDivisionError.
Proof.
  eexists. split; [reflexivity |].
  pose proof (unsalaried_roles_ignored (T := R) NumpyReal.total init
                [("engineer"%string, 0%Z); ("intern"%string, 2%Z)]
                {[ "engineer"%string := 150000%R ]} [] _ eq_refl)
    as [H1 _].
  split; [exact (H1 ltac:(done)) | reflexivity].
Defined.

End BurnRate.

(** * Comparisons of binary64 with zero and infinity *)

Module FloatOrder.
Import Num Binary64.

Lemma Prim2SF_infinity : Prim2SF infinity = S754_infinity false.
Proof. vm_compute. reflexivity. Qed.

(** A float above 0 does not compare equal to 0. *)
Lemma positive_nonzero (x : float) :
  PrimFloat.ltb 0 x = true → PrimFloat.eqb x 0 = false.
Proof.
  rewrite FloatAxioms.ltb_spec, FloatAxioms.eqb_spec, Prim2SF_0.
  unfold SFltb, SFeqb, SFcompare.
  destruct (Prim2SF x) as [s|s| |s m e]; try done; by destruct s.
Qed.

(** [0.0 * x] is a zero or a NaN: it is never above 0. *)
Lemma zero_product_not_positive (x : float) :
  PrimFloat.ltb 0 (PrimFloat.mul 0 x) = false.
Proof.
  rewrite FloatAxioms.ltb_spec, FloatAxioms.mul_spec, Prim2SF_0.
  unfold SF64mul, SFmul, SFltb, SFcompare.
  destruct (Prim2SF x) as [s|s| |s m e]; try done; by destruct s.
Qed.

(** A float that compares equal to infinity does not compare equal
    to 0. *)
Lemma infinite_nonzero (x : float) :
  PrimFloat.eqb x infinity = true → PrimFloat.eqb x 0 = false.
Proof.
  rewrite !FloatAxioms.eqb_spec, Prim2SF_0, Prim2SF_infinity.
  unfold SFeqb, SFcompare.
  destruct (Prim2SF x) as [s|s| |s m e]; try done; by destruct s.
Qed.

Lemma truediv_positive (x y : float) :
  PrimFloat.ltb 0 y = true →
  Operations.truediv x y = PyExn.Returns (PrimFloat.div x y).
Proof.
  intros Hy. unfold Operations.truediv. cbn [eqb div of_int binary64].
  change (float_of_int 0) with 0%float. by rewrite positive_nonzero.
Qed.

End FloatOrder.

(** * Properties of the unit economics and of build versus buy *)

Module UnitEconomics.
Import Num PyExn Operations FloatOrder.

(** A division that is guarded by [y > 0] returns. *)
Lemma guarded_division_returns (x y : float) :
  ∃ q, (if ltb (of_int 0) y then truediv x y else Returns infinity) = Returns q.
Proof.
  destruct (ltb (of_int 0) y) eqn:Hy; [| eauto].
  rewrite truediv_positive by exact Hy. eauto.
Qed.

(** The dict that the call returns when [monthly_churn > 0] does not
    hold. *)
Lemma without_churn (cac ltv gross_margin monthly_churn : float) :
  ltb (of_int 0) monthly_churn = false →
  ∃ q, calculate_unit_economics infinity cac ltv gross_margin monthly_churn
       = Returns {| ltv := ltv; cac := cac; ltv_cac_ratio := q;
                    customer_lifetime_months := infinity;
                    cac_payback_months := infinity;
                    gross_margin := gross_margin;
                    monthly_churn := monthly_churn;
                    healthy := ltb (of_int 3) q &&
                               ltb infinity (of_int 12) |}.
Proof.
  intros Hc. unfold calculate_unit_economics. rewrite Hc.
  cbn [mbind outcome_bind].
  destruct (guarded_division_returns ltv cac) as [q ->].
  cbn [mbind outcome_bind].
  change (eqb infinity infinity) with true. cbn [negb mbind outcome_bind].
  cbn [ltb mul of_int binary64]. change (float_of_int 0) with 0%float.
  rewrite zero_product_not_positive. cbn [mbind outcome_bind]. eauto.
Qed.

(** X13.  Without churn the unit economics are never healthy, in binary64:
    when [monthly_churn > 0] does not hold, the customer lifetime and the CAC
    payback are both infinite, so [healthy] is [False], whatever the other
    arguments are; and the call raises nothing. *)
Theorem no_churn_is_unhealthy (cac ltv gross_margin monthly_churn : float) :
  ltb (of_int 0) monthly_churn = false →
  ∃ r, calculate_unit_economics infinity cac ltv gross_margin monthly_churn
         = Returns r ∧
       customer_lifetime_months r = infinity ∧
       cac_payback_months r = infinity ∧
       healthy r = false.
Proof.
  intros Hc.
  destruct (without_churn cac ltv gross_margin monthly_churn Hc) as [q Hr].
  eexists. split; [exact Hr |].
  cbn [customer_lifetime_months cac_payback_months healthy].
  split; [done |]. split; [done |].
  change (ltb infinity (of_int 12)) with false.
  apply andb_false_r.
Qed.

Lemma no_churn_is_unhealthy_witness :
  ∃ r, calculate_unit_economics infinity 1000%float 5000%float 0.8%float 0%float
         = Returns r ∧
       customer_lifetime_months r = infinity ∧
       cac_payback_months r = infinity ∧
       healthy r = false.
Proof.
  apply (no_churn_is_unhealthy 1000 5000 0.8 0). vm_compute. reflexivity.
Defined.

(** X14.  The one failure of [calculate_unit_economics] in binary64: it
    raises exactly when [monthly_churn] is above 0 and [1 / monthly_churn] is
    zero, as for an infinite churn, and then by a division by zero. *)
Theorem unit_economics_failure (cac ltv gross_margin monthly_churn : float)
    (e : exception) :
  calculate_unit_economics infinity cac ltv gross_margin monthly_churn
    = Raises e ↔
  e = ZeroDivisionError ∧ ltb (of_int 0) monthly_churn = true ∧
  eqb (div (of_int 1) monthly_churn) (of_int 0) = true.
Proof.
  destruct (ltb (of_int 0) monthly_churn) eqn:Hc.
  2: { destruct (without_churn cac ltv gross_margin monthly_churn Hc)
         as (q & ->). split; [done | by intros (_ & ? & _)]. }
  unfold calculate_unit_economics. rewrite Hc.
  rewrite (truediv_positive (of_int 1) monthly_churn Hc).
  cbn [mbind outcome_bind].
  destruct (guarded_division_returns ltv cac) as [q ->].
  cbn [mbind outcome_bind].
  change (PrimFloat.div (of_int 1) monthly_churn)
    with (div (of_int 1) monthly_churn).
  set (clm := div (of_int 1) monthly_churn).
  assert (Hlast : ∀ arpu, ∃ p,
            (if ltb (of_int 0) (mul arpu gross_margin)
             then truediv cac (mul arpu gross_margin)
             else Returns infinity) = Returns p)
    by (intros arpu; apply guarded_division_returns).
  destruct (eqb clm infinity) eqn:Hinf; cbn [negb].
  - cbn [mbind outcome_bind]. destruct (Hlast (of_int 0)) as [p ->].
    cbn [mbind outcome_bind].
    pose proof (infinite_nonzero clm Hinf) as Hnz.
    change (eqb clm (of_int 0) = false) in Hnz. rewrite Hnz.
    split; [done | by intros (_ & _ & ?)].
  - change (truediv ltv clm)
      with (if eqb clm (of_int 0) then Raises ZeroDivisionError
            else Returns (div ltv clm)).
    destruct (eqb clm (of_int 0)) eqn:Hz; cbn [mbind outcome_bind].
    + split; [by intros [= <-] | by intros (-> & _)].
    + destruct (Hlast (div ltv clm)) as [p ->].
      cbn [mbind outcome_bind]. split; [done | by intros (_ & _ & ?)].
Qed.

(** The raising case occurs: an infinite churn gives a lifetime of 0
    months. *)
Lemma infinite_churn_raises :
  calculate_unit_economics infinity 1000%float 5000%float 0.8%float infinity
  = Raises ZeroDivisionError.
Proof. vm_compute. reflexivity. Qed.

End UnitEconomics.

Module BuildVersusBuy.
Import Num PyExn Operations FloatOrder.

(** X15.  [calculate_build_vs_buy] raises nothing in binary64, for a build
    time that converts to a float: its one division by an argument is guarded
    by [buy_cost_monthly > 0], and without a positive monthly price the
    break-even is infinite. *)
Theorem build_vs_buy_returns (build_cost : float) (build_time_months : Z)
    (buy_cost_monthly integration_cost : float) :
  - 2 ^ 63 < build_time_months < 2 ^ 63 →
  ∃ r, calculate_build_vs_buy infinity PrimFloat.abs build_cost
         build_time_months buy_cost_monthly integration_cost = Returns r ∧
       (ltb (of_int 0) buy_cost_monthly = false →
        break_even_months r = infinity).
Proof.
  intros _. unfold calculate_build_vs_buy.
  destruct (ltb (of_int 0) buy_cost_monthly) eqn:Hb.
  - rewrite truediv_positive by exact Hb. cbn [mbind outcome_bind].
    eexists. split; [reflexivity | done].
  - cbn [mbind outcome_bind]. eexists. split; [reflexivity | done].
Qed.

Lemma build_vs_buy_returns_witness :
  ∃ r, calculate_build_vs_buy infinity PrimFloat.abs 500000%float 6
         0%float 20000%float = Returns r ∧
       (ltb (of_int 0) 0%float = false → break_even_months r = infinity).
Proof. apply (build_vs_buy_returns 500000 6 0 20000). lia. Defined.

End BuildVersusBuy.

(** * Sorting and choosing by a key *)

Module Keyed.
Import Py Num PyKey.

Section Ordered.
Context {T : Type} `{Arith T}.
Variable keys : list T.
Hypothesis Hkeys : ordersb keys = true.

Lemma ordersb_asymmetric (x y : T) :
  x ∈ keys → y ∈ keys → ltb x y = true → ltb y x = false.
Proof using Hkeys.
  intros Hx%list_elem_of_In Hy%list_elem_of_In Hlt.
  unfold ordersb in Hkeys.
  pose proof (proj1 (forallb_forall _ _) Hkeys x Hx) as H1.
  pose proof (proj1 (forallb_forall _ _) H1 y Hy) as H2.
  pose proof (proj1 (forallb_forall _ _) H2 x Hx) as H3.
  cbv beta in H3. apply andb_prop in H3 as [H3 _]. rewrite Hlt in H3. cbn in H3. by destruct (ltb y x).
Qed.

Lemma ordersb_irreflexive (x : T) : x ∈ keys → ltb x x = false.
Proof using Hkeys.
  intros Hx. destruct (ltb x x) eqn:Hlt; [| done].
  by rewrite (ordersb_asymmetric x x Hx Hx Hlt) in Hlt.
Qed.

Lemma ordersb_between (x y z : T) :
  x ∈ keys → y ∈ keys → z ∈ keys →
  ltb x z = true → ltb x y = true ∨ ltb y z = true.
Proof using Hkeys.
  intros Hx%list_elem_of_In Hy%list_elem_of_In Hz%list_elem_of_In Hlt.
  unfold ordersb in Hkeys.
  pose proof (proj1 (forallb_forall _ _) Hkeys x Hx) as H1.
  pose proof (proj1 (forallb_forall _ _) H1 y Hy) as H2.
  pose proof (proj1 (forallb_forall _ _) H2 z Hz) as H3.
  cbv beta in H3. apply andb_prop in H3 as [_ H3]. rewrite Hlt in H3. cbn in H3.
  apply orb_prop in H3. destruct H3; auto.
Qed.

Lemma ordersb_transitive (x y z : T) :
  x ∈ keys → y ∈ keys → z ∈ keys →
  ltb x y = true → ltb y z = true → ltb x z = true.
Proof using Hkeys.
  intros Hx Hy Hz Hxy Hyz.
  destruct (ordersb_between x z y Hx Hz Hy Hxy) as [? | Hzy]; [done |].
  by rewrite (ordersb_asymmetric y z Hy Hz Hyz) in Hzy.
Qed.

Context {A : Type}.
Variable key : A → T.

Lemma insert_desc_perm (x : A) (l : list A) : insert_desc key x l ≡ₚ x :: l.
Proof.
  induction l as [|y r IH]; cbn [insert_desc]; [done |].
  destruct (ltb (key x) (key y)); [| done].
  rewrite IH. apply Permutation_swap.
Qed.

Lemma sorted_desc_perm (l : list A) : sorted_desc key l ≡ₚ l.
Proof.
  induction l as [|x r IH]; [done |]. unfold sorted_desc. cbn [fold_right].
  rewrite insert_desc_perm. by constructor.
Qed.

Lemma insert_desc_sorted (x : A) (l : list A) :
  key x ∈ keys → Forall (λ y, key y ∈ keys) l →
  StronglySorted (λ a b, ltb (key a) (key b) = false) l →
  StronglySorted (λ a b, ltb (key a) (key b) = false) (insert_desc key x l).
Proof using Hkeys.
  intros Hx Hl Hs. induction Hs as [|y r Hr IH Hall]; cbn [insert_desc].
  - repeat constructor.
  - apply Forall_cons in Hl as [Hy Hl].
    destruct (ltb (key x) (key y)) eqn:Hxy.
    + constructor; [by apply IH |].
      rewrite insert_desc_perm. constructor; [| done].
      by apply ordersb_asymmetric.
    + constructor; [by constructor |]. constructor; [done |].
      apply Forall_forall. intros z Hz.
      destruct (ltb (key x) (key z)) eqn:Hxz; [| done].
      assert (Hkz : key z ∈ keys) by by eapply Forall_forall in Hl.
      destruct (ordersb_between _ (key y) _ Hx Hy Hkz Hxz) as [E | E].
      * by rewrite E in Hxy.
      * eapply Forall_forall in Hall; [| exact Hz]. by rewrite E in Hall.
Qed.

Lemma sorted_desc_sorted (l : list A) :
  Forall (λ y, key y ∈ keys) l →
  StronglySorted (λ a b, ltb (key a) (key b) = false) (sorted_desc key l).
Proof using Hkeys.
  induction 1 as [|x r Hx Hr IH]; [constructor |].
  unfold sorted_desc. cbn [fold_right]. apply insert_desc_sorted; [done | | done].
  fold (sorted_desc key r). by rewrite sorted_desc_perm.
Qed.

Lemma fold_best (r : list A) :
  ∀ (best : A) (seen : list A),
    Forall (λ y, key y ∈ keys) (seen ++ r) →
    best ∈ seen → Forall (λ y, ltb (key best) (key y) = false) seen →
    let b := fold_left (λ best y, if ltb (key best) (key y) then y else best)
                       r best in
    b ∈ seen ++ r ∧ Forall (λ y, ltb (key b) (key y) = false) (seen ++ r).
Proof using Hkeys.
  induction r as [|y r IH]; intros best seen Hk Hin Hall; cbn [fold_left].
  - rewrite app_nil_r. done.
  - replace (seen ++ y :: r) with ((seen ++ [y]) ++ r) in *
      by by rewrite <- app_assoc.
    assert (Hky : key y ∈ keys).
    { eapply Forall_forall in Hk; [exact Hk |]. set_solver. }
    assert (Hkb : key best ∈ keys).
    { eapply Forall_forall in Hk; [exact Hk |]. set_solver. }
    destruct (ltb (key best) (key y)) eqn:Hlt.
    + apply IH; [done | set_solver |].
      apply Forall_app. split.
      * apply Forall_forall. intros z Hz.
        destruct (ltb (key y) (key z)) eqn:Hyz; [| done].
        assert (Hkz : key z ∈ keys).
        { eapply Forall_forall in Hk; [exact Hk |]. set_solver. }
        eapply Forall_forall in Hall; [| exact Hz].
        by rewrite (ordersb_transitive _ _ _ Hkb Hky Hkz Hlt Hyz) in Hall.
      * constructor; [| constructor]. by apply ordersb_irreflexive.
    + apply IH; [done | set_solver |].
      apply Forall_app. split; [done |]. by repeat constructor.
Qed.

Lemma max_by_greatest (l : list A) (b : A) :
  Forall (λ y, key y ∈ keys) l →
  max_by key l = Ret b →
  b ∈ l ∧ Forall (λ y, ltb (key b) (key y) = false) l.
Proof using Hkeys.
  destruct l as [|x r]; [done |]. intros Hk [= <-].
  apply (fold_best r x [x]); [done | set_solver |].
  constructor; [| constructor]. apply ordersb_irreflexive.
  by apply Forall_cons in Hk as [? _].
Qed.

End Ordered.

End Keyed.

(** * Properties of the failure-mode analysis *)

Module FailureModes.
Import Py Num PyKey RiskModes Keyed.

(** X17.  The analysis fails on the empty dict and nowhere else: though
    [highest_risk] is written for it ([... if sorted_risks else None]), the
    [max] behind [highest_probability] raises [ValueError]. *)
Theorem failure_modes_empty_raises {T : Type} `{Arith T}
    (modes : list (string * (T * T))) (e : exn) :
  failure_mode_analysis modes = Raise e ↔ modes = [] ∧ e = ValueError.
Proof.
  unfold failure_mode_analysis. destruct modes as [|item rest]; cbn.
  - split; [by intros [= <-] | by intros [_ ->]].
  - split; [done | by intros [? _]].
Qed.


(** X18.  Where [<] orders the risk scores, the report lists the modes by
    falling score: [failure_modes] holds every mode of the input once, no
    entry has a score below that of a later one, and [highest_risk] names the
    first entry. *)
Theorem failure_modes_by_falling_score {T : Type} `{Arith T}
    (modes : list (string * (T * T))) (r : assessment T) :
  ordersb ((λ x : string * (T * T), mul x.2.1 x.2.2) <$> modes) = true →
  failure_mode_analysis modes = Ret r →
  failure_modes r ≡ₚ assess <$> modes ∧
  StronglySorted (λ a b, ltb (risk_score a.2) (risk_score b.2) = false)
                 (failure_modes r) ∧
  highest_risk r = fst <$> head (failure_modes r).
Proof.
  intros Hord. unfold failure_mode_analysis.
  destruct (max_by (λ x, x.2.1) modes) as [bp|]; cbn [mbind res_bind]; [| done].
  destruct (max_by (λ x, x.2.2) modes) as [bi|]; cbn [mbind res_bind]; [| done].
  intros [= <-]. cbn [failure_modes highest_risk].
  split; [apply sorted_desc_perm |]. split.
  - eapply (sorted_desc_sorted _ Hord). apply Forall_fmap, Forall_forall.
    intros [mode [prob imp]] Hin. cbn.
    apply list_elem_of_fmap. by exists (mode, (prob, imp)).
  - by destruct (sorted_desc _ _).
Qed.

Lemma failure_modes_by_falling_score_witness :
  ∃ r, failure_mode_analysis launch_failure_modes = Ret r ∧
       highest_risk r = Some "market_rejection"%string ∧
       StronglySorted (λ a b, ltb (risk_score a.2) (risk_score b.2) = false)
                      (failure_modes r).
Proof.
  eexists. split; [vm_compute; reflexivity |]. split; [reflexivity |].
  refine (proj1 (proj2 (failure_modes_by_falling_score
                          launch_failure_modes _ _ _))).
  - vm_compute. reflexivity.
  - vm_compute. reflexivity.
Defined.

(** X19.  Where [<] orders the probabilities and the impacts, the mode
    reported as [highest_probability] is a mode of the input whose probability
    none exceeds, and [highest_impact] likewise for the impact. *)
Theorem highest_probability_and_impact {T : Type} `{Arith T}
    (modes : list (string * (T * T))) (r : assessment T) :
  ordersb ((λ x : string * (T * T), x.2.1) <$> modes) = true →
  ordersb ((λ x : string * (T * T), x.2.2) <$> modes) = true →
  failure_mode_analysis modes = Ret r →
  (∃ prob imp, (highest_probability r, (prob, imp)) ∈ modes ∧
               Forall (λ x, ltb prob x.2.1 = false) modes) ∧
  (∃ prob imp, (highest_impact r, (prob, imp)) ∈ modes ∧
               Forall (λ x, ltb imp x.2.2 = false) modes).
Proof.
  intros Hp Hi. unfold failure_mode_analysis.
  destruct (max_by (λ x, x.2.1) modes) as [[mp [pp ip]]|] eqn:Hmp;
    cbn [mbind res_bind]; [| done].
  destruct (max_by (λ x, x.2.2) modes) as [[mi [pi ii]]|] eqn:Hmi;
    cbn [mbind res_bind]; [| done].
  intros [= <-]. cbn [highest_probability highest_impact fst].
  apply (max_by_greatest _ Hp) in Hmp as [Hin1 Hall1].
  2: { apply Forall_forall. intros x Hx. apply list_elem_of_fmap. eauto. }
  apply (max_by_greatest _ Hi) in Hmi as [Hin2 Hall2].
  2: { apply Forall_forall. intros x Hx. apply list_elem_of_fmap. eauto. }
  split; eauto.
Qed.

Lemma highest_probability_and_impact_witness :
  ∃ r, failure_mode_analysis launch_failure_modes = Ret r ∧
       highest_probability r = "market_rejection"%string ∧
       highest_impact r = "regulatory"%string ∧
       (∃ prob imp,
          (highest_probability r, (prob, imp)) ∈ launch_failure_modes ∧
          Forall (λ x, ltb prob x.2.1 = false) launch_failure_modes).
Proof.
  eexists. split; [vm_compute; reflexivity |].
  split; [reflexivity |]. split; [reflexivity |].
  refine (proj1 (highest_probability_and_impact launch_failure_modes _ _ _ _)).
  - vm_compute. reflexivity.
  - vm_compute. reflexivity.
  - vm_compute. reflexivity.
Defined.

End FailureModes.

(** * Joint probabilities *)

Module JointProbability.
Import Num RiskModes.

Lemma product_bounds (ps : list R) :
  Forall (λ p, 0 <= p <= 1)%R ps →
  (0 <= product ps <= 1)%R ∧ Forall (λ p, product ps <= p)%R ps.
Proof.
  induction 1 as [|p r Hp Hr [IH1 IH2]]; cbn [product fold_right].
  - split; [lra | constructor].
  - fold (product r). split; [nra |]. constructor; [nra |].
    eapply Forall_impl; [exact IH2 |]. intros q Hq. cbv beta in *. nra.
Qed.

(** X20.  In exact arithmetic the joint probability of events whose
    probabilities lie in [[0, 1]] lies in [[0, 1]] and exceeds none of them,
    whether the events are taken as independent or not; for dependent events
    it is 0.7 times that of independent ones. *)
Theorem joint_probability_bounds (probabilities : list R) (independent : bool) :
  Forall (λ p, 0 <= p <= 1)%R probabilities →
  (0 <= calculate_joint_probability product probabilities independent <= 1)%R ∧
  Forall (λ p, calculate_joint_probability product probabilities independent
               <= p)%R probabilities ∧
  calculate_joint_probability product probabilities false =
    (7 / 10 * calculate_joint_probability product probabilities true)%R.
Proof.
  intros Hall. destruct (product_bounds probabilities Hall) as [Hb Hle].
  unfold calculate_joint_probability.
  cbn [mul div of_int dec exact]. split; [| split; [| lra]].
  - destruct independent; lra.
  - destruct independent; [done |].
    eapply Forall_impl; [exact Hle |]. intros q Hq. cbv beta in *. lra.
Qed.

Lemma joint_probability_bounds_witness :
  (0 <= calculate_joint_probability product [4 / 10; 7 / 10]%R false <= 1)%R ∧
  Forall (λ p, calculate_joint_probability product [4 / 10; 7 / 10]%R false
               <= p)%R [4 / 10; 7 / 10]%R ∧
  calculate_joint_probability product [4 / 10; 7 / 10]%R false =
    (7 / 10 * calculate_joint_probability product [4 / 10; 7 / 10]%R true)%R.
Proof.
  apply (joint_probability_bounds [4 / 10; 7 / 10]%R false).
  repeat constructor; lra.
Defined.

End JointProbability.

(** * The share of losses, over the real numbers *)

Module Tail.
Import Py Num RiskAnalyzer NumpyReal NumpyRealFacts.

(** Over the reals a call that returns has summarised an array of
    [n_simulations] elements. *)
Lemma stream_simulation_Ret (normal_stream uniform_stream : nat → R)
    (base_case volatility : R) (n : Z) (include_black_swan : bool)
    (g g' : nat) (r : simulation R) :
  monte_carlo_simulation (H := stream_numpy normal_stream uniform_stream)
    base_case volatility n include_black_swan g = (Ret r, g') →
  ∃ sims, length sims = Z.to_nat n ∧
          summary (H := stream_numpy normal_stream uniform_stream) sims n = Ret r.
Proof.
  unfold monte_carlo_simulation.
  cbn [random_normal random_random stream_numpy]. unfold normal, uniform.
  destruct (Rlt_dec _ 0); [done |]. destruct (n <? 0); [done |].
  destruct include_black_swan.
  - intros [= Hs _]. eexists. split; [| exact Hs].
    unfold mask_assign. rewrite length_zip_with, !length_fmap, !length_seq.
    lia.
  - intros [= Hs _]. eexists. split; [| exact Hs].
    by rewrite length_fmap, length_seq.
Qed.

(** X22.  With numpy computed over the reals, [probability_loss] is a
    probability: the share of the outcomes below 0 lies in [[0, 1]]. *)
Theorem probability_loss_is_probability (normal_stream uniform_stream : nat → R)
    (base_case volatility : R) (n : Z) (include_black_swan : bool)
    (g g' : nat) (r : simulation R) :
  monte_carlo_simulation (H := stream_numpy normal_stream uniform_stream)
    base_case volatility n include_black_swan g = (Ret r, g') →
  (0 <= probability_loss r <= 1)%R.
Proof.
  intros (sims & Hlen & Hs)%stream_simulation_Ret.
  unfold summary in Hs. cbn [percentile np_min np_max np_mean stream_numpy] in Hs.
  destruct (linear_percentile sims 5) as [q5|] eqn:H5; [| done].
  destruct (linear_percentile sims 10) as [q10|]; [| done].
  destruct (linear_percentile sims 25) as [q25|]; [| done].
  destruct (linear_percentile sims 50) as [q50|]; [| done].
  destruct (linear_percentile sims 75) as [q75|]; [| done].
  destruct (linear_percentile sims 90) as [q90|]; [| done].
  destruct (linear_percentile sims 95) as [q95|]; [| done].
  destruct (amin sims) as [lo|] eqn:Hlo; [| done].
  destruct (amax sims) as [hi|]; [| done].
  cbn [mbind res_bind] in Hs. injection Hs as <-.
  cbn [probability_loss].
  cbn [div of_int np_arith stream_numpy exact].
  set (losses := List.filter _ sims).
  assert (Hne : (0 < length sims)%nat).
  { destruct sims; [done | cbn; lia]. }
  assert (Hcount : (length losses ≤ length sims)%nat).
  { apply List.filter_length_le. }
  assert (Hn : n = Z.of_nat (length sims)) by lia.
  rewrite Hn, <- !INR_IZR_INZ.
  assert (Hpos : (0 < INR (length sims))%R) by by apply lt_0_INR.
  pose proof (pos_INR (length losses)) as H0.
  pose proof (le_INR _ _ Hcount) as H1.
  split.
  - apply Rmult_le_pos; [done |]. left. by apply Rinv_0_lt_compat.
  - apply (Rmult_le_reg_r (INR (length sims))); [done |].
    replace (INR (length losses) / INR (length sims) * INR (length sims))%R
      with (INR (length losses)) by (field; lra). lra.
Qed.

Lemma probability_loss_is_probability_witness :
  ∃ r, monte_carlo_simulation 10%R (3 / 10)%R 1 false 0%nat = (Ret r, 1%nat) ∧
       (0 <= probability_loss r <= 1)%R.
Proof.
  destruct (Simulator.example_invocation 0) as (r & Hr & _).
  exists r. split; [exact Hr |].
  exact (probability_loss_is_probability example_normal example_uniform
           10%R (3 / 10)%R 1 false 0%nat 1%nat r Hr).
Defined.

End Tail.

(** * The Bayesian update in exact arithmetic *)

Module Posterior.
Import Num RiskAnalyzer.

Lemma bayesian_update_cases (prior lt lf : R) :
  let evidence := (lt * prior + lf * (1 - prior))%R in
  (evidence = 0%R ∧ bayesian_update prior lt lf = prior) ∨
  (evidence ≠ 0%R ∧ bayesian_update prior lt lf = (lt * prior / evidence)%R).
Proof.
  cbv zeta. unfold bayesian_update. cbn [add sub mul div eqb of_int exact].
  destruct (Req_dec_T _ _) as [E | NE]; [by left | by right].
Qed.

(** X23.  In exact arithmetic the update returns a probability: for a
    prior in [[0, 1]] and likelihoods that are not negative, the posterior
    lies in [[0, 1]]. *)
Theorem posterior_is_probability (prior lt lf : R) :
  (0 <= prior <= 1)%R → (0 <= lt)%R → (0 <= lf)%R →
  (0 <= bayesian_update prior lt lf <= 1)%R.
Proof.
  intros Hp Hlt Hlf.
  destruct (bayesian_update_cases prior lt lf) as [[_ ->] | [NE ->]]; [done |].
  set (e := (lt * prior + lf * (1 - prior))%R) in *.
  assert (H1 : (0 <= lt * prior)%R) by nra.
  assert (H2 : (0 <= lf * (1 - prior))%R) by nra.
  assert (He : (0 < e)%R) by (unfold e in *; lra).
  split.
  - apply Rmult_le_pos; [done |]. left. by apply Rinv_0_lt_compat.
  - apply (Rmult_le_reg_r e); [done |].
    replace (lt * prior / e * e)%R with (lt * prior)%R by (field; lra).
    unfold e. lra.
Qed.

Lemma posterior_is_probability_witness :
  (0 <= bayesian_update (1 / 2) (9 / 10) (1 / 10) <= 1)%R.
Proof. apply posterior_is_probability; lra. Defined.

End Posterior.

(** * Properties of the MVP plan *)

Module MvpPlan.
Import Num PyExn PyKey Operations OperationsExamples Rounding Keyed.

Lemma fold_add_shift (l : list Z) (a : Z) :
  fold_left Z.add l a = a + Py.sum l.
Proof.
  unfold Py.sum. revert a. induction l as [|x r IH]; intros a; cbn; [lia |].
  rewrite (IH (a + x)), (IH (0 + x)). lia.
Qed.

Lemma sum_cons (x : Z) (l : list Z) : Py.sum (x :: l) = x + Py.sum l.
Proof. unfold Py.sum at 1. cbn. by rewrite fold_add_shift. Qed.

Lemma sum_app (l k : list Z) : Py.sum (l ++ k) = Py.sum l + Py.sum k.
Proof.
  induction l as [|x r IH]; [done |].
  cbn [app]. rewrite !sum_cons, IH. lia.
Qed.

Lemma sum_perm (l k : list Z) : l ≡ₚ k → Py.sum l = Py.sum k.
Proof.
  induction 1; rewrite ?sum_cons in *; lia.
Qed.

Lemma sum_nonneg (l : list Z) : Forall (λ x, 0 ≤ x) l → 0 ≤ Py.sum l.
Proof. induction 1; rewrite ?sum_cons; [done | lia]. Qed.

(** X26.  A feature list whose efforts add up to 0, the empty list among
    them, never yields a plan: whatever comes before, the division by
    [total_effort] in [effort_saved] raises. *)
Theorem effortless_features_raise {T : Type} `{Arith T}
    (ceil : T → outcome Z) (features : list feature) (team_velocity : T) :
  Py.sum (effort <$> features) = 0 →
  ∃ e, calculate_mvp_resources ceil features team_velocity = Raises e.
Proof.
  intros Hz. unfold calculate_mvp_resources. rewrite Hz.
  destruct (truediv (of_int (Py.sum _)) team_velocity ≫= ceil) as [s1|e1];
    cbn [mbind outcome_bind]; [| eauto].
  destruct (truediv (of_int 0) team_velocity ≫= ceil) as [s2|e2];
    cbn [mbind outcome_bind]; [| eauto].
  unfold truediv_int. cbn. eauto.
Qed.

Lemma effortless_features_raise_witness :
  ∃ e, calculate_mvp_resources (T := float) float_ceil [] 20%float = Raises e.
Proof. apply (effortless_features_raise (T := float)). reflexivity. Defined.

(** X27.  The size of the MVP.  A plan that is returned selects
    [max(1, n // 5)] of the [n] features, each selected name is a feature's,
    the features cut are the others, the MVP takes two weeks per sprint, and
    when no effort is negative its effort is at most the full effort. *)
Theorem mvp_selection_size {T : Type} `{Arith T}
    (ceil : T → outcome Z) (features : list feature) (team_velocity : T)
    (r : mvp T) :
  calculate_mvp_resources ceil features team_velocity = Returns r →
  Z.of_nat (length (mvp_features r)) =
    Z.max 1 (Z.of_nat (length features) / 5) ∧
  mvp_features r ⊆+ name <$> features ∧
  features_cut r =
    Z.of_nat (length features) - Z.of_nat (length (mvp_features r)) ∧
  mvp_weeks r = 2 * mvp_sprints r ∧
  (Forall (λ f, 0 ≤ effort f) features →
   0 ≤ mvp_effort_points r ≤ full_effort_points r).
Proof.
  unfold calculate_mvp_resources.
  set (n := Z.of_nat (length features)).
  set (chosen := take (Z.to_nat (Z.max 1 (n / 5))) (sorted_desc roi features)).
  destruct (truediv (of_int (Py.sum (effort <$> chosen))) team_velocity ≫= ceil)
    as [s1|]; cbn [mbind outcome_bind]; [| done].
  destruct (truediv (of_int (Py.sum (effort <$> features))) team_velocity
            ≫= ceil) as [s2|]; cbn [mbind outcome_bind]; [| done].
  unfold truediv_int.
  destruct (Py.sum (effort <$> features) =? 0) eqn:Hz; [done |].
  apply Z.eqb_neq in Hz. cbn [mbind outcome_bind]. intros [= <-].
  cbn [mvp_features features_cut mvp_weeks mvp_sprints mvp_effort_points
       full_effort_points].
  assert (Hperm : sorted_desc roi features ≡ₚ features) by apply sorted_desc_perm.
  assert (Hn : 1 ≤ n).
  { unfold n. destruct features; [done | cbn; lia]. }
  assert (Hle : Z.max 1 (n / 5) ≤ n).
  { assert (n / 5 ≤ n) by (apply Z.div_le_upper_bound; lia). lia. }
  assert (Hlen : Z.of_nat (length chosen) = Z.max 1 (n / 5)).
  { unfold chosen. rewrite length_take_le; [lia |].
    rewrite (Permutation_length Hperm). unfold n in *. lia. }
  rewrite !length_fmap. split; [done |]. split.
  { apply fmap_submseteq. rewrite <- Hperm. apply submseteq_take. }
  split; [done |]. split; [lia |].
  intros Hpos.
  assert (Hpos' : Forall (λ f, 0 ≤ effort f) (sorted_desc roi features))
    by by rewrite Hperm.
  rewrite <- (take_drop (Z.to_nat (Z.max 1 (n / 5))) (sorted_desc roi features))
    in Hperm, Hpos'.
  fold chosen in Hperm, Hpos'. apply Forall_app in Hpos' as [Hc Hd].
  rewrite <- (sum_perm _ _ (fmap_Permutation effort _ _ Hperm)).
  rewrite fmap_app, sum_app.
  pose proof (sum_nonneg (effort <$> chosen) ltac:(by apply Forall_fmap)).
  pose proof (sum_nonneg (effort <$> drop (Z.to_nat (Z.max 1 (n / 5)))
                                          (sorted_desc roi features))
                ltac:(by apply Forall_fmap)).
  lia.
Qed.

(** On the features that [main] plans. *)
Lemma mvp_selection_size_witness :
  ∃ r, calculate_mvp_resources (T := float) float_ceil main_features 20%float
         = Returns r ∧
       mvp_features r = ["Core Auth"%string] ∧
       Z.of_nat (length (mvp_features r)) =
         Z.max 1 (Z.of_nat (length main_features) / 5) ∧
       features_cut r =
         Z.of_nat (length main_features) - Z.of_nat (length (mvp_features r)).
Proof.
  assert (Hr : ∃ r, calculate_mvp_resources (T := float) float_ceil
                      main_features 20%float = Returns r ∧
                    mvp_features r = ["Core Auth"%string]).
  { eexists. split; vm_compute; reflexivity. }
  destruct Hr as (r & Hr & Hnames). exists r.
  destruct (mvp_selection_size float_ceil main_features 20%float r Hr)
    as (H1 & _ & H3 & _).
  done.
Defined.

(** X28.  Where [<] orders the ROIs, the MVP holds the best of them: the
    features fall into the selected ones, whose names the plan lists in
    order, and the others, and no selected feature has a ROI below that of a
    feature left out. *)
Theorem mvp_takes_best_roi {T : Type} `{Arith T}
    (ceil : T → outcome Z) (features : list feature) (team_velocity : T)
    (r : mvp T) :
  ordersb (roi <$> features) = true →
  calculate_mvp_resources ceil features team_velocity = Returns r →
  ∃ selected others,
    selected ++ others ≡ₚ features ∧
    mvp_features r = name <$> selected ∧
    ∀ s c, s ∈ selected → c ∈ others → ltb (roi s) (roi c) = false.
Proof.
  intros Hord. unfold calculate_mvp_resources.
  set (k := Z.to_nat (Z.max 1 (Z.of_nat (length features) / 5))).
  set (chosen := take k (sorted_desc roi features)).
  destruct (truediv (of_int (Py.sum (effort <$> chosen))) team_velocity ≫= ceil)
    as [s1|]; cbn [mbind outcome_bind]; [| done].
  destruct (truediv (of_int (Py.sum (effort <$> features))) team_velocity
            ≫= ceil) as [s2|]; cbn [mbind outcome_bind]; [| done].
  destruct (truediv_int _ _) as [saved|]; cbn [mbind outcome_bind]; [| done].
  intros [= <-]. cbn [mvp_features].
  exists (take k (sorted_desc roi features)), (drop k (sorted_desc roi features)).
  rewrite take_drop. split; [apply sorted_desc_perm |]. split; [done |].
  intros s c Hs Hc.
  assert (Hsorted : StronglySorted (λ a b, ltb (roi a) (roi b) = false)
                                   (sorted_desc roi features)).
  { apply (sorted_desc_sorted _ Hord). apply Forall_forall.
    intros f Hf. apply list_elem_of_fmap. eauto. }
  rewrite <- (take_drop k (sorted_desc roi features)) in Hsorted.
  by eapply (StronglySorted_app_1_elem_of _ _ _ _ _ Hsorted).
Qed.

Lemma mvp_takes_best_roi_witness :
  ∃ r selected others,
    calculate_mvp_resources (T := float) float_ceil main_features 20%float
      = Returns r ∧
    selected ++ others ≡ₚ main_features ∧
    mvp_features r = name <$> selected ∧
    ∀ s c, s ∈ selected → c ∈ others →
           ltb (roi (T := float) s) (roi c) = false.
Proof.
  assert (Hr : ∃ r, calculate_mvp_resources (T := float) float_ceil
                      main_features 20%float = Returns r).
  { eexists. vm_compute. reflexivity. }
  destruct Hr as (r & Hr). exists r.
  assert (Hord : ordersb (roi (T := float) <$> main_features) = true)
    by (vm_compute; reflexivity).
  destruct (mvp_takes_best_roi float_ceil main_features 20%float r Hord Hr)
    as (selected & others & H1 & H2 & H3).
  exists selected, others. exact (conj Hr (conj H1 (conj H2 H3))).
Defined.

End MvpPlan.

(** * Properties of the hiring plan *)

Module HiringPlan.
Import Num PyExn Operations Rounding.

Section Generic.
Context {T : Type} `{Arith T}.
Variable round : T → outcome Z.
Variable target_headcount : Z.
Variable monthly_attrition : T.

Lemma hiring_loop_shape (fuel : nat) :
  ∀ s s' : hiring_state T,
    hiring_loop round fuel target_headcount monthly_attrition s = Returns s' →
    (months_so_far s ≤ 24)%nat →
    hiring_month_index <$> full_timeline s = seq 0 (months_so_far s) →
    (months_so_far s' ≤ 24)%nat ∧
    hiring_month_index <$> full_timeline s' = seq 0 (months_so_far s').
Proof.
  induction fuel as [|fuel IH]; intros s s'; cbn [hiring_loop].
  - by intros [= <-].
  - destruct (ltb (current s) (of_int target_headcount) &&
              (months_so_far s <? 24)%nat) eqn:Hc; [| by intros [= <-]].
    apply andb_prop in Hc as [_ Hlt%Nat.ltb_lt].
    set (att := mul (current s) monthly_attrition).
    set (mh := min2 (max_monthly_hires s)
                    (add (sub (of_int target_headcount) (current s)) att)).
    set (cur := add (sub (current s) att) mh).
    destruct (round cur) as [h|]; cbn [mbind outcome_bind]; [| done].
    destruct (round mh) as [hi|]; cbn [mbind outcome_bind]; [| done].
    destruct (round att) as [a|]; cbn [mbind outcome_bind]; [| done].
    intros Hs Hm Hp. eapply IH; [exact Hs | cbn; lia |].
    cbn [months_so_far full_timeline].
    rewrite fmap_app, Hp, seq_S. done.
Qed.

Lemma capacity_loop_shape (timeline rest : list hiring_month) :
  ∀ (i : nat) (l : list capacity_month),
    capacity_loop round timeline i rest = Returns l →
    capacity_month_index <$> l = seq i (length rest) ∧
    total_headcount <$> l = headcount <$> rest.
Proof.
  induction rest as [|month_data rest IH]; intros i l; cbn [capacity_loop].
  - by intros [= <-].
  - unfold capacity_of at 1.
    destruct (round _) as [p|]; cbn [mbind outcome_bind]; [| done].
    destruct (capacity_loop round timeline (S i) rest) as [entries|] eqn:He;
      cbn [mbind outcome_bind]; [| done].
    intros [= <-]. destruct (IH _ _ He) as [H1 H2].
    cbn. by rewrite H1, H2.
Qed.

End Generic.

(** X29.  The shape of every hiring plan: at most 24 months, achievable
    exactly when fewer than 24; the timeline holds the months 0, 1, 2, ... in
    order, cut after the first year, and the productive capacity has an entry
    for each of these months, with the same headcount. *)
Theorem hiring_plan_shape {T : Type} `{Arith T} (round : T → outcome Z)
    (current_headcount target_headcount : Z) (monthly_attrition : T)
    (r : hiring_plan) :
  calculate_hiring_plan round current_headcount target_headcount
    monthly_attrition = Returns r →
  (months_to_target r ≤ 24)%nat ∧
  (achievable r = true ↔ (months_to_target r < 24)%nat) ∧
  hiring_month_index <$> timeline r =
    seq 0 (Nat.min 12 (months_to_target r)) ∧
  capacity_month_index <$> productive_capacity r =
    seq 0 (Nat.min 12 (months_to_target r)) ∧
  total_headcount <$> productive_capacity r = headcount <$> timeline r.
Proof.
  unfold calculate_hiring_plan.
  destruct (hiring_loop round 24 _ _ _) as [s|] eqn:Hs;
    cbn [mbind outcome_bind]; [| done].
  apply hiring_loop_shape in Hs as [Hm Hp]; [| cbn; lia | done].
  destruct (capacity_loop round _ 0 _) as [caps|] eqn:Hc;
    cbn [mbind outcome_bind]; [| done].
  apply capacity_loop_shape in Hc as [Hc1 Hc2].
  destruct (round (total_hires s)) as [th|]; cbn [mbind outcome_bind]; [| done].
  destruct (round (sub (total_hires s) _)) as [rh|]; cbn [mbind outcome_bind];
    [| done].
  intros [= <-].
  cbn [months_to_target achievable timeline productive_capacity].
  assert (Hlen : length (full_timeline s) = months_so_far s).
  { by rewrite <- (length_fmap hiring_month_index), Hp, length_seq. }
  split; [done |]. split; [apply Nat.ltb_lt |].
  rewrite !fmap_take, Hp, Hc1, Hc2, Hlen, take_seq. done.
Qed.

Lemma hiring_plan_shape_witness :
  ∃ r, calculate_hiring_plan (T := float) float_round 8 25 0.01%float
         = Returns r ∧
       months_to_target r = 7%nat ∧
       (achievable r = true ↔ (months_to_target r < 24)%nat) ∧
       hiring_month_index <$> timeline r =
         seq 0 (Nat.min 12 (months_to_target r)) ∧
       total_headcount <$> productive_capacity r = headcount <$> timeline r.
Proof.
  assert (Hr : ∃ r, calculate_hiring_plan (T := float) float_round 8 25
                      0.01%float = Returns r ∧ months_to_target r = 7%nat).
  { eexists. split; vm_compute; reflexivity. }
  destruct Hr as (r & Hr & H7). exists r.
  destruct (hiring_plan_shape float_round 8 25 0.01%float r Hr)
    as (_ & H2 & H3 & _ & H5).
  exact (conj Hr (conj H7 (conj H2 (conj H3 H5)))).
Defined.

End HiringPlan.
